(** * RFCCA split statistics: a shallow embedding of [src/splitCustom.c]

    The C file holds five split-statistic functions sharing one argument
    contract.  Each of them is embedded below as a Rocq function over

    - [Z] counters with the wrap-around of [unsigned int] written out ([u32]),
    - 1-based count tables as lists holding one extra cell 0, as
      [alloc_uivector] allocates them,
    - an interface [DoubleOps] for the arithmetic on [double], instantiated
      with IEEE binary64 (Rocq's primitive floats), which is what the compiled
      code computes with, and with the real numbers, which is the arithmetic
      the log-rank formulas are written in. *)

From Stdlib Require Import ZArith List Bool Lia Floats Reals Lra.
Import ListNotations.

Set Implicit Arguments.

(** ** Machine integers *)

Module U32.

Definition modulus : Z := (2 ^ 32)%Z.

(** The value an [unsigned int] expression takes: reduction modulo 2^32. *)
Definition u32 (z : Z) : Z := (z mod modulus)%Z.

(** The value of an [unsigned int] bit pattern read as an [int]
    (two's complement). *)
Definition to_int32 (z : Z) : Z :=
  let w := (z mod modulus)%Z in
  if (w <? 2 ^ 31)%Z then w else (w - modulus)%Z.

End U32.
Import U32.

(** ** 1-based vectors and matrices of [unsigned int]

    [alloc_uivector nh] allocates [nh + 1] cells and the code uses the cells
    [1 .. nh]; cell 0 is allocated and never read.  A list of [nh + 1] cells
    with the C index as the list index models it.  [malloc] leaves the cells
    unspecified; they are taken as 0 here, and every function zeroes the cells
    it uses before counting, as the source does. *)

Module UIVector.

Definition t := list Z.

Definition alloc_uivector (nh : nat) : t := repeat 0%Z (S nh).

Definition get (v : t) (k : nat) : Z := nth k v 0%Z.

(** [v[k] = x]; the model leaves [v] alone where [k] is not a cell of [v],
    which no function below relies on: every index is checked or bounded by
    the loop that produces it. *)
Fixpoint upd {A} (v : list A) (k : nat) (x : A) : list A :=
  match v, k with
  | [], _ => []
  | _ :: v', O => x :: v'
  | y :: v', S k' => y :: upd v' k' x
  end.

Definition set (v : t) (k : nat) (x : Z) : t := upd v k x.

(** [v[k] ++] on an [unsigned int] cell. *)
Definition incr (v : t) (k : nat) : t := set v k (u32 (get v k + 1)%Z).

(** [for (k = 1; k <= nh; k++) v[k] = 0;] *)
Definition zero (nh : nat) (v : t) : t :=
  fold_left (fun v k => set v k 0%Z) (seq 1 nh) v.

(** Sum of the cells [k, k+1, ...] of a vector. *)
Definition suffix (v : t) (k : nat) : Z := fold_right Z.add 0%Z (skipn k v).

End UIVector.
Import UIVector.

(** [alloc_uimatrix n2h nh] allocates [n2h + 1] row pointers and the rows
    [1 .. n2h]; the pointer of row 0 is never set, so row 0 has no cell. *)

Module UIMatrix.

Definition t := list UIVector.t.

Definition alloc_uimatrix (n2h nh : nat) : t :=
  [] :: repeat (alloc_uivector nh) n2h.

Definition row (m : t) (j : nat) : UIVector.t := nth j m [].

Definition get (m : t) (j k : nat) : Z := UIVector.get (row m j) k.

Definition set (m : t) (j k : nat) (x : Z) : t :=
  upd m j (UIVector.set (row m j) k x).

Definition incr (m : t) (j k : nat) : t := set m j k (u32 (get m j k + 1)%Z).

(** [m[j][k] += x] *)
Definition add (m : t) (j k : nat) (x : Z) : t :=
  set m j k (u32 (get m j k + x)%Z).

End UIMatrix.

(** ** Daughter membership

    Modelled from the spec: the constants [LEFT] and [RIGHT] of the host
    package's [global.h], which is not part of the repository; the spec gives
    each observation a membership tag in {LEFT, RIGHT}. *)

Inductive membership_t := LEFT | RIGHT.

Definition is_left (m : membership_t) : bool :=
  match m with LEFT => true | RIGHT => false end.

(** ** Arithmetic on [double] *)

Class DoubleOps (D : Type) := {
  dadd : D -> D -> D;
  dsub : D -> D -> D;
  dmul : D -> D -> D;
  ddiv : D -> D -> D;
  dsqrt : D -> D;
  dfabs : D -> D;
  (** [pow(x, 2.0)] *)
  dpow2 : D -> D;
  (** [x <= y], [x == y] and [x < y] *)
  dleb : D -> D -> bool;
  deqb : D -> D -> bool;
  dltb : D -> D -> bool;
  (** [(double) u] for an [unsigned int] or a non-negative [int] [u] *)
  of_uint : Z -> D;
  (** [(unsigned int) x] and [(int) x]: truncation toward zero, [None] where
      the C standard leaves the conversion undefined (not a number, or a value
      that does not fit) *)
  to_uint : D -> option Z;
  to_int : D -> option Z;
  (** the literal [1.0e-9] *)
  d1em9 : D
}.

Declare Scope double_scope.
Delimit Scope double_scope with D.
Infix "+" := dadd : double_scope.
Infix "-" := dsub : double_scope.
Infix "*" := dmul : double_scope.
Infix "/" := ddiv : double_scope.
Infix "<=?" := dleb : double_scope.
Infix "==?" := deqb (at level 70) : double_scope.
Infix "<?" := dltb : double_scope.

(** *** IEEE binary64 *)

Module IEEE.

(** Truncation toward zero of a floating-point value, from its
    sign-mantissa-exponent form. *)
Definition SFtrunc (x : spec_float) : option Z :=
  match x with
  | S754_zero _ => Some 0%Z
  | S754_finite s m e => Some (cond_Zopp s (Z.shiftl (Zpos m) e))
  | S754_infinity _ | S754_nan => None
  end.

Definition in_range (lo hi : Z) (z : Z) : option Z :=
  if ((lo <=? z) && (z <? hi))%Z then Some z else None.

Definition float_to_uint (x : float) : option Z :=
  match SFtrunc (Prim2SF x) with
  | Some z => in_range 0%Z modulus z
  | None => None
  end.

Definition float_to_int (x : float) : option Z :=
  match SFtrunc (Prim2SF x) with
  | Some z => in_range (- 2 ^ 31)%Z (2 ^ 31)%Z z
  | None => None
  end.

Definition float_of_uint (z : Z) : float := PrimFloat.of_uint63 (Uint63.of_Z z).

(** The exact value of a finite float as a fraction [num / 2^k]. *)
Definition SFvalue (x : spec_float) : option (Z * Z) :=
  match x with
  | S754_zero _ => Some (0, 1)%Z
  | S754_finite s m e =>
      Some (if (0 <=? e)%Z then (cond_Zopp s (Zpos m * 2 ^ e), 1)%Z
            else (cond_Zopp s (Zpos m), 2 ^ (- e))%Z)
  | S754_infinity _ | S754_nan => None
  end.

End IEEE.

(** The arithmetic of the compiled code.  [pow(x, 2.0)] is the correctly
    rounded square: it is what a [pow] with an error below one unit in the
    last place returns whenever the square is a double, and what compilers
    emit for the constant exponent 2. *)
#[export] Instance float_ops : DoubleOps float := {
  dadd := PrimFloat.add;
  dsub := PrimFloat.sub;
  dmul := PrimFloat.mul;
  ddiv := PrimFloat.div;
  dsqrt := PrimFloat.sqrt;
  dfabs := PrimFloat.abs;
  dpow2 := fun x => PrimFloat.mul x x;
  dleb := PrimFloat.leb;
  deqb := PrimFloat.eqb;
  dltb := PrimFloat.ltb;
  of_uint := IEEE.float_of_uint;
  to_uint := IEEE.float_to_uint;
  to_int := IEEE.float_to_int;
  d1em9 := 0x1.12e0be826d695p-30%float
}.

(** *** Exact real arithmetic *)

Module Exact.

Definition Rtrunc (x : R) : Z :=
  if Rle_dec 0 x then Int_part x else (- Int_part (- x))%Z.

Definition Rleb (x y : R) : bool := if Rle_dec x y then true else false.
Definition Reqb (x y : R) : bool := if Req_dec_T x y then true else false.
Definition Rltb (x y : R) : bool := if Rlt_dec x y then true else false.

End Exact.

#[export] Instance real_ops : DoubleOps R := {
  dadd := Rplus;
  dsub := Rminus;
  dmul := Rmult;
  ddiv := Rdiv;
  dsqrt := sqrt;
  dfabs := Rabs;
  dpow2 := fun x => Rmult x x;
  dleb := Exact.Rleb;
  deqb := Exact.Reqb;
  dltb := Exact.Rltb;
  of_uint := IZR;
  to_uint := fun x => IEEE.in_range 0%Z modulus (Exact.Rtrunc x);
  to_int := fun x => IEEE.in_range (- 2 ^ 31)%Z (2 ^ 31)%Z (Exact.Rtrunc x);
  d1em9 := (1 / 1000000000)%R
}.

(** ** The argument contract shared by the split rules *)

Record Node (D : Type) := {
  n : nat;
  membership : list membership_t;
  time : list D;
  event : list D;
  eventTypeSize : nat;
  eventTimeSize : nat;
  eventTime : list D;
  response : list D;
  mean : D;
  variance : D;
  maxLevel : nat;
  feature : list (list D);
  featureCount : nat
}.

(** The caller's arrays are 1-based: [get1 d a i] reads the [i]-th entry of
    the list [a] of the entries [1 .. n]. *)
Definition get1 {A} (d : A) (a : list A) (i : nat) : A :=
  match i with O => d | S j => nth j a d end.

(** The four count vectors of the log-rank rules. *)
Record counts := {
  nodeLeftEvent : UIVector.t;
  nodeParentEvent : UIVector.t;
  nodeLeftAtRisk : UIVector.t;
  nodeParentAtRisk : UIVector.t
}.

(** The four count matrices of the competing-risk rule, with the vectors. *)
Record cr_counts := {
  vectors : counts;
  nodeLeftEventCR : UIMatrix.t;
  nodeParentEventCR : UIMatrix.t;
  nodeLeftInclusiveAtRisk : UIMatrix.t;
  nodeParentInclusiveAtRisk : UIMatrix.t
}.

(** [for (k = eventTimeSize; k > 1; k--)]: the at-risk counts become the
    step function. *)
Fixpoint step_function (k : nat) (c : counts) : counts :=
  match k with
  | O => c
  | S k' =>
      match k' with
      | O => c
      | S _ =>
          let pa := nodeParentAtRisk c in
          let la := nodeLeftAtRisk c in
          let pa' := UIVector.set pa k' (u32 (UIVector.get pa k + UIVector.get pa k')%Z) in
          let la' := UIVector.set la k' (u32 (UIVector.get la k + UIVector.get la k')%Z) in
          step_function k'
            {| nodeLeftEvent := nodeLeftEvent c;
               nodeParentEvent := nodeParentEvent c;
               nodeLeftAtRisk := la';
               nodeParentAtRisk := pa' |}
      end
  end.

Definition reset_counts (eventTimeSize : nat) : counts :=
  let z := zero eventTimeSize (alloc_uivector eventTimeSize) in
  {| nodeLeftEvent := z; nodeParentEvent := z;
     nodeLeftAtRisk := z; nodeParentAtRisk := z |}.

Section Statistics.

Context {D : Type} {ops : DoubleOps D}.
Local Open Scope double_scope.

Definition d0 : D := of_uint 0%Z.
Definition d1 : D := of_uint 1%Z.

Definition dget (a : list D) (i : nat) : D := get1 d0 a i.
Definition mget (a : list membership_t) (i : nat) : membership_t :=
  get1 RIGHT a i.

(** The closing lines of both log-rank rules. *)
Definition zero_guard (deltaNum deltaDen : D) : D :=
  let deltaNum := dfabs deltaNum in
  let deltaDen := dsqrt deltaDen in
  if deltaDen <=? d1em9 then
    if deltaNum <=? d1em9 then d0 else deltaNum / deltaDen
  else deltaNum / deltaDen.

Variable a : Node D.

Definition on_left (i : nat) : bool := is_left (mget (membership a) i).

(** [eventTime[k] <= time[i]] and
    [eventTime[k] == time[i]] with [event[i] > 0]. *)
Definition still_at_risk (i k : nat) : bool :=
  dget (eventTime a) k <=? dget (time a) i.

Definition died (i k : nat) : bool :=
  (dget (eventTime a) k ==? dget (time a) i) && (d0 <? dget (event a) i).

(** *** getCustomSplitStatisticMultivariateRegression *)

Definition regression_step (acc : D * D * Z * Z) (i : nat) : D * D * Z * Z :=
  let '(sumLeft, sumRght, leftSize, rghtSize) := acc in
  if on_left i
  then (sumLeft + (dget (response a) i - mean a), sumRght,
        u32 (leftSize + 1)%Z, rghtSize)
  else (sumLeft, sumRght + (dget (response a) i - mean a),
        leftSize, u32 (rghtSize + 1)%Z).

Definition regression_sums : D * D * Z * Z :=
  fold_left regression_step (seq 1 (n a)) (d0, d0, 0%Z, 0%Z).

Definition getCustomSplitStatisticMultivariateRegression : D :=
  let '(sumLeft, sumRght, leftSize, rghtSize) := regression_sums in
  let sumLeftSqr := dpow2 sumLeft / (of_uint leftSize * variance a) in
  let sumRghtSqr := dpow2 sumRght / (of_uint rghtSize * variance a) in
  sumLeftSqr + sumRghtSqr.

(** *** getCustomSplitStatisticMultivariateClassification *)

(** [(unsigned int) response[i]] as an index into a vector of
    [maxLevel + 1] cells; [None] for an access outside the vector. *)
Definition class_of (i : nat) : option nat :=
  match to_uint (dget (response a) i) with
  | Some c => if (c <=? Z.of_nat (maxLevel a))%Z then Some (Z.to_nat c) else None
  | None => None
  end.

Definition classification_step (acc : option (UIVector.t * UIVector.t * Z * Z))
    (i : nat) : option (UIVector.t * UIVector.t * Z * Z) :=
  match acc with
  | Some (leftClassProp, rghtClassProp, leftSize, rghtSize) =>
      match class_of i with
      | Some c =>
          if on_left i
          then Some (incr leftClassProp c, rghtClassProp,
                     u32 (leftSize + 1)%Z, rghtSize)
          else Some (leftClassProp, incr rghtClassProp c,
                     leftSize, u32 (rghtSize + 1)%Z)
      | None => None
      end
  | None => None
  end.

Definition classification_counts : option (UIVector.t * UIVector.t * Z * Z) :=
  let z := zero (maxLevel a) (alloc_uivector (maxLevel a)) in
  fold_left classification_step (seq 1 (n a)) (Some (z, z, 0%Z, 0%Z)).

Definition sum_squares (v : UIVector.t) : D :=
  fold_left (fun s p => s + dpow2 (of_uint (UIVector.get v p)))
    (seq 1 (maxLevel a)) d0.

Definition getCustomSplitStatisticMultivariateClassification : option D :=
  match classification_counts with
  | Some (leftClassProp, rghtClassProp, leftSize, rghtSize) =>
      let sumLeft := sum_squares leftClassProp in
      let sumRght := sum_squares rghtClassProp in
      let sumLeftSqr := sumLeft / of_uint leftSize in
      let sumRghtSqr := sumRght / of_uint rghtSize in
      Some (sumLeftSqr + sumRghtSqr)
  | None => None
  end.

(** *** getCustomSplitStatisticSurvival *)

(** The body of the loop for an observation [i] at risk at time [k]. *)
Definition at_risk (i k : nat) (c : counts) : counts :=
  let pa := incr (nodeParentAtRisk c) k in
  let la := if on_left i then incr (nodeLeftAtRisk c) k else nodeLeftAtRisk c in
  let pe := if died i k then incr (nodeParentEvent c) k else nodeParentEvent c in
  let le := if died i k && on_left i
            then incr (nodeLeftEvent c) k else nodeLeftEvent c in
  {| nodeLeftEvent := le; nodeParentEvent := pe;
     nodeLeftAtRisk := la; nodeParentAtRisk := pa |}.

(** [while ((i > 0) && (k > 0))]: every turn decrements [i] or [k]. *)
Fixpoint sweep (k : nat) : nat -> counts -> counts :=
  match k with
  | O => fun _ c => c
  | S k' =>
      fix sweep_i (i : nat) (c : counts) {struct i} : counts :=
        match i with
        | O => c
        | S i' =>
            if still_at_risk (S i') (S k')
            then sweep_i i' (at_risk (S i') (S k') c)
            else sweep k' (S i') c
        end
  end.

Definition survival_counts : counts :=
  step_function (eventTimeSize a)
    (sweep (eventTimeSize a) (n a) (reset_counts (eventTimeSize a))).

(** The numerator and denominator terms of the test at time [k]. *)
Definition logrank_num (c : counts) (k : nat) : D :=
  of_uint (UIVector.get (nodeLeftEvent c) k)
  - of_uint (u32 (UIVector.get (nodeLeftAtRisk c) k
                  * UIVector.get (nodeParentEvent c) k)%Z)
    / of_uint (UIVector.get (nodeParentAtRisk c) k).

Definition logrank_den (c : counts) (k : nat) : D :=
  let l := of_uint (UIVector.get (nodeLeftAtRisk c) k) in
  let p := of_uint (UIVector.get (nodeParentAtRisk c) k) in
  (l / p) * (d1 - l / p)
  * (of_uint (u32 (UIVector.get (nodeParentAtRisk c) k
                   - UIVector.get (nodeParentEvent c) k)%Z)
     / of_uint (u32 (UIVector.get (nodeParentAtRisk c) k - 1)%Z))
  * of_uint (UIVector.get (nodeParentEvent c) k).

Definition logrank_step (c : counts) (acc : D * D) (k : nat) : D * D :=
  let '(deltaNum, deltaDen) := acc in
  (deltaNum + logrank_num c k,
   if (2 <=? UIVector.get (nodeParentAtRisk c) k)%Z
   then deltaDen + logrank_den c k else deltaDen).

Definition logrank (c : counts) : D * D :=
  fold_left (logrank_step c) (seq 1 (eventTimeSize a)) (d0, d0).

Definition getCustomSplitStatisticSurvival : D :=
  let '(deltaNum, deltaDen) := logrank survival_counts in
  zero_guard deltaNum deltaDen.

(** *** getCustomSplitStatisticCompetingRisk *)

Definition reset_cr_matrix (m : UIMatrix.t) : UIMatrix.t :=
  fold_left
    (fun m k => fold_left (fun m j => UIMatrix.set m j k 0%Z)
                  (seq 1 (eventTypeSize a)) m)
    (seq 1 (eventTimeSize a)) m.

Definition reset_cr_counts : cr_counts :=
  let z := reset_cr_matrix
             (UIMatrix.alloc_uimatrix (eventTypeSize a) (eventTimeSize a)) in
  {| vectors := reset_counts (eventTimeSize a);
     nodeLeftEventCR := z; nodeParentEventCR := z;
     nodeLeftInclusiveAtRisk := z; nodeParentInclusiveAtRisk := z |}.

(** [(unsigned int) event[i]] as a row index of a matrix with the rows
    [1 .. eventTypeSize]; [None] for an access outside the matrix. *)
Definition cause_of (i : nat) : option nat :=
  match to_uint (dget (event a) i) with
  | Some c =>
      if ((1 <=? c) && (c <=? Z.of_nat (eventTypeSize a)))%Z
      then Some (Z.to_nat c) else None
  | None => None
  end.

Definition cr_at_risk (i k : nat) (c : cr_counts) : option cr_counts :=
  let v := vectors c in
  let pa := incr (nodeParentAtRisk v) k in
  let la := if on_left i then incr (nodeLeftAtRisk v) k else nodeLeftAtRisk v in
  if died i k then
    match cause_of i with
    | Some e =>
        Some {| vectors :=
                  {| nodeLeftEvent := nodeLeftEvent v;
                     nodeParentEvent := incr (nodeParentEvent v) k;
                     nodeLeftAtRisk := la; nodeParentAtRisk := pa |};
                nodeLeftEventCR :=
                  if on_left i then UIMatrix.incr (nodeLeftEventCR c) e k
                  else nodeLeftEventCR c;
                nodeParentEventCR := UIMatrix.incr (nodeParentEventCR c) e k;
                nodeLeftInclusiveAtRisk := nodeLeftInclusiveAtRisk c;
                nodeParentInclusiveAtRisk := nodeParentInclusiveAtRisk c |}
    | None => None
    end
  else
    Some {| vectors :=
              {| nodeLeftEvent := nodeLeftEvent v;
                 nodeParentEvent := nodeParentEvent v;
                 nodeLeftAtRisk := la; nodeParentAtRisk := pa |};
            nodeLeftEventCR := nodeLeftEventCR c;
            nodeParentEventCR := nodeParentEventCR c;
            nodeLeftInclusiveAtRisk := nodeLeftInclusiveAtRisk c;
            nodeParentInclusiveAtRisk := nodeParentInclusiveAtRisk c |}.

Fixpoint cr_sweep (k : nat) : nat -> cr_counts -> option cr_counts :=
  match k with
  | O => fun _ c => Some c
  | S k' =>
      fix sweep_i (i : nat) (c : cr_counts) {struct i} : option cr_counts :=
        match i with
        | O => Some c
        | S i' =>
            if still_at_risk (S i') (S k')
            then match cr_at_risk (S i') (S k') c with
                 | Some c' => sweep_i i' c'
                 | None => None
                 end
            else cr_sweep k' (S i') c
        end
  end.

Definition cr_step_function (c : cr_counts) : cr_counts :=
  {| vectors := step_function (eventTimeSize a) (vectors c);
     nodeLeftEventCR := nodeLeftEventCR c;
     nodeParentEventCR := nodeParentEventCR c;
     nodeLeftInclusiveAtRisk := nodeLeftInclusiveAtRisk c;
     nodeParentInclusiveAtRisk := nodeParentInclusiveAtRisk c |}.

(** The two innermost loops, over the earlier times [s] and the causes [r],
    crediting the events of the other causes to the cell [j][k]. *)
Definition credit (j k : nat) (c : cr_counts) (s r : nat) : cr_counts :=
  if Nat.eqb j r then c
  else
    {| vectors := vectors c;
       nodeLeftEventCR := nodeLeftEventCR c;
       nodeParentEventCR := nodeParentEventCR c;
       nodeLeftInclusiveAtRisk :=
         UIMatrix.add (nodeLeftInclusiveAtRisk c) j k
           (UIMatrix.get (nodeLeftEventCR c) r s);
       nodeParentInclusiveAtRisk :=
         UIMatrix.add (nodeParentInclusiveAtRisk c) j k
           (UIMatrix.get (nodeParentEventCR c) r s) |}.

Definition inclusive_cell (k : nat) (c : cr_counts) (j : nat) : cr_counts :=
  let c0 :=
    {| vectors := vectors c;
       nodeLeftEventCR := nodeLeftEventCR c;
       nodeParentEventCR := nodeParentEventCR c;
       nodeLeftInclusiveAtRisk :=
         UIMatrix.set (nodeLeftInclusiveAtRisk c) j k
           (UIVector.get (nodeLeftAtRisk (vectors c)) k);
       nodeParentInclusiveAtRisk :=
         UIMatrix.set (nodeParentInclusiveAtRisk c) j k
           (UIVector.get (nodeParentAtRisk (vectors c)) k) |} in
  fold_left
    (fun c s => fold_left (fun c r => credit j k c s r)
                  (seq 1 (eventTypeSize a)) c)
    (seq 1 (k - 1)) c0.

Definition inclusive_at_risk (c : cr_counts) : cr_counts :=
  fold_left
    (fun c k => fold_left (inclusive_cell k) (seq 1 (eventTypeSize a)) c)
    (seq 1 (eventTimeSize a)) c.

Definition competing_risk_counts : option cr_counts :=
  match cr_sweep (eventTimeSize a) (n a) reset_cr_counts with
  | Some c => Some (inclusive_at_risk (cr_step_function c))
  | None => None
  end.

Definition cr_num (c : cr_counts) (j k : nat) : D :=
  of_uint (UIMatrix.get (nodeLeftEventCR c) j k)
  - of_uint (UIMatrix.get (nodeParentEventCR c) j k)
    * (of_uint (UIMatrix.get (nodeLeftInclusiveAtRisk c) j k)
       / of_uint (UIMatrix.get (nodeParentInclusiveAtRisk c) j k)).

Definition cr_den (c : cr_counts) (j k : nat) : D :=
  let l := of_uint (UIMatrix.get (nodeLeftInclusiveAtRisk c) j k) in
  let p := of_uint (UIMatrix.get (nodeParentInclusiveAtRisk c) j k) in
  (of_uint (UIMatrix.get (nodeParentEventCR c) j k) * (l / p))
  * (d1 - l / p)
  * (of_uint (u32 (UIMatrix.get (nodeParentInclusiveAtRisk c) j k
                   - UIMatrix.get (nodeParentEventCR c) j k)%Z)
     / of_uint (u32 (UIMatrix.get (nodeParentInclusiveAtRisk c) j k - 1)%Z)).

Definition cr_cause (c : cr_counts) (acc : D * D) (j : nat) : D * D :=
  let '(deltaNum, deltaDen) := acc in
  let deltaSubNum :=
    fold_left (fun s k => s + cr_num c j k) (seq 1 (eventTimeSize a)) d0 in
  let deltaSubDen :=
    fold_left
      (fun s k =>
         if (2 <=? UIVector.get (nodeParentAtRisk (vectors c)) k)%Z
         then s + cr_den c j k else s)
      (seq 1 (eventTimeSize a)) d0 in
  (deltaNum + deltaSubNum, deltaDen + deltaSubDen).

Definition logrankCR (c : cr_counts) : D * D :=
  fold_left (cr_cause c) (seq 1 (eventTypeSize a)) (d0, d0).

Definition getCustomSplitStatisticCompetingRisk : option D :=
  match competing_risk_counts with
  | Some c =>
      let '(deltaNum, deltaDen) := logrankCR c in
      Some (zero_guard deltaNum deltaDen)
  | None => None
  end.

End Statistics.

(** *** ccaSplitAbsoluteDifference *)

(** The dense linear-algebra backend is an external collaborator.  Each
    routine is a function from the buffers it reads to the buffers it writes;
    [dgesvd] also returns its workspace and its status.  The buffer [S] of
    the singular values is allocated once and handed to [dgesvd] for both
    daughters; the routine only writes it, so each call returns it.  The
    calls the rule makes are recorded in the order it makes them, the
    workspace-size queries included. *)

Inductive routine := DGEQRF | DORGQR | DGEMM | DGESVD.

Inductive lapack_call := Query (r : routine) | Call (r : routine).

Record Lapack (D : Type) := {
  dgeqrf : Z -> Z -> list D -> list D * list D;
  dorgqr : Z -> Z -> Z -> list D -> list D -> list D;
  dgemm : Z -> Z -> Z -> list D -> list D -> list D;
  dgesvd : Z -> Z -> list D -> list D * list D * Z
}.

Section CCA.

Context {D : Type} {ops : DoubleOps D}.
Variable backend : Lapack D.
Variable a : Node D.
Local Open Scope double_scope.

(** [feature[col][i]], the entry of the observation [i] in the feature
    column [col]; a read outside the matrix is undefined. *)
Definition feature_at (col i : nat) : option D :=
  match col, i with
  | S col', S i' =>
      match nth_error (feature a) col' with
      | Some column => nth_error column i'
      | None => None
      end
  | _, _ => None
  end.

(** [dimX = feature[featureCount][1]; dimY = featureCount - dimX - 1;] *)
Definition cca_dims : option (Z * Z) :=
  match feature_at (featureCount a) 1 with
  | Some x =>
      match to_int x with
      | Some dimX =>
          Some (dimX, to_int32 (Z.of_nat (featureCount a) - dimX - 1))
      | None => None
      end
  | None => None
  end.

Definition daughter_sizes : Z * Z :=
  fold_left
    (fun '(leftSize, rghtSize) i =>
       if on_left a i then (leftSize + 1, rghtSize)%Z
       else (leftSize, rghtSize + 1)%Z)
    (seq 1 (n a)) (0%Z, 0%Z).

Definition fget (col i : nat) : D := dget (get1 [] (feature a) col) i.

(** The observations of one daughter, one row each, restricted to the
    feature columns [lo .. lo + len - 1]. *)
Definition block (side : bool) (lo len : nat) : list (list D) :=
  map (fun i => map (fun col => fget col i) (seq lo len))
    (filter (fun i => Bool.eqb (on_left a i) side) (seq 1 (n a))).

(** [qr[row + col * nRow] = X[row][col]] *)
Definition col_major (X : list (list D)) (ncol : nat) : list D :=
  flat_map (fun col => map (fun r => nth col r d0) X) (seq 0 ncol).

(** The fallback on a positive status: the largest of [S[0]] and
    [work[1 .. lwork - 1]]. *)
Definition degraded (s0 : D) (work : list D) : D :=
  fold_left (fun cor w => if cor <? w then w else cor) (tl work) s0.

Definition cca_trace : list lapack_call :=
  [Query DGEQRF; Call DGEQRF; Query DORGQR; Call DORGQR;
   Query DGEQRF; Call DGEQRF; Query DORGQR; Call DORGQR;
   Call DGEMM; Query DGESVD; Call DGESVD].

Definition cca_daughter (X Y : list (list D)) (nRow dimX dimY : Z) : D :=
  let Kx := if (nRow <? dimX)%Z then nRow else dimX in
  let Ky := if (nRow <? dimY)%Z then nRow else dimY in
  let '(qrX, tauX) :=
    dgeqrf backend nRow dimX (col_major X (Z.to_nat dimX)) in
  let qrX := dorgqr backend nRow Kx Kx qrX tauX in
  let '(qrY, tauY) :=
    dgeqrf backend nRow dimY (col_major Y (Z.to_nat dimY)) in
  let qrY := dorgqr backend nRow Ky Ky qrY tauY in
  let qMul := dgemm backend Kx Ky nRow qrX qrY in
  let '(sv, work, info) := dgesvd backend Kx Ky qMul in
  if (info =? 0)%Z then nth 0 sv d0
  else if (0 <? info)%Z then degraded (nth 0 sv d0) work
  else d0.

(** The result and the backend calls made; [None] where the C code has no
    defined behaviour (a read outside [feature], an overflowing [int]). *)
Definition ccaSplitAbsoluteDifference : option (D * list lapack_call) :=
  match cca_dims with
  | Some (dimX, dimY) =>
      if ((0 <? dimX) && (0 <? dimY))%Z then
        if (Z.of_nat (n a) <? 2 ^ 31)%Z then
          let '(leftSize, rghtSize) := daughter_sizes in
          if (dimX + dimY <? 2 ^ 31)%Z then
            if ((dimX + dimY <? leftSize) && (dimX + dimY <? rghtSize))%Z
            then
              let ccaCorLeft :=
                cca_daughter
                  (block true 1 (Z.to_nat dimX))
                  (block true (S (Z.to_nat dimX)) (Z.to_nat dimY))
                  leftSize dimX dimY in
              let ccaCorRight :=
                cca_daughter
                  (block false 1 (Z.to_nat dimX))
                  (block false (S (Z.to_nat dimX)) (Z.to_nat dimY))
                  rghtSize dimX dimY in
              if (leftSize * rghtSize <? 2 ^ 31)%Z then
                Some (dsqrt (of_uint (leftSize * rghtSize))
                      * dfabs (ccaCorLeft - ccaCorRight),
                      cca_trace ++ cca_trace)
              else None
            else Some (d0, [])
          else None
        else None
      else Some (d0, [])
  | None => None
  end.

End CCA.

Import U32 UIVector.

(** * Notions used in the statements and in the loop invariants *)

(** ** Preconditions of the log-rank rules *)

Section Preconditions.

Context {D : Type} {ops : DoubleOps D}.
Variable a : Node D.

(** [n] is an [unsigned int]. *)
Definition n_fits : Prop := (Z.of_nat (n a) < modulus)%Z.

(** The observations arrive sorted by time in increasing order. *)
Definition time_sorted : Prop :=
  forall i j, (1 <= i)%nat -> (i <= j)%nat -> (j <= n a)%nat ->
    dleb (dget (time a) i) (dget (time a) j) = true.

Definition eventTime_increasing : Prop :=
  forall k l, (1 <= k)%nat -> (k < l)%nat -> (l <= eventTimeSize a)%nat ->
    dltb (dget (eventTime a) k) (dget (eventTime a) l) = true.

(** Every event time is the time of an observation that had an event. *)
Definition eventTime_observed : Prop :=
  forall k, (1 <= k <= eventTimeSize a)%nat ->
    exists i, (1 <= i <= n a)%nat /\ died a i k = true.

(** Every observed death time is on the grid of event times. *)
Definition deaths_on_grid : Prop :=
  forall i, (1 <= i <= n a)%nat -> dltb d0 (dget (event a) i) = true ->
    exists k, (1 <= k <= eventTimeSize a)%nat /\ died a i k = true.

(** Every event of the node is the cause of a row of the count matrices. *)
Definition causes_in_range : Prop :=
  forall i, (1 <= i <= n a)%nat ->
    dltb d0 (dget (event a) i) = true -> cause_of a i <> None.

(** The same conditions as boolean checks. *)
Definition time_sortedb : bool :=
  forallb (fun i =>
    forallb (fun j => dleb (dget (time a) i) (dget (time a) j))
      (seq i (S (n a) - i)))
    (seq 1 (n a)).

Definition eventTime_increasingb : bool :=
  forallb (fun k =>
    forallb (fun l => dltb (dget (eventTime a) k) (dget (eventTime a) l))
      (seq (S k) (eventTimeSize a - k)))
    (seq 1 (eventTimeSize a)).

Definition eventTime_observedb : bool :=
  forallb (fun k => existsb (fun i => died a i k) (seq 1 (n a)))
    (seq 1 (eventTimeSize a)).

Definition deaths_on_gridb : bool :=
  forallb (fun i =>
    negb (dltb d0 (dget (event a) i))
    || existsb (fun k => died a i k) (seq 1 (eventTimeSize a)))
    (seq 1 (n a)).

Definition causes_in_rangeb : bool :=
  forallb (fun i =>
    negb (dltb d0 (dget (event a) i))
    || match cause_of a i with Some _ => true | None => false end)
    (seq 1 (n a)).

(** The arrays hold the entries the contract gives them. *)
Definition arrays_sized : Prop :=
  length (membership a) = n a /\ length (time a) = n a
  /\ length (event a) = n a /\ length (eventTime a) = eventTimeSize a.

End Preconditions.

(** ** Count vectors *)

Definition nonneg (v : UIVector.t) : Prop := forall k, (0 <= get v k)%Z.
Definition le_vec (v w : UIVector.t) : Prop := forall k, (get v k <= get w k)%Z.

Record counts_ok (ets : nat) (c : counts) : Prop := {
  ok_len_le : length (nodeLeftEvent c) = S ets;
  ok_len_pe : length (nodeParentEvent c) = S ets;
  ok_len_la : length (nodeLeftAtRisk c) = S ets;
  ok_len_pa : length (nodeParentAtRisk c) = S ets;
  ok_le : nonneg (nodeLeftEvent c);
  ok_la : nonneg (nodeLeftAtRisk c);
  ok_le_pe : le_vec (nodeLeftEvent c) (nodeParentEvent c);
  ok_le_la : le_vec (nodeLeftEvent c) (nodeLeftAtRisk c);
  ok_pe_pa : le_vec (nodeParentEvent c) (nodeParentAtRisk c);
  ok_la_pa : le_vec (nodeLeftAtRisk c) (nodeParentAtRisk c)
}.

(** The number of observations counted so far. *)
Definition total (c : counts) : Z := suffix (nodeParentAtRisk c) 0.

(** The loop of [step_function] from [k] down, started on [c0]: the cells
    from [k] on hold their suffix sums, the cells below [k] their first
    counts. *)
Record step_inv (ets : nat) (c0 : counts) (k : nat) (c : counts) : Prop := {
  si_len_pa : length (nodeParentAtRisk c) = S ets;
  si_len_la : length (nodeLeftAtRisk c) = S ets;
  si_pe : nodeParentEvent c = nodeParentEvent c0;
  si_le : nodeLeftEvent c = nodeLeftEvent c0;
  si_pa_hi : forall m, (k <= m <= ets)%nat ->
    get (nodeParentAtRisk c) m = suffix (nodeParentAtRisk c0) m;
  si_pa_lo : forall m, (m < k)%nat ->
    get (nodeParentAtRisk c) m = get (nodeParentAtRisk c0) m;
  si_la_hi : forall m, (k <= m <= ets)%nat ->
    get (nodeLeftAtRisk c) m = suffix (nodeLeftAtRisk c0) m;
  si_la_lo : forall m, (m < k)%nat ->
    get (nodeLeftAtRisk c) m = get (nodeLeftAtRisk c0) m
}.

(** ** Sums over index lists *)

Definition sumZ (l : list Z) : Z := fold_right Z.add 0%Z l.

Definition sum_over (f : nat -> Z) (l : list nat) : Z := sumZ (map f l).

(** ** Count matrices *)

Record mat_ok (ntype ets : nat) (m : UIMatrix.t) : Prop := {
  mat_rows : length m = S ntype;
  mat_cols : forall j, (1 <= j <= ntype)%nat -> length (UIMatrix.row m j) = S ets
}.

(** The sum of the cells of the time [s] over the causes. *)
Definition col_sum (ntype : nat) (m : UIMatrix.t) (s : nat) : Z :=
  sum_over (fun r => UIMatrix.get m r s) (seq 1 ntype).

Definition cells_nonneg (m : UIMatrix.t) : Prop :=
  forall r s, (0 <= UIMatrix.get m r s)%Z.

(** ** The inclusive at-risk loops on one matrix

    The loops of [inclusive_at_risk] run on the parent and the left matrices
    in step; [inclusive1] is what they do to either of them, given its event
    counts [ev] and at-risk counts [ar]. *)

Section Inclusive1.

Variables ntype ets : nat.
Variable ev : UIMatrix.t.
Variable ar : UIVector.t.

Definition credit1 (j k : nat) (inc : UIMatrix.t) (s r : nat) : UIMatrix.t :=
  if Nat.eqb j r then inc else UIMatrix.add inc j k (UIMatrix.get ev r s).

Definition credit_r (j k s : nat) (rs : list nat) (inc : UIMatrix.t) :=
  fold_left (fun inc r => credit1 j k inc s r) rs inc.

Definition credit_s (j k : nat) (ss : list nat) (inc : UIMatrix.t) :=
  fold_left (fun inc s => credit_r j k s (seq 1 ntype) inc) ss inc.

Definition inclusive_cell1 (k : nat) (inc : UIMatrix.t) (j : nat) : UIMatrix.t :=
  credit_s j k (seq 1 (k - 1)) (UIMatrix.set inc j k (UIVector.get ar k)).

Definition inclusive1 (inc : UIMatrix.t) : UIMatrix.t :=
  fold_left
    (fun inc k => fold_left (inclusive_cell1 k) (seq 1 ntype) inc)
    (seq 1 ets) inc.

(** The events of the causes other than [j] at the time [s], and at the
    times before [k]: the double sum of the specification. *)
Definition others (j s : nat) (rs : list nat) : Z :=
  sum_over (fun r => if Nat.eqb j r then 0%Z else UIMatrix.get ev r s) rs.

Definition other_events (j k : nat) : Z :=
  sum_over (fun s => others j s (seq 1 ntype)) (seq 1 (k - 1)).

Definition cell_val (p : nat * nat) : Z :=
  u32 (get ar (snd p) + other_events (fst p) (snd p)).

End Inclusive1.

(** ** The competing-risk sweep against the survival sweep

    The competing-risk sweep counts what the survival sweep counts, split by
    cause. *)

Record cr_sim (ntype ets : nat) (c : cr_counts) (v : counts) : Prop := {
  sim_pa : nodeParentAtRisk (vectors c) = nodeParentAtRisk v;
  sim_la : nodeLeftAtRisk (vectors c) = nodeLeftAtRisk v;
  sim_pe : nodeParentEvent (vectors c) = nodeParentEvent v;
  sim_pmat : mat_ok ntype ets (nodeParentEventCR c);
  sim_lmat : mat_ok ntype ets (nodeLeftEventCR c);
  sim_pimat : mat_ok ntype ets (nodeParentInclusiveAtRisk c);
  sim_limat : mat_ok ntype ets (nodeLeftInclusiveAtRisk c);
  sim_pcol : forall s,
    col_sum ntype (nodeParentEventCR c) s = get (nodeParentEvent v) s;
  sim_lcol : forall s,
    col_sum ntype (nodeLeftEventCR c) s = get (nodeLeftEvent v) s;
  sim_cell : forall r s,
    (0 <= UIMatrix.get (nodeLeftEventCR c) r s
       <= UIMatrix.get (nodeParentEventCR c) r s)%Z
}.

(** ** The counts of the competing-risk rule *)

(** The loops of [inclusive_at_risk] leave the counts they read alone and
    act on each inclusive matrix as [inclusive1]. *)
Record incl_rel (c0 c : cr_counts) (pi li : UIMatrix.t) : Prop := {
  ir_vectors : vectors c = vectors c0;
  ir_pecr : nodeParentEventCR c = nodeParentEventCR c0;
  ir_lecr : nodeLeftEventCR c = nodeLeftEventCR c0;
  ir_pi : nodeParentInclusiveAtRisk c = pi;
  ir_li : nodeLeftInclusiveAtRisk c = li
}.

Section CRSpec.

Context {D : Type} {ops : DoubleOps D}.
Variable a : Node D.
Local Open Scope Z_scope.

(** What the competing-risk rule has counted before it computes the
    statistic. *)
Record cr_spec (c : cr_counts) : Prop := {
  crs_pa : nodeParentAtRisk (vectors c) = nodeParentAtRisk (survival_counts a);
  crs_la : nodeLeftAtRisk (vectors c) = nodeLeftAtRisk (survival_counts a);
  crs_pe : nodeParentEvent (vectors c) = nodeParentEvent (survival_counts a);
  crs_pcol : forall s,
    col_sum (eventTypeSize a) (nodeParentEventCR c) s
    = get (nodeParentEvent (survival_counts a)) s;
  crs_lcol : forall s,
    col_sum (eventTypeSize a) (nodeLeftEventCR c) s
    = get (nodeLeftEvent (survival_counts a)) s;
  crs_cell : forall r s,
    0 <= UIMatrix.get (nodeLeftEventCR c) r s
      <= UIMatrix.get (nodeParentEventCR c) r s;
  crs_pi : forall j k, (1 <= j <= (eventTypeSize a))%nat -> (1 <= k <= eventTimeSize a)%nat ->
    UIMatrix.get (nodeParentInclusiveAtRisk c) j k
    = get (nodeParentAtRisk (vectors c)) k
      + other_events (eventTypeSize a) (nodeParentEventCR c) j k;
  crs_li : forall j k, (1 <= j <= (eventTypeSize a))%nat -> (1 <= k <= eventTimeSize a)%nat ->
    UIMatrix.get (nodeLeftInclusiveAtRisk c) j k
    = get (nodeLeftAtRisk (vectors c)) k
      + other_events (eventTypeSize a) (nodeLeftEventCR c) j k;
  crs_pi_fits : forall j k, (1 <= j <= (eventTypeSize a))%nat -> (1 <= k <= eventTimeSize a)%nat ->
    UIMatrix.get (nodeParentInclusiveAtRisk c) j k < modulus
}.

End CRSpec.

(** ** Integers held in doubles *)

Module SFInt.

(** [p * 2^n] *)
Definition shl (p : positive) (n : nat) : positive := Pos.shiftl_nat p n.

(** The number of binary digits of [p]. *)
Definition digits (p : positive) : Z := Zpos (digits2_pos p).

(** The binary64 value of the integer [z], for [0 <= z < 2^53]: the mantissa
    is [z] shifted to 53 digits. *)
Definition SFint (z : Z) : spec_float :=
  match z with
  | Z0 => S754_zero false
  | Zpos p => S754_finite false (shl p (Z.to_nat (53 - digits p))) (digits p - 53)
  | Zneg _ => S754_nan
  end.

End SFInt.

(** ** Daughter sizes *)

Section Daughters.

Context {D : Type} {ops : DoubleOps D}.
Variable a : Node D.

Definition count_left (l : list nat) : Z :=
  Z.of_nat (length (filter (on_left a) l)).

Definition count_right (l : list nat) : Z :=
  Z.of_nat (length (filter (fun i => negb (on_left a i)) l)).

Definition leftSize : Z := count_left (seq 1 (n a)).
Definition rghtSize : Z := count_right (seq 1 (n a)).

(** Every observation of class 1 is on the left and every observation of
    class 2 on the right, and there is no other class in the node. *)
Definition perfectly_separated : Prop :=
  forall i, (1 <= i <= n a)%nat ->
    class_of a i = Some (if on_left a i then 1%nat else 2%nat).

Definition perfectly_separatedb : bool :=
  forallb (fun i =>
    match class_of a i with
    | Some c => Nat.eqb c (if on_left a i then 1%nat else 2%nat)
    | None => false
    end) (seq 1 (n a)).

(** Every response of the node equals the mean. *)
Definition all_at_mean : Prop :=
  forall i, (1 <= i <= n a)%nat -> deqb (dget (response a) i) (mean a) = true.

Definition all_at_meanb : bool :=
  forallb (fun i => deqb (dget (response a) i) (mean a)) (seq 1 (n a)).

(** The sum of the squares of the class counts [1 .. maxLevel]. *)
Definition sum_sq (v : UIVector.t) : Z :=
  sum_over (fun p => (get v p * get v p)%Z) (seq 1 (maxLevel a)).

End Daughters.

(** ** The blocks of the canonical-correlation rule *)

Section Blocks.

Context {D : Type} {ops : DoubleOps D}.
Variable a : Node D.

(** The observations of a daughter, in increasing order. *)
Definition daughter (side : bool) : list nat :=
  filter (fun i => Bool.eqb (on_left a i) side) (seq 1 (n a)).

(** The entries of the observation [i] in the feature columns [lo .. hi]. *)
Definition columns (lo hi : Z) (i : nat) : list D :=
  map (fun col => fget a col i) (seq (Z.to_nat lo) (Z.to_nat (hi - lo + 1))).

End Blocks.

(** A real number held in a double: neither an infinity nor a NaN. *)
Definition finite_double (x : float) : Prop :=
  PrimFloat.ltb (PrimFloat.abs x) infinity = true.

(** A double that is a real number other than 0. *)
Definition nonzero_double (x : float) : Prop :=
  finite_double x /\ (PrimFloat.ltb 0 x = true \/ PrimFloat.ltb x 0 = true).

(** Not a number, or a value whose sign bit is [s]. *)
Definition signed (s : bool) (x : spec_float) : Prop :=
  match x with
  | S754_zero s' | S754_infinity s' | S754_finite s' _ _ => s' = s
  | S754_nan => True
  end.

(** A number that is not zero, with sign bit [s]. *)
Definition nonzero (s : bool) (x : spec_float) : Prop :=
  match x with
  | S754_infinity s' | S754_finite s' _ _ => s' = s
  | S754_zero _ | S754_nan => False
  end.

(** ** Sample nodes *)

(** [L] observations of class 1 on the left, then [R] observations of class 2
    on the right. *)
Definition separated_node (L R : nat) : Node float :=
  {| n := L + R;
     membership := repeat LEFT L ++ repeat RIGHT R;
     time := []; event := [];
     eventTypeSize := 0; eventTimeSize := 0; eventTime := [];
     response := repeat 1%float L ++ repeat 2%float R;
     mean := 0%float; variance := 0%float; maxLevel := 2;
     feature := []; featureCount := 0 |}.

(** ** The zero guard as the specification words it *)

Section Guard.

Context {D : Type} {ops : DoubleOps D}.

(** Exactly 0 when both the denominator and the numerator are at most 1e-9,
    the quotient in every other case. *)
Definition guarded_ratio (num den : D) : D :=
  if dleb den d1em9 && dleb num d1em9 then d0 else ddiv num den.

End Guard.

(** ** More sample nodes *)

Section LogrankNodes.

Context {D : Type} {ops : DoubleOps D}.

(** A node of the log-rank rules: the arguments of the other rules are not
    read. *)
Definition logrank_node (n : nat) (membership : list membership_t)
    (time event : list D) (eventTypeSize eventTimeSize : nat)
    (eventTime : list D) : Node D :=
  {| n := n; membership := membership; time := time; event := event;
     eventTypeSize := eventTypeSize; eventTimeSize := eventTimeSize;
     eventTime := eventTime;
     response := []; mean := d0; variance := d0; maxLevel := 0;
     feature := []; featureCount := 0 |}.

End LogrankNodes.

(** The real number a finite double stands for. *)
Definition float_value (x : float) : R :=
  match IEEE.SFvalue (Prim2SF x) with
  | Some (p, q) => (IZR p / IZR q)%R
  | None => 0%R
  end.

(** Four observations, three event times, one cause. *)
Definition four_observations : Node float :=
  logrank_node 4 [LEFT; RIGHT; LEFT; RIGHT]
    [1; 2; 3; 4]%float [1; 0; 1; 1]%float 1 3 [1; 3; 4]%float.

(** Five observations at one time, three of them deaths, one cause. *)
Definition tied_deaths : Node float :=
  logrank_node 5 [LEFT; LEFT; LEFT; LEFT; RIGHT]
    [1; 1; 1; 1; 1]%float [0; 0; 1; 1; 1]%float 1 1 [1]%float.

(** Five observations, three event times, two causes. *)
Definition two_causes : Node float :=
  logrank_node 5 [LEFT; LEFT; LEFT; LEFT; RIGHT]
    [1; 1; 2; 3; 4]%float [2; 1; 1; 2; 0]%float 2 3 [1; 2; 3]%float.

(** Two observations in exact arithmetic: a death, then a censoring. *)
Definition two_observations : Node R :=
  logrank_node 2 [LEFT; RIGHT] [1; 2]%R [1; 0]%R 1 1 [1%R].

(** Four responses at the mean, two on each side. *)
Definition constant_responses : Node float :=
  {| n := 4; membership := [LEFT; RIGHT; LEFT; RIGHT];
     time := []; event := [];
     eventTypeSize := 0; eventTimeSize := 0; eventTime := [];
     response := [3; 3; 3; 3]%float;
     mean := 3%float; variance := 2%float; maxLevel := 0;
     feature := []; featureCount := 0 |}.

(** Two feature columns and the column that holds [dimX = 1], on [n]
    observations that alternate between the daughters. *)
Definition cca_node (n : nat) (x y : list float) : Node float :=
  {| n := n;
     membership :=
       map (fun i => if Nat.even i then LEFT else RIGHT) (seq 0 n);
     time := []; event := [];
     eventTypeSize := 0; eventTimeSize := 0; eventTime := [];
     response := []; mean := 0%float; variance := 0%float; maxLevel := 0;
     feature := [x; y; repeat 1%float n]; featureCount := 3 |}.

Definition cca_four : Node float :=
  cca_node 4 [1; 2; 3; 4]%float [2; 1; 4; 3]%float.

Definition cca_six : Node float :=
  cca_node 6 [1; 2; 3; 4; 5; 6]%float [2; 1; 4; 3; 6; 5]%float.

(** A perfectly separated node too large for exact squares. *)
Definition large_separated : Node float :=
  separated_node (Z.to_nat 100000001) 1.

(** A backend that returns empty buffers. *)
Definition null_backend : Lapack float :=
  {| dgeqrf := fun _ _ _ => ([], []);
     dorgqr := fun _ _ _ _ _ => [];
     dgemm := fun _ _ _ _ _ => [];
     dgesvd := fun _ _ _ => ([], [], 0%Z) |}.

From Stdlib Require String.

(** * Notions used in the further properties *)

(** ** The order of the doubles

    The comparison of two doubles that are numbers is the lexicographic
    comparison of three integers: the class of the number (an infinity, a
    finite number of either sign, a zero), then its exponent, then its
    mantissa, the last two negated for a negative number. *)

Module OrderKey.

Definition is_nan (x : spec_float) : bool :=
  match x with S754_nan => true | _ => false end.

Definition k1 (x : spec_float) : Z :=
  match x with
  | S754_nan | S754_zero _ => 0
  | S754_infinity s => if s then -2 else 2
  | S754_finite s _ _ => if s then -1 else 1
  end%Z.

Definition k2 (x : spec_float) : Z :=
  match x with
  | S754_finite s _ e => if s then (- e)%Z else e
  | _ => 0%Z
  end.

Definition k3 (x : spec_float) : Z :=
  match x with
  | S754_finite s m _ => if s then Zneg m else Zpos m
  | _ => 0%Z
  end.

Definition lex (x y : spec_float) : comparison :=
  match (k1 x ?= k1 y)%Z with
  | Eq => match (k2 x ?= k2 y)%Z with
          | Eq => (k3 x ?= k3 y)%Z
          | c => c
          end
  | c => c
  end.

(** [x <= y], [x < y] and [x = y] on the three integers. *)
Definition le3 (x y : spec_float) : Prop :=
  (k1 x < k1 y
   \/ (k1 x = k1 y /\ (k2 x < k2 y \/ (k2 x = k2 y /\ k3 x <= k3 y))))%Z.

Definition lt3 (x y : spec_float) : Prop :=
  (k1 x < k1 y
   \/ (k1 x = k1 y /\ (k2 x < k2 y \/ (k2 x = k2 y /\ k3 x < k3 y))))%Z.

Definition eq3 (x y : spec_float) : Prop :=
  (k1 x = k1 y /\ k2 x = k2 y /\ k3 x = k3 y)%Z.

End OrderKey.

(** ** Counting observations *)

Definition b2z (b : bool) : Z := if b then 1%Z else 0%Z.

(** The number of the entries of [l] that satisfy [f]. *)
Definition count (f : nat -> bool) (l : list nat) : Z :=
  Z.of_nat (length (filter f l)).

Section Landing.

Context {D : Type} {ops : DoubleOps D}.
Variable a : Node D.

(** The sweep counts the observation [j] in the cell of the last event time
    at which it is still at risk. *)
Definition lands (j m : nat) : bool :=
  still_at_risk a j m
  && (Nat.eqb m (eventTimeSize a) || negb (still_at_risk a j (S m))).

End Landing.

(** ** Sample nodes of the further properties *)

(** Two observations and an event time later than both. *)
Definition late_event_time : Node float :=
  logrank_node 2 [LEFT; RIGHT] [1; 2]%float [1; 1]%float 1 2 [1; 5]%float.

(** Three censored observations: no event time. *)
Definition all_censored : Node float :=
  logrank_node 3 [LEFT; RIGHT; LEFT] [1; 2; 3]%float [0; 0; 0]%float 1 0 [].

(** Three responses, all on the right. *)
Definition all_right : Node float :=
  {| n := 3; membership := [RIGHT; RIGHT; RIGHT];
     time := []; event := [];
     eventTypeSize := 0; eventTimeSize := 0; eventTime := [];
     response := [1; 2; 2]%float;
     mean := 1.5%float; variance := 0.25%float; maxLevel := 2;
     feature := []; featureCount := 0 |}.

(** * The error handler of [inst/include/cblas/cblas_xerbla.h]

    [cblas_xerbla(info, rout, form, ...)] renumbers the parameter [info] when
    the storage is row-major, prints a line naming the parameter when it is
    not zero, and prints the message [form].  What it prints is modelled as
    the list of its outputs, in order; [RowMajorStrg] is the global flag it
    reads. *)

Module Xerbla.

Import String.
Local Open Scope string_scope.
Local Open Scope Z_scope.

(** [strstr(rout, pat) != 0] *)
Definition strstr (rout pat : string) : bool :=
  match index 0 pat rout with Some _ => true | None => false end.

(** The chain of tests on the name of the routine. *)
Definition renumber (rout : string) (info : Z) : Z :=
  if strstr rout "gemm" then
    if info =? 5 then 4
    else if info =? 4 then 5
    else if info =? 11 then 9
    else if info =? 9 then 11
    else info
  else if strstr rout "symm" || strstr rout "hemm" then
    if info =? 5 then 4
    else if info =? 4 then 5
    else info
  else if strstr rout "trmm" || strstr rout "trsm" then
    if info =? 7 then 6
    else if info =? 6 then 7
    else info
  else if strstr rout "gemv" then
    if info =? 4 then 3
    else if info =? 3 then 4
    else info
  else if strstr rout "gbmv" then
    if info =? 4 then 3
    else if info =? 3 then 4
    else if info =? 6 then 5
    else if info =? 5 then 6
    else info
  else if strstr rout "ger" then
    if info =? 3 then 2
    else if info =? 2 then 3
    else if info =? 8 then 6
    else if info =? 6 then 8
    else info
  else if (strstr rout "her2" || strstr rout "hpr2")
          && negb (strstr rout "her2k") then
    if info =? 8 then 6
    else if info =? 6 then 8
    else info
  else info.

Inductive output :=
| Incorrect (info : Z) (rout : string)
| Message (form : string)
| F77_xerbla (info : Z).

Definition cblas_xerbla (RowMajorStrg info : Z) (rout form : string)
    : list output :=
  let info := if RowMajorStrg =? 0 then info else renumber rout info in
  (if info =? 0 then [] else [Incorrect info rout])
  ++ [Message form]
  ++ (if negb (info =? 0) && (info =? 0) then [F77_xerbla info] else []).

End Xerbla.

(** ** The node with its daughters exchanged *)

Definition flip (m : membership_t) : membership_t :=
  match m with LEFT => RIGHT | RIGHT => LEFT end.

Definition swap_daughters {D : Type} (a : Node D) : Node D :=
  {| n := n a; membership := map flip (membership a);
     time := time a; event := event a;
     eventTypeSize := eventTypeSize a; eventTimeSize := eventTimeSize a;
     eventTime := eventTime a;
     response := response a; mean := mean a; variance := variance a;
     maxLevel := maxLevel a;
     feature := feature a; featureCount := featureCount a |}.

(** Five responses in two classes, three on the left. *)
Definition mixed_classes : Node float :=
  {| n := 5; membership := [LEFT; RIGHT; LEFT; LEFT; RIGHT];
     time := []; event := [];
     eventTypeSize := 0; eventTimeSize := 0; eventTime := [];
     response := [1; 2; 2; 1; 1]%float;
     mean := 1.5%float; variance := 0.25%float; maxLevel := 2;
     feature := []; featureCount := 0 |}.

(** ** The cause of an event *)

Section Causes.

Context {D : Type} {ops : DoubleOps D}.
Variable a : Node D.

(** [(unsigned int) event[i] == j] *)
Definition has_cause (i j : nat) : bool :=
  match cause_of a i with Some e => Nat.eqb e j | None => false end.

End Causes.

(** A zero or a finite number: neither an infinity nor a NaN. *)
Definition is_finite (x : spec_float) : bool :=
  match x with
  | S754_zero _ | S754_finite _ _ _ => true
  | _ => false
  end.

(** Three observations, two deaths, nobody on the left. *)
Definition one_sided : Node float :=
  logrank_node 3 [RIGHT; RIGHT; RIGHT] [1; 2; 3]%float [1; 0; 1]%float 1 2
    [1; 3]%float.

(** ** The counts of a node and of the node with its daughters exchanged

    The parent vectors are the same; each left vector of the one holds what
    the parent vector holds less the left vector of the other. *)
Record mirror (c c' : counts) : Prop := {
  mir_pa : nodeParentAtRisk c' = nodeParentAtRisk c;
  mir_pe : nodeParentEvent c' = nodeParentEvent c;
  mir_len_la : length (nodeLeftAtRisk c') = length (nodeLeftAtRisk c);
  mir_len_le : length (nodeLeftEvent c') = length (nodeLeftEvent c);
  mir_la : forall m,
    get (nodeLeftAtRisk c') m
    = (get (nodeParentAtRisk c) m - get (nodeLeftAtRisk c) m)%Z;
  mir_le : forall m,
    get (nodeLeftEvent c') m
    = (get (nodeParentEvent c) m - get (nodeLeftEvent c) m)%Z
}.

(** The event matrices of the competing-risk rule on a node and on the node
    with its daughters exchanged. *)
Record cr_mirror (ntype ets : nat) (c c' : cr_counts) : Prop := {
  cm_pe : nodeParentEventCR c' = nodeParentEventCR c;
  cm_lmat : mat_ok ntype ets (nodeLeftEventCR c');
  cm_cell : forall r s,
    UIMatrix.get (nodeLeftEventCR c') r s
    = (UIMatrix.get (nodeParentEventCR c) r s
       - UIMatrix.get (nodeLeftEventCR c) r s)%Z
}.

(** ** The node with other times *)

Section Retimed.

Context {D : Type} {ops : DoubleOps D}.

Definition retimed (a : Node D) (time' eventTime' : list D) : Node D :=
  {| n := n a; membership := membership a;
     time := time'; event := event a;
     eventTypeSize := eventTypeSize a; eventTimeSize := eventTimeSize a;
     eventTime := eventTime';
     response := response a; mean := mean a; variance := variance a;
     maxLevel := maxLevel a;
     feature := feature a; featureCount := featureCount a |}.

(** The two comparisons the log-rank rules make between an event time and
    the time of an observation have the same outcome in both nodes. *)
Definition same_order (a b : Node D) : Prop :=
  forall i k, (1 <= i <= n a)%nat -> (1 <= k <= eventTimeSize a)%nat ->
    dleb (dget (eventTime b) k) (dget (time b) i)
    = dleb (dget (eventTime a) k) (dget (time a) i)
    /\ deqb (dget (eventTime b) k) (dget (time b) i)
       = deqb (dget (eventTime a) k) (dget (time a) i).

Definition same_orderb (a b : Node D) : bool :=
  forallb (fun i =>
    forallb (fun k =>
      Bool.eqb (dleb (dget (eventTime b) k) (dget (time b) i))
               (dleb (dget (eventTime a) k) (dget (time a) i))
      && Bool.eqb (deqb (dget (eventTime b) k) (dget (time b) i))
                  (deqb (dget (eventTime a) k) (dget (time a) i)))
      (seq 1 (eventTimeSize a)))
    (seq 1 (n a)).

End Retimed.

(** The times of [two_causes] in another unit. *)
Definition doubled_times : list float := [2; 2; 4; 6; 8]%float.
Definition doubled_eventTime : list float := [2; 4; 6]%float.

(** Three observations whose responses are the labels 0, 2 and 1. *)
Definition labelled : Node float :=
  {| n := 3; membership := [LEFT; RIGHT; LEFT];
     time := [1; 2; 3]%float; event := [1; 0; 2]%float;
     eventTypeSize := 2; eventTimeSize := 2; eventTime := [1; 3]%float;
     response := [0; 2; 1]%float;
     mean := 1%float; variance := 1%float; maxLevel := 2;
     feature := []; featureCount := 0 |}.

(** * Vectors *)

Section VectorFacts.

Local Open Scope Z_scope.

Lemma modulus_pos : 0 < modulus.
Proof. reflexivity. Qed.

Lemma u32_small z : 0 <= z < modulus -> u32 z = z.
Proof. intros H. unfold u32. now apply Z.mod_small. Qed.

Lemma u32_range z : 0 <= u32 z < modulus.
Proof. unfold u32. apply Z.mod_pos_bound. reflexivity. Qed.

Lemma u32_add_l x y : u32 (u32 x + y) = u32 (x + y).
Proof. unfold u32. apply Zplus_mod_idemp_l. Qed.

Lemma length_upd {A} (v : list A) k x : length (upd v k x) = length v.
Proof.
  revert k; induction v as [|y v IH]; intros [|k]; simpl; auto.
Qed.

Lemma nth_upd_eq {A} (v : list A) k x d :
  (k < length v)%nat -> nth k (upd v k x) d = x.
Proof.
  revert k; induction v as [|y v IH]; intros [|k]; simpl; intros H;
    try lia; auto.
  apply IH. lia.
Qed.

Lemma nth_upd_neq {A} (v : list A) k k' x d :
  k <> k' -> nth k' (upd v k x) d = nth k' v d.
Proof.
  revert k k'; induction v as [|y v IH]; intros [|k] [|k']; simpl; intros H;
    try congruence; auto.
Qed.

Lemma upd_nth {A} (v : list A) k d : upd v k (nth k v d) = v.
Proof.
  revert k; induction v as [|y v IH]; intros [|k]; simpl; auto.
  now rewrite IH.
Qed.

Lemma length_set v k x : length (set v k x) = length v.
Proof. apply length_upd. Qed.

Lemma get_set_eq v k x : (k < length v)%nat -> get (set v k x) k = x.
Proof. apply nth_upd_eq. Qed.

Lemma get_set_neq v k k' x : k <> k' -> get (set v k x) k' = get v k'.
Proof. apply nth_upd_neq. Qed.

Lemma length_incr v k : length (incr v k) = length v.
Proof. apply length_set. Qed.

Lemma get_incr_neq v k k' : k <> k' -> get (incr v k) k' = get v k'.
Proof. apply get_set_neq. Qed.

Lemma get_incr_eq v k :
  (k < length v)%nat -> 0 <= get v k -> get v k + 1 < modulus ->
  get (incr v k) k = get v k + 1.
Proof.
  intros Hk H0 H1. unfold incr. rewrite get_set_eq by assumption.
  apply u32_small. lia.
Qed.

Lemma get_overflow v k : (length v <= k)%nat -> get v k = 0.
Proof. intros H. unfold get. now apply nth_overflow. Qed.

Lemma length_alloc nh : length (alloc_uivector nh) = S nh.
Proof. unfold alloc_uivector. rewrite repeat_length. reflexivity. Qed.

Lemma get_alloc nh k : get (alloc_uivector nh) k = 0.
Proof.
  unfold get, alloc_uivector.
  destruct (Nat.lt_ge_cases k (S nh)) as [H|H].
  - apply nth_repeat_lt. assumption.
  - apply nth_overflow. rewrite repeat_length. lia.
Qed.

Lemma set_get v k : set v k (get v k) = v.
Proof. apply upd_nth. Qed.

Lemma zero_alloc nh : zero nh (alloc_uivector nh) = alloc_uivector nh.
Proof.
  unfold zero. generalize (seq 1 nh) as ks.
  induction ks as [|k ks IH]; simpl; auto.
  rewrite <- (get_alloc nh k) at 1. rewrite set_get. exact IH.
Qed.

(** ** Suffix sums *)

Lemma suffix_nil k : suffix [] k = 0.
Proof. unfold suffix. now rewrite skipn_nil. Qed.

Lemma suffix_overflow v k : (length v <= k)%nat -> suffix v k = 0.
Proof. intros H. unfold suffix. now rewrite skipn_all2. Qed.

Lemma suffix_step v k :
  (k < length v)%nat -> suffix v k = get v k + suffix v (S k).
Proof.
  revert k; induction v as [|y v IH]; intros k H; simpl in H; [lia|].
  destruct k as [|k]; [reflexivity|].
  unfold suffix, get in *. simpl. apply IH. lia.
Qed.

Lemma suffix_step' v k : suffix v k = get v k + suffix v (S k).
Proof.
  destruct (Nat.lt_ge_cases k (length v)) as [H|H].
  - now apply suffix_step.
  - rewrite !suffix_overflow, get_overflow by lia. reflexivity.
Qed.

Lemma suffix_set_above v k j x : (k < j)%nat -> suffix (set v k x) j = suffix v j.
Proof.
  revert k j; induction v as [|y v IH]; intros k j H.
  - reflexivity.
  - destruct j as [|j]; [lia|]. destruct k as [|k]; [reflexivity|].
    unfold suffix in *. simpl. apply IH. lia.
Qed.

Lemma suffix_set_below v k j x :
  (j <= k < length v)%nat -> suffix (set v k x) j = suffix v j - get v k + x.
Proof.
  revert k j; induction v as [|y v IH]; intros k j [Hj Hk]; simpl in Hk; [lia|].
  destruct k as [|k], j as [|j]; try lia.
  - unfold suffix, get. simpl. lia.
  - specialize (IH k 0%nat). unfold suffix, get, set in *. simpl in *.
    rewrite IH by lia. lia.
  - specialize (IH k j). unfold suffix, get, set in *. simpl in *.
    apply IH. lia.
Qed.

Lemma suffix_nonneg v : nonneg v -> forall k, 0 <= suffix v k.
Proof.
  intros Hv k.
  remember (length v - k)%nat as d eqn:Hd. revert k Hd.
  induction d as [|d IH]; intros k Hd.
  - rewrite suffix_overflow by lia. lia.
  - rewrite suffix_step'. specialize (IH (S k)). specialize (Hv k). lia.
Qed.

Lemma suffix_le v w :
  length v = length w -> le_vec v w -> forall k, suffix v k <= suffix w k.
Proof.
  intros Hl Hv k.
  remember (length v - k)%nat as d eqn:Hd. revert k Hd.
  induction d as [|d IH]; intros k Hd.
  - rewrite !suffix_overflow by lia. lia.
  - rewrite (suffix_step' v), (suffix_step' w).
    specialize (IH (S k)). specialize (Hv k). lia.
Qed.

Lemma suffix_antitone v : nonneg v -> forall j k, (j <= k)%nat -> suffix v k <= suffix v j.
Proof.
  intros Hv j k Hjk. induction Hjk as [|k Hjk IH]; [lia|].
  rewrite (suffix_step' v k) in IH. specialize (Hv k). lia.
Qed.

Lemma get_le_suffix v k j : nonneg v -> (j <= k)%nat -> get v k <= suffix v j.
Proof.
  intros Hv Hjk. pose proof (suffix_antitone Hv Hjk) as H.
  rewrite suffix_step' in H. pose proof (suffix_nonneg Hv (S k)). lia.
Qed.

End VectorFacts.

(** * The sweep over the observations *)

Lemma ok_pa ets c : counts_ok ets c -> nonneg (nodeParentAtRisk c).
Proof. intros H k. pose proof (ok_la H k). pose proof (ok_la_pa H k). lia. Qed.

Lemma ok_pe ets c : counts_ok ets c -> nonneg (nodeParentEvent c).
Proof. intros H k. pose proof (ok_le H k). pose proof (ok_le_pe H k). lia. Qed.

Lemma get_le_total ets c k : counts_ok ets c -> (get (nodeParentAtRisk c) k <= total c)%Z.
Proof. intros H. apply get_le_suffix; [exact (ok_pa H) | lia]. Qed.

Lemma reset_counts_ok ets : counts_ok ets (reset_counts ets).
Proof.
  unfold reset_counts. rewrite zero_alloc.
  constructor; simpl; try apply length_alloc;
    intros k; rewrite ?get_alloc; lia.
Qed.

Lemma total_reset ets : total (reset_counts ets) = 0%Z.
Proof.
  unfold total, reset_counts. rewrite zero_alloc. simpl.
  assert (H : forall m k, suffix (repeat 0%Z m) k = 0%Z).
  { induction m as [|m IH]; intros k; [apply suffix_nil|].
    destruct k; unfold suffix in *; simpl; [apply (IH 0%nat) | apply IH]. }
  apply H.
Qed.

Section SweepFacts.

Context {D : Type} {ops : DoubleOps D}.
Variable a : Node D.
Local Open Scope Z_scope.

Lemma sweep_0_r k c : sweep a k 0 c = c.
Proof. destruct k; reflexivity. Qed.

Lemma sweep_S_S k i c :
  sweep a (S k) (S i) c =
  if still_at_risk a (S i) (S k)
  then sweep a (S k) i (at_risk a (S i) (S k) c)
  else sweep a k (S i) c.
Proof. reflexivity. Qed.

Ltac cell k k' :=
  destruct (Nat.eq_dec k k') as [<-|?];
  [ rewrite ?get_incr_eq by (assumption || lia)
  | rewrite ?get_incr_neq by assumption ].

Lemma at_risk_ok ets i k c :
  counts_ok ets c -> (k <= ets)%nat -> total c + 1 < modulus ->
  counts_ok ets (at_risk a i k c).
Proof.
  intros H Hk Ht.
  pose proof (get_le_total k H) as Hpa.
  pose proof (ok_le H k) as H1. pose proof (ok_la H k) as H2.
  pose proof (ok_le_pe H k) as H3. pose proof (ok_le_la H k) as H4.
  pose proof (ok_pe_pa H k) as H5. pose proof (ok_la_pa H k) as H6.
  pose proof (ok_len_le H). pose proof (ok_len_pe H).
  pose proof (ok_len_la H). pose proof (ok_len_pa H).
  unfold at_risk.
  destruct (died a i k), (on_left a i); simpl;
    constructor; simpl; rewrite ?length_incr; try assumption;
    intros k'; cell k k';
    first [ apply (ok_le H) | apply (ok_la H) | apply (ok_le_pe H)
          | apply (ok_le_la H) | apply (ok_pe_pa H) | apply (ok_la_pa H)
          | lia ].
Qed.

Lemma at_risk_suffix ets i k c j :
  counts_ok ets c -> (k <= ets)%nat -> total c + 1 < modulus ->
  suffix (nodeParentAtRisk (at_risk a i k c)) j =
  suffix (nodeParentAtRisk c) j + (if (j <=? k)%nat then 1 else 0).
Proof.
  intros H Hk Ht. pose proof (get_le_total k H) as Hpa.
  pose proof (ok_pa H k). pose proof (ok_len_pa H).
  simpl. unfold incr.
  destruct (Nat.leb_spec j k).
  - rewrite suffix_set_below by lia. rewrite u32_small by lia. lia.
  - rewrite suffix_set_above by lia. lia.
Qed.

Lemma sweep_ok ets k i c :
  (k <= ets)%nat -> counts_ok ets c -> total c + Z.of_nat i < modulus ->
  counts_ok ets (sweep a k i c)
  /\ total (sweep a k i c) <= total c + Z.of_nat i
  /\ forall j, suffix (nodeParentAtRisk c) j
               <= suffix (nodeParentAtRisk (sweep a k i c)) j.
Proof.
  revert i c. induction k as [|k IHk]; intros i c Hk H Ht.
  - simpl. split; [|split]; [assumption | lia | intros; lia].
  - revert c H Ht. induction i as [|i IHi]; intros c H Ht.
    + rewrite sweep_0_r. split; [|split]; [assumption | lia | intros; lia].
    + rewrite sweep_S_S. destruct (still_at_risk a (S i) (S k)).
      * pose proof (@at_risk_ok ets (S i) (S k) c H Hk ltac:(lia)) as H1.
        pose proof (fun j => @at_risk_suffix ets (S i) (S k) c j H Hk ltac:(lia)) as H2.
        destruct (IHi _ H1) as (G1 & G2 & G3).
        { unfold total. rewrite H2. cbn [Nat.leb]. unfold total in Ht. lia. }
        split; [|split]; [assumption | |].
        -- unfold total in *. rewrite H2 in G2. cbn [Nat.leb] in G2. lia.
        -- intros j. specialize (G3 j). rewrite H2 in G3.
           destruct (j <=? S k)%nat; lia.
      * destruct (IHk (S i) c ltac:(lia) H Ht) as (G1 & G2 & G3).
        split; [|split]; assumption.
Qed.

(** Every observation from [i0] on that is at risk at time [k0] is counted
    at [k0] or later. *)
Lemma sweep_counts ets k i c k0 i0 :
  (1 <= k0 <= k)%nat -> (k <= ets)%nat -> (1 <= i0 <= i)%nat ->
  (forall i', (i0 <= i' <= i)%nat -> still_at_risk a i' k0 = true) ->
  counts_ok ets c -> total c + Z.of_nat i < modulus ->
  suffix (nodeParentAtRisk c) k0 + Z.of_nat (i - i0 + 1)
  <= suffix (nodeParentAtRisk (sweep a k i c)) k0.
Proof.
  revert i c. induction k as [|k IHk]; intros i c Hk0 Hk Hi0 Hrisk H Ht; [lia|].
  revert c H Ht Hi0 Hrisk. induction i as [|i IHi]; intros c H Ht Hi0 Hrisk; [lia|].
  rewrite sweep_S_S. destruct (still_at_risk a (S i) (S k)) eqn:E.
  - pose proof (@at_risk_ok ets (S i) (S k) c H Hk ltac:(lia)) as H1.
    pose proof (@at_risk_suffix ets (S i) (S k) c k0 H Hk ltac:(lia)) as H2.
    replace (k0 <=? S k)%nat with true in H2 by (symmetry; apply Nat.leb_le; lia).
    assert (Ht1 : total (at_risk a (S i) (S k) c) + Z.of_nat i < modulus).
    { unfold total.
      rewrite (@at_risk_suffix ets (S i) (S k) c 0%nat H Hk ltac:(lia)).
      cbn [Nat.leb]. unfold total in Ht. lia. }
    destruct (Nat.eq_dec i0 (S i)) as [->|Hne].
    + destruct (@sweep_ok ets (S k) i _ Hk H1 Ht1) as (_ & _ & G).
      specialize (G k0). rewrite H2 in G.
      replace (S i - S i + 1)%nat with 1%nat by lia. lia.
    + specialize (IHi _ H1 Ht1 ltac:(lia)).
      rewrite H2 in IHi.
      assert (forall i', (i0 <= i' <= i)%nat -> still_at_risk a i' k0 = true)
        as Hr by (intros; apply Hrisk; lia).
      specialize (IHi Hr). lia.
  - assert (k0 <> S k) as Hne.
    { intros ->. rewrite Hrisk in E by lia. discriminate. }
    apply IHk; auto; lia.
Qed.

End SweepFacts.

(** * The step function *)

Lemma step_function_SS k c :
  step_function (S (S k)) c =
  step_function (S k)
    {| nodeLeftEvent := nodeLeftEvent c;
       nodeParentEvent := nodeParentEvent c;
       nodeLeftAtRisk :=
         set (nodeLeftAtRisk c) (S k)
           (u32 (get (nodeLeftAtRisk c) (S (S k))
                 + get (nodeLeftAtRisk c) (S k)));
       nodeParentAtRisk :=
         set (nodeParentAtRisk c) (S k)
           (u32 (get (nodeParentAtRisk c) (S (S k))
                 + get (nodeParentAtRisk c) (S k))) |}.
Proof. reflexivity. Qed.

Section StepFunction.

Local Open Scope Z_scope.

Variable ets : nat.
Variable c0 : counts.
Hypothesis ok0 : counts_ok ets c0.
Hypothesis small0 : total c0 < modulus.

Local Abbreviation step_inv := (step_inv ets c0).

Lemma suffix_la_bound m :
  0 <= suffix (nodeLeftAtRisk c0) m <= suffix (nodeParentAtRisk c0) m.
Proof.
  split; [apply suffix_nonneg, (ok_la ok0)|].
  apply suffix_le; [|exact (ok_la_pa ok0)].
  rewrite (ok_len_la ok0), (ok_len_pa ok0). reflexivity.
Qed.

Lemma suffix_pa_bound m : 0 <= suffix (nodeParentAtRisk c0) m < modulus.
Proof.
  split; [apply suffix_nonneg, (ok_pa ok0)|].
  pose proof (@suffix_antitone _ (ok_pa ok0) 0%nat m ltac:(lia)).
  unfold total in small0. lia.
Qed.

Lemma step_inv_start : step_inv ets c0.
Proof.
  constructor; auto; try apply ok0; intros m Hm.
  - assert (m = ets) as -> by lia.
    rewrite (suffix_step' (nodeParentAtRisk c0) ets).
    rewrite (@suffix_overflow (nodeParentAtRisk c0) (S ets)); [lia|].
    rewrite (ok_len_pa ok0). lia.
  - assert (m = ets) as -> by lia.
    rewrite (suffix_step' (nodeLeftAtRisk c0) ets).
    rewrite (@suffix_overflow (nodeLeftAtRisk c0) (S ets)); [lia|].
    rewrite (ok_len_la ok0). lia.
Qed.

Lemma step_function_inv k c :
  (k <= ets)%nat -> step_inv k c -> step_inv (Nat.min 1 k) (step_function k c).
Proof.
  revert c. induction k as [|k IH]; intros c Hk H.
  - exact H.
  - destruct k as [|k]; [exact H|].
    rewrite step_function_SS.
    change (Nat.min 1 (S (S k))) with (Nat.min 1 (S k)).
    apply IH; [lia|].
    destruct H as [L1 L2 E1 E2 Ph Pl Lh Ll].
    constructor; simpl; rewrite ?length_set; auto.
    + intros m Hm. destruct (Nat.eq_dec (S k) m) as [<-|Hne].
      * rewrite get_set_eq by lia.
        rewrite Ph, Pl by lia.
        rewrite (suffix_step' (nodeParentAtRisk c0) (S k)).
        pose proof (suffix_pa_bound (S k)) as B.
        rewrite (suffix_step' (nodeParentAtRisk c0) (S k)) in B.
        rewrite u32_small; lia.
      * rewrite get_set_neq by assumption. apply Ph. lia.
    + intros m Hm. rewrite get_set_neq by lia. apply Pl. lia.
    + intros m Hm. destruct (Nat.eq_dec (S k) m) as [<-|Hne].
      * rewrite get_set_eq by lia.
        rewrite Lh, Ll by lia.
        rewrite (suffix_step' (nodeLeftAtRisk c0) (S k)).
        pose proof (suffix_la_bound (S k)) as B.
        pose proof (suffix_pa_bound (S k)) as B'.
        rewrite (suffix_step' (nodeLeftAtRisk c0) (S k)) in B.
        rewrite u32_small; lia.
      * rewrite get_set_neq by assumption. apply Lh. lia.
    + intros m Hm. rewrite get_set_neq by lia. apply Ll. lia.
Qed.

Lemma step_function_spec :
  step_inv (Nat.min 1 ets) (step_function ets c0).
Proof. apply step_function_inv; [lia | apply step_inv_start]. Qed.

Lemma step_function_pa k :
  (1 <= k <= ets)%nat ->
  get (nodeParentAtRisk (step_function ets c0)) k
  = suffix (nodeParentAtRisk c0) k.
Proof. intros H. apply (si_pa_hi step_function_spec). lia. Qed.

Lemma step_function_la k :
  (1 <= k <= ets)%nat ->
  get (nodeLeftAtRisk (step_function ets c0)) k
  = suffix (nodeLeftAtRisk c0) k.
Proof. intros H. apply (si_la_hi step_function_spec). lia. Qed.

End StepFunction.

(** * Comparisons of IEEE doubles *)

Module IEEEFacts.

Lemma SFcompare_Eq_finite s1 m1 e1 s2 m2 e2 :
  SFcompare (S754_finite s1 m1 e1) (S754_finite s2 m2 e2) = Some Eq ->
  s1 = s2 /\ m1 = m2 /\ e1 = e2.
Proof.
  simpl. fold (Pos.compare m1 m2).
  destruct s1, s2; try discriminate;
    destruct (Z.compare_spec e1 e2) as [He|He|He]; try discriminate;
    destruct (Pos.compare_spec m1 m2) as [Hm|Hm|Hm]; try discriminate;
    intros _; subst; auto.
Qed.

Lemma SFcompare_Eq_l x y z :
  SFcompare x y = Some Eq -> SFcompare x z = SFcompare y z.
Proof.
  intros H.
  destruct x as [sx|sx| |sx mx ex], y as [sy|sy| |sy my ey];
    try discriminate H;
    try (destruct sx; discriminate H); try (destruct sy; discriminate H).
  - destruct z; reflexivity.
  - destruct sx, sy; try discriminate H; reflexivity.
  - apply SFcompare_Eq_finite in H as (-> & -> & ->). reflexivity.
Qed.

Lemma eqb_leb_trans (x y z : float) :
  PrimFloat.eqb x y = true -> PrimFloat.leb y z = true ->
  PrimFloat.leb x z = true.
Proof.
  rewrite eqb_spec, !leb_spec. unfold SFeqb, SFleb.
  destruct (SFcompare (Prim2SF x) (Prim2SF y)) as [[| |]|] eqn:E;
    try discriminate.
  intros _. now rewrite (SFcompare_Eq_l _ _ (Prim2SF z) E).
Qed.

End IEEEFacts.

Section PreconditionFacts.

Context {D : Type} {ops : DoubleOps D}.
Variable a : Node D.

Lemma time_sortedb_ok : time_sortedb a = true -> time_sorted a.
Proof.
  unfold time_sortedb, time_sorted. intros H i j Hi Hij Hj.
  rewrite forallb_forall in H. specialize (H i).
  rewrite forallb_forall in H. apply H; apply in_seq; lia.
Qed.

Lemma eventTime_increasingb_ok :
  eventTime_increasingb a = true -> eventTime_increasing a.
Proof.
  unfold eventTime_increasingb, eventTime_increasing. intros H k l Hk Hkl Hl.
  rewrite forallb_forall in H. specialize (H k).
  rewrite forallb_forall in H. apply H; apply in_seq; lia.
Qed.

Lemma eventTime_observedb_ok :
  eventTime_observedb a = true -> eventTime_observed a.
Proof.
  unfold eventTime_observedb, eventTime_observed. intros H k Hk.
  rewrite forallb_forall in H. specialize (H k).
  rewrite existsb_exists in H. destruct H as (i & Hi & Hd).
  - apply in_seq. lia.
  - exists i. apply in_seq in Hi. split; [lia | assumption].
Qed.

Lemma causes_in_rangeb_ok : causes_in_rangeb a = true -> causes_in_range a.
Proof.
  unfold causes_in_rangeb, causes_in_range. intros H i Hi Hev.
  rewrite forallb_forall in H. specialize (H i).
  rewrite Hev in H. simpl in H.
  destruct (cause_of a i); [discriminate|].
  assert (false = true) by (apply H, in_seq; lia). discriminate.
Qed.

Lemma deaths_on_gridb_ok : deaths_on_gridb a = true -> deaths_on_grid a.
Proof.
  unfold deaths_on_gridb, deaths_on_grid. intros H i Hi Hev.
  rewrite forallb_forall in H. specialize (H i).
  rewrite Hev in H. simpl in H.
  assert (In i (seq 1 (n a))) as Hin by (apply in_seq; lia).
  apply H, existsb_exists in Hin. destruct Hin as (k & Hk & Hd).
  exists k. apply in_seq in Hk. split; [lia | assumption].
Qed.

End PreconditionFacts.

(** * The at-risk counts of the survival rule *)

Section SurvivalFacts.

Context {D : Type} {ops : DoubleOps D}.
Variable a : Node D.
Hypothesis Hn : n_fits a.
Local Open Scope Z_scope.

Let raw := sweep a (eventTimeSize a) (n a) (reset_counts (eventTimeSize a)).

Lemma raw_ok :
  counts_ok (eventTimeSize a) raw /\ total raw <= Z.of_nat (n a).
Proof.
  destruct (@sweep_ok D ops a (eventTimeSize a) (eventTimeSize a) (n a)
              (reset_counts (eventTimeSize a)) (Nat.le_refl _)
              (reset_counts_ok _)) as (H1 & H2 & _).
  - rewrite total_reset. exact Hn.
  - rewrite total_reset in H2. split; [exact H1 | exact H2].
Qed.

Lemma raw_small : total raw < modulus.
Proof. destruct raw_ok as [_ H]. unfold n_fits in Hn. lia. Qed.

Lemma survival_pa k :
  (1 <= k <= eventTimeSize a)%nat ->
  get (nodeParentAtRisk (survival_counts a)) k = suffix (nodeParentAtRisk raw) k.
Proof. apply (step_function_pa (proj1 raw_ok) raw_small). Qed.

Lemma survival_la k :
  (1 <= k <= eventTimeSize a)%nat ->
  get (nodeLeftAtRisk (survival_counts a)) k = suffix (nodeLeftAtRisk raw) k.
Proof. apply (step_function_la (proj1 raw_ok) raw_small). Qed.

Lemma survival_at_risk_pos k :
  (1 <= k <= eventTimeSize a)%nat ->
  (exists i0, (1 <= i0 <= n a)%nat /\
     forall i, (i0 <= i <= n a)%nat -> still_at_risk a i k = true) ->
  1 <= get (nodeParentAtRisk (survival_counts a)) k.
Proof.
  intros Hk (i0 & Hi0 & Hrisk). rewrite survival_pa by assumption.
  pose proof (@sweep_counts D ops a (eventTimeSize a) (eventTimeSize a) (n a)
                (reset_counts (eventTimeSize a)) k i0
                ltac:(lia) (Nat.le_refl _) Hi0 Hrisk (reset_counts_ok _)) as H.
  rewrite total_reset in H. specialize (H Hn).
  fold raw in H.
  pose proof (@suffix_nonneg (nodeParentAtRisk (reset_counts (eventTimeSize a)))
                (ok_pa (reset_counts_ok _)) k).
  lia.
Qed.

End SurvivalFacts.

(** For IEEE doubles, an event time that is the time of an observation is
    at most the time of every later observation. *)
Lemma observed_still_at_risk (a : Node float) k i0 :
  time_sorted a -> (1 <= i0)%nat -> died a i0 k = true ->
  forall i, (i0 <= i <= n a)%nat -> still_at_risk a i k = true.
Proof.
  intros Hs Hi0 Hd i Hi. unfold died in Hd. apply andb_prop in Hd as [Hd _].
  unfold still_at_risk.
  apply (IEEEFacts.eqb_leb_trans Hd).
  apply Hs; lia.
Qed.

(** * Sums over index lists *)

Section Sums.

Local Open Scope Z_scope.

Lemma sum_over_cons f x l : sum_over f (x :: l) = f x + sum_over f l.
Proof. reflexivity. Qed.

Lemma sum_over_app f l l' : sum_over f (l ++ l') = sum_over f l + sum_over f l'.
Proof.
  induction l as [|x l IH]; simpl; [reflexivity|].
  rewrite !sum_over_cons, IH. lia.
Qed.

Lemma sum_over_ext f g l :
  (forall x, In x l -> f x = g x) -> sum_over f l = sum_over g l.
Proof.
  induction l as [|x l IH]; intros H; [reflexivity|].
  rewrite !sum_over_cons, H, IH; auto using in_eq, in_cons.
Qed.

Lemma sum_over_le f g l :
  (forall x, In x l -> f x <= g x) -> sum_over f l <= sum_over g l.
Proof.
  induction l as [|x l IH]; intros H; [reflexivity|].
  rewrite !sum_over_cons.
  pose proof (H x (in_eq _ _)). pose proof (IH (fun y Hy => H y (in_cons _ _ _ Hy))).
  lia.
Qed.

Lemma sum_over_nonneg f l : (forall x, In x l -> 0 <= f x) -> 0 <= sum_over f l.
Proof.
  induction l as [|x l IH]; intros H; [reflexivity|].
  rewrite sum_over_cons.
  pose proof (H x (in_eq _ _)). pose proof (IH (fun y Hy => H y (in_cons _ _ _ Hy))).
  lia.
Qed.

Lemma sum_over_zero f l : (forall x, In x l -> f x = 0) -> sum_over f l = 0.
Proof.
  induction l as [|x l IH]; intros H; [reflexivity|].
  rewrite sum_over_cons, H, IH; auto using in_eq, in_cons.
Qed.

(** Adding [d] to the term of one index adds [d] to the sum. *)
Lemma sum_over_bump f g e d l :
  NoDup l -> In e l -> g e = f e + d ->
  (forall x, x <> e -> g x = f x) ->
  sum_over g l = sum_over f l + d.
Proof.
  intros Hnd Hin He Hne. induction Hnd as [|x l Hx Hnd IH]; [destruct Hin|].
  rewrite !sum_over_cons. destruct Hin as [->|Hin].
  - rewrite He. rewrite (@sum_over_ext g f l); [lia|].
    intros y Hy. apply Hne. intros ->. contradiction.
  - rewrite IH by assumption. rewrite Hne; [lia|].
    intros ->. contradiction.
Qed.

Lemma le_sum_over f e l :
  (forall x, In x l -> 0 <= f x) -> In e l -> f e <= sum_over f l.
Proof.
  induction l as [|x l IH]; intros H Hin; [destruct Hin|].
  rewrite sum_over_cons.
  pose proof (H x (in_eq _ _)).
  pose proof (@sum_over_nonneg f l (fun y Hy => H y (in_cons _ _ _ Hy))).
  destruct Hin as [->|Hin]; [lia|].
  pose proof (IH (fun y Hy => H y (in_cons _ _ _ Hy)) Hin). lia.
Qed.

(** The cells [lo .. lo + len - 1] of a vector add up to a difference of
    suffix sums. *)
Lemma sum_over_get v lo len :
  sum_over (get v) (seq lo len) = suffix v lo - suffix v (lo + len).
Proof.
  revert lo. induction len as [|len IH]; intros lo.
  - rewrite Nat.add_0_r. simpl. unfold sum_over. simpl. lia.
  - simpl seq. rewrite sum_over_cons, IH, (suffix_step' v lo).
    replace (S lo + len)%nat with (lo + S len)%nat by lia. lia.
Qed.

End Sums.

(** * Matrices *)

Section MatrixFacts.

Local Open Scope Z_scope.

Variables ntype ets : nat.

Local Abbreviation mat_ok := (mat_ok ntype ets).
Local Abbreviation col_sum := (col_sum ntype).

Lemma row_upd_eq (m : UIMatrix.t) j r :
  (j < length m)%nat -> UIMatrix.row (upd m j r) j = r.
Proof. intros H. unfold UIMatrix.row. now apply nth_upd_eq. Qed.

Lemma row_upd_neq (m : UIMatrix.t) j j' r :
  j <> j' -> UIMatrix.row (upd m j r) j' = UIMatrix.row m j'.
Proof. intros H. unfold UIMatrix.row. now apply nth_upd_neq. Qed.

Lemma mget_set_eq m j k x :
  mat_ok m -> (1 <= j <= ntype)%nat -> (k <= ets)%nat ->
  UIMatrix.get (UIMatrix.set m j k x) j k = x.
Proof.
  intros [Hr Hc] Hj Hk. unfold UIMatrix.get, UIMatrix.set.
  rewrite row_upd_eq by lia. apply get_set_eq. rewrite Hc by lia. lia.
Qed.

Lemma mget_set_neq m j k j' k' x :
  (j, k) <> (j', k') ->
  UIMatrix.get (UIMatrix.set m j k x) j' k' = UIMatrix.get m j' k'.
Proof.
  intros Hne. unfold UIMatrix.get, UIMatrix.set.
  destruct (Nat.eq_dec j j') as [<-|Hj].
  - destruct (Nat.lt_ge_cases j (length m)) as [Hl|Hl].
    + rewrite row_upd_eq by assumption. apply get_set_neq. congruence.
    + unfold UIMatrix.row.
      assert (upd m j (set (nth j m []) k x) = m) as ->; [|reflexivity].
      clear Hne. revert j Hl. induction m as [|r m IH]; intros [|j] Hl;
        simpl in *; try reflexivity; try lia.
      f_equal.
      assert (forall (l : UIMatrix.t) i y, (length l <= i)%nat -> upd l i y = l) as G.
      { induction l as [|z l IHl]; intros [|i] y Hi; simpl in *;
          try reflexivity; try lia. f_equal. apply IHl. lia. }
      apply G. lia.
  - now rewrite row_upd_neq.
Qed.

Lemma mat_ok_set m j k x : mat_ok m -> mat_ok (UIMatrix.set m j k x).
Proof.
  intros [Hr Hc]. constructor.
  - unfold UIMatrix.set. now rewrite length_upd.
  - intros j' Hj'. unfold UIMatrix.set.
    destruct (Nat.eq_dec j j') as [<-|Hj].
    + rewrite row_upd_eq by lia. rewrite length_set. now apply Hc.
    + rewrite row_upd_neq by assumption. now apply Hc.
Qed.

Lemma mat_ok_incr m j k : mat_ok m -> mat_ok (UIMatrix.incr m j k).
Proof. apply mat_ok_set. Qed.

Lemma mat_ok_add m j k x : mat_ok m -> mat_ok (UIMatrix.add m j k x).
Proof. apply mat_ok_set. Qed.

Lemma mset_get m j k : UIMatrix.set m j k (UIMatrix.get m j k) = m.
Proof.
  unfold UIMatrix.set, UIMatrix.get. rewrite set_get.
  unfold UIMatrix.row. apply upd_nth.
Qed.

Lemma alloc_uimatrix_ok : mat_ok (UIMatrix.alloc_uimatrix ntype ets).
Proof.
  constructor.
  - unfold UIMatrix.alloc_uimatrix. simpl. now rewrite repeat_length.
  - intros j Hj. unfold UIMatrix.row, UIMatrix.alloc_uimatrix.
    destruct j as [|j]; [lia|]. simpl.
    rewrite nth_repeat_lt by lia. apply length_alloc.
Qed.

Lemma get_alloc_uimatrix j k :
  UIMatrix.get (UIMatrix.alloc_uimatrix ntype ets) j k = 0.
Proof.
  unfold UIMatrix.get, UIMatrix.row, UIMatrix.alloc_uimatrix.
  destruct j as [|j]; simpl; [now destruct k|].
  destruct (Nat.lt_ge_cases j ntype) as [H|H].
  - rewrite nth_repeat_lt by assumption. apply get_alloc.
  - rewrite nth_overflow by (rewrite repeat_length; lia). now destruct k.
Qed.

Lemma cell_le_col_sum m r s :
  cells_nonneg m -> (1 <= r <= ntype)%nat -> UIMatrix.get m r s <= col_sum m s.
Proof.
  intros Hm Hr. unfold col_sum.
  apply (@le_sum_over (fun r => UIMatrix.get m r s)).
  - intros; apply Hm.
  - apply in_seq. lia.
Qed.

Lemma mget_incr_eq m e k :
  mat_ok m -> (1 <= e <= ntype)%nat -> (k <= ets)%nat ->
  0 <= UIMatrix.get m e k -> UIMatrix.get m e k + 1 < modulus ->
  UIMatrix.get (UIMatrix.incr m e k) e k = UIMatrix.get m e k + 1.
Proof.
  intros Hm He Hk H0 H1. unfold UIMatrix.incr.
  rewrite mget_set_eq by assumption. apply u32_small. lia.
Qed.

Lemma mget_incr_neq m e k j' k' :
  (e, k) <> (j', k') ->
  UIMatrix.get (UIMatrix.incr m e k) j' k' = UIMatrix.get m j' k'.
Proof. apply mget_set_neq. Qed.

Lemma col_sum_incr m e k s :
  mat_ok m -> (1 <= e <= ntype)%nat -> (k <= ets)%nat ->
  0 <= UIMatrix.get m e k -> UIMatrix.get m e k + 1 < modulus ->
  col_sum (UIMatrix.incr m e k) s
  = col_sum m s + (if Nat.eqb s k then 1 else 0).
Proof.
  intros Hm He Hk H0 H1. unfold col_sum.
  destruct (Nat.eqb_spec s k) as [->|Hne].
  - apply sum_over_bump with (e := e).
    + apply seq_NoDup.
    + apply in_seq. lia.
    + now apply mget_incr_eq.
    + intros r Hr. apply mget_incr_neq. congruence.
  - rewrite Z.add_0_r. apply sum_over_ext. intros r _.
    apply mget_incr_neq. congruence.
Qed.

End MatrixFacts.

(** * The sweep of the competing-risk rule *)

Section CRSweep.

Context {D : Type} {ops : DoubleOps D}.
Variable a : Node D.
Local Open Scope Z_scope.

Local Abbreviation ntype := (eventTypeSize a).
Local Abbreviation ets := (eventTimeSize a).

Local Abbreviation cr_sim := (cr_sim ntype ets).
Local Abbreviation mat_ok := (mat_ok ntype ets).
Local Abbreviation col_sum := (col_sum ntype).

Lemma cause_of_range i e : cause_of a i = Some e -> (1 <= e <= ntype)%nat.
Proof.
  unfold cause_of. destruct (to_uint _) as [c|]; [|discriminate].
  destruct (andb _ _) eqn:E; [|discriminate]. intros [= <-].
  apply andb_prop in E as [E1 E2].
  apply Z.leb_le in E1, E2. lia.
Qed.

Lemma reset_cr_matrix_alloc :
  reset_cr_matrix a (UIMatrix.alloc_uimatrix ntype ets)
  = UIMatrix.alloc_uimatrix ntype ets.
Proof.
  unfold reset_cr_matrix.
  generalize (seq 1 ets) as ks. induction ks as [|k ks IH]; [reflexivity|].
  simpl. rewrite <- IH at 2. f_equal.
  generalize (seq 1 ntype) as js. induction js as [|j js IHj]; [reflexivity|].
  simpl. rewrite <- (get_alloc_uimatrix ntype ets j k) at 1.
  rewrite mset_get. exact IHj.
Qed.

Lemma cr_sim_reset : cr_sim (reset_cr_counts a) (reset_counts ets).
Proof.
  unfold reset_cr_counts. rewrite reset_cr_matrix_alloc.
  constructor; simpl; try reflexivity; try apply alloc_uimatrix_ok.
  - intros s. unfold col_sum. rewrite sum_over_zero.
    + unfold reset_counts. rewrite zero_alloc. simpl. now rewrite get_alloc.
    + intros. apply get_alloc_uimatrix.
  - intros s. unfold col_sum. rewrite sum_over_zero.
    + unfold reset_counts. rewrite zero_alloc. simpl. now rewrite get_alloc.
    + intros. apply get_alloc_uimatrix.
  - intros r s. rewrite get_alloc_uimatrix. lia.
Qed.

Lemma cr_cells_nonneg c v :
  cr_sim c v -> cells_nonneg (nodeParentEventCR c).
Proof. intros H r s. pose proof (sim_cell H r s). lia. Qed.

Lemma cr_cell_bound c v e k :
  cr_sim c v -> counts_ok ets v -> (1 <= e <= ntype)%nat ->
  UIMatrix.get (nodeParentEventCR c) e k <= total v.
Proof.
  intros H Hv He.
  pose proof (@cell_le_col_sum ntype _ e k (cr_cells_nonneg H) He) as H1.
  rewrite (sim_pcol H) in H1.
  pose proof (ok_pe_pa Hv k). pose proof (get_le_total k Hv). lia.
Qed.

Ltac cell k k' :=
  destruct (Nat.eq_dec k k') as [<-|?];
  [ rewrite ?get_incr_eq by (assumption || lia)
  | rewrite ?get_incr_neq by assumption ].

Lemma cr_at_risk_sim i k c v c' :
  cr_sim c v -> counts_ok ets v -> total v + 1 < modulus -> (k <= ets)%nat ->
  cr_at_risk a i k c = Some c' -> cr_sim c' (at_risk a i k v).
Proof.
  intros H Hv Ht Hk. unfold cr_at_risk, at_risk.
  rewrite (sim_pa H), (sim_la H), (sim_pe H).
  destruct (died a i k); simpl.
  2:{ intros [= <-]. destruct H. constructor; simpl; auto. }
  destruct (cause_of a i) as [e|] eqn:Ec; [|discriminate].
  apply cause_of_range in Ec.
  pose proof (cr_cell_bound k H Hv Ec) as Hb.
  pose proof (sim_cell H e k) as Hc.
  pose proof (sim_pmat H) as Hpm. pose proof (sim_lmat H) as Hlm.
  pose proof (get_le_total k Hv) as Hpa.
  pose proof (ok_pe Hv k) as Hpe. pose proof (ok_pe_pa Hv k) as Hpepa.
  pose proof (ok_le Hv k) as Hle. pose proof (ok_le_pe Hv k) as Hlepe.
  pose proof (ok_len_pe Hv) as Lpe. pose proof (ok_len_le Hv) as Lle.
  intros [= <-].
  constructor; simpl; auto; try apply H.
  - now apply mat_ok_incr.
  - destruct (on_left a i); [now apply mat_ok_incr | apply H].
  - intros s. rewrite (col_sum_incr s Hpm Ec Hk) by lia.
    rewrite (sim_pcol H). destruct (Nat.eqb_spec s k) as [->|Hne].
    + rewrite get_incr_eq by lia. reflexivity.
    + rewrite get_incr_neq by congruence. lia.
  - intros s. destruct (on_left a i).
    + rewrite (col_sum_incr s Hlm Ec Hk) by lia.
      rewrite (sim_lcol H). destruct (Nat.eqb_spec s k) as [->|Hne].
      * rewrite get_incr_eq by lia. reflexivity.
      * rewrite get_incr_neq by congruence. lia.
    + apply (sim_lcol H).
  - intros r s. pose proof (sim_cell H r s) as Hrs.
    destruct (Nat.eq_dec e r) as [<-|Hr];
      [destruct (Nat.eq_dec k s) as [<-|Hs]|].
    + rewrite (mget_incr_eq Hpm Ec Hk) by lia.
      destruct (on_left a i);
        [rewrite (mget_incr_eq Hlm Ec Hk) by lia|]; lia.
    + rewrite mget_incr_neq by congruence.
      destruct (on_left a i); [rewrite mget_incr_neq by congruence|]; lia.
    + rewrite mget_incr_neq by congruence.
      destruct (on_left a i); [rewrite mget_incr_neq by congruence|]; lia.
Qed.

Lemma cr_sweep_0_r k c : cr_sweep a k 0 c = Some c.
Proof. destruct k; reflexivity. Qed.

Lemma cr_sweep_S_S k i c :
  cr_sweep a (S k) (S i) c =
  if still_at_risk a (S i) (S k)
  then match cr_at_risk a (S i) (S k) c with
       | Some c' => cr_sweep a (S k) i c'
       | None => None
       end
  else cr_sweep a k (S i) c.
Proof. reflexivity. Qed.

Lemma cr_at_risk_some i k c :
  (died a i k = true -> cause_of a i <> None) ->
  exists c', cr_at_risk a i k c = Some c'.
Proof.
  intros H. unfold cr_at_risk. destruct (died a i k); [|eauto].
  destruct (cause_of a i); [eauto|]. now destruct H.
Qed.

Lemma cr_sweep_sim k i c v :
  (k <= ets)%nat ->
  (forall i' k', (1 <= i' <= i)%nat -> died a i' k' = true ->
                 cause_of a i' <> None) ->
  cr_sim c v -> counts_ok ets v -> total v + Z.of_nat i < modulus ->
  exists c', cr_sweep a k i c = Some c' /\ cr_sim c' (sweep a k i v).
Proof.
  revert i c v. induction k as [|k IHk]; intros i c v Hk Hc H Hv Ht.
  - exists c. split; [reflexivity | exact H].
  - revert c v H Hv Ht Hc. induction i as [|i IHi]; intros c v H Hv Ht Hc.
    + exists c. rewrite cr_sweep_0_r, sweep_0_r. split; [reflexivity | exact H].
    + rewrite cr_sweep_S_S, sweep_S_S.
      destruct (still_at_risk a (S i) (S k)).
      * destruct (@cr_at_risk_some (S i) (S k) c) as [c1 E1].
        { apply Hc. lia. }
        rewrite E1.
        apply IHi.
        -- eapply cr_at_risk_sim; eauto; lia.
        -- apply at_risk_ok; [assumption | lia | lia].
        -- unfold total.
           rewrite (@at_risk_suffix D ops a ets (S i) (S k) v 0%nat Hv Hk)
             by lia.
           cbn [Nat.leb]. unfold total in Ht. lia.
        -- intros i' k' Hi'. apply Hc. lia.
      * apply IHk; auto. lia.
Qed.

Lemma step_function_events k c :
  nodeParentEvent (step_function k c) = nodeParentEvent c
  /\ nodeLeftEvent (step_function k c) = nodeLeftEvent c.
Proof.
  revert c. induction k as [|k IH]; intros c; [now split|].
  destruct k as [|k]; [now split|].
  rewrite step_function_SS. now rewrite (proj1 (IH _)), (proj2 (IH _)).
Qed.

Lemma step_function_ext k c c2 :
  nodeParentAtRisk c = nodeParentAtRisk c2 ->
  nodeLeftAtRisk c = nodeLeftAtRisk c2 ->
  nodeParentAtRisk (step_function k c) = nodeParentAtRisk (step_function k c2)
  /\ nodeLeftAtRisk (step_function k c) = nodeLeftAtRisk (step_function k c2).
Proof.
  revert c c2. induction k as [|k IH]; intros c c2 Hp Hl; [now split|].
  destruct k as [|k]; [now split|].
  rewrite !step_function_SS. apply IH; simpl; rewrite ?Hp, ?Hl; reflexivity.
Qed.

End CRSweep.

(** * Loops that write each cell once *)

Section FoldFrame.

Variables (S X P : Type).
Variable f : S -> X -> S.
Variable inv : S -> Prop.
Variable valid : X -> Prop.
Variable owns : X -> P -> Prop.
Variable read : S -> P -> Z.
Variable val : P -> Z.

Hypothesis owns_dec : forall x p, {owns x p} + {~ owns x p}.
Hypothesis f_inv : forall s x, inv s -> valid x -> inv (f s x).
Hypothesis f_frame : forall s x p,
  inv s -> valid x -> ~ owns x p -> read (f s x) p = read s p.
Hypothesis f_write : forall s x p,
  inv s -> valid x -> owns x p -> read (f s x) p = val p.

Lemma fold_left_frame l s :
  inv s -> (forall x, In x l -> valid x) ->
  inv (fold_left f l s)
  /\ (forall p, (forall x, In x l -> ~ owns x p) ->
                read (fold_left f l s) p = read s p)
  /\ (forall p x, In x l -> owns x p -> read (fold_left f l s) p = val p).
Proof.
  intros Hs. induction l as [|x l IH] using rev_ind; intros Hv.
  - simpl. split; [exact Hs|]. split; [reflexivity|]. intros p x [].
  - destruct IH as (I1 & I2 & I3).
    { intros y Hy. apply Hv, in_or_app. now left. }
    assert (valid x) as Hx by (apply Hv, in_or_app; right; now left).
    rewrite fold_left_app. simpl. split; [|split].
    + now apply f_inv.
    + intros p Hp. rewrite f_frame; auto.
      * apply I2. intros y Hy. apply Hp, in_or_app. now left.
      * apply Hp, in_or_app. right. now left.
    + intros p y Hy Ho. destruct (owns_dec x p) as [Hxp|Hxp].
      * now apply f_write.
      * rewrite f_frame by assumption.
        apply in_app_or in Hy as [Hy|[->|[]]]; [eauto | contradiction].
Qed.

End FoldFrame.

(** * The inclusive at-risk counts *)

Section Inclusive1Facts.

Local Open Scope Z_scope.

Variables ntype ets : nat.
Variable ev : UIMatrix.t.
Variable ar : UIVector.t.
Hypothesis ar_range : forall k, 0 <= get ar k < modulus.

Local Abbreviation ok := (mat_ok ntype ets).

Lemma mget_add_eq inc j k x :
  ok inc -> (1 <= j <= ntype)%nat -> (k <= ets)%nat ->
  UIMatrix.get (UIMatrix.add inc j k x) j k = u32 (UIMatrix.get inc j k + x).
Proof. intros. unfold UIMatrix.add. now apply mget_set_eq with (ntype := ntype) (ets := ets). Qed.

Local Abbreviation credit_r := (credit_r ev).
Local Abbreviation credit_s := (credit_s ntype ev).
Local Abbreviation others := (others ev).
Local Abbreviation cell_val := (cell_val ntype ev ar).

Lemma credit_r_spec j k s rs inc :
  ok inc -> (1 <= j <= ntype)%nat -> (k <= ets)%nat ->
  ok (credit_r j k s rs inc)
  /\ (forall j' k', (j, k) <> (j', k') ->
        UIMatrix.get (credit_r j k s rs inc) j' k' = UIMatrix.get inc j' k')
  /\ u32 (UIMatrix.get (credit_r j k s rs inc) j k)
     = u32 (UIMatrix.get inc j k + others j s rs)
  /\ (0 <= UIMatrix.get inc j k < modulus ->
      0 <= UIMatrix.get (credit_r j k s rs inc) j k < modulus).
Proof.
  intros Hok Hj Hk. revert inc Hok.
  induction rs as [|r rs IH]; intros inc Hok.
  - split; [exact Hok|]. split; [reflexivity|]. split; [|auto].
    unfold others, sum_over. simpl. now rewrite Z.add_0_r.
  - change (credit_r j k s (r :: rs) inc)
      with (credit_r j k s rs (credit1 ev j k inc s r)).
    unfold others. rewrite sum_over_cons. fold (others j s rs).
    unfold credit1. destruct (Nat.eqb j r).
    + destruct (IH inc Hok) as (I1 & I2 & I3 & I4).
      split; [exact I1|]. split; [exact I2|]. split; [|exact I4].
      rewrite I3. f_equal; lia.
    + destruct (IH (UIMatrix.add inc j k (UIMatrix.get ev r s)))
        as (I1 & I2 & I3 & I4).
      { now apply mat_ok_add. }
      split; [exact I1|]. split; [|split].
      * intros j' k' Hne. rewrite I2 by assumption.
        unfold UIMatrix.add. now apply mget_set_neq.
      * rewrite I3, mget_add_eq by assumption.
        rewrite u32_add_l. f_equal; lia.
      * intros _. apply I4. rewrite mget_add_eq by assumption.
        apply u32_range.
Qed.

Lemma credit_s_spec j k ss inc :
  ok inc -> (1 <= j <= ntype)%nat -> (k <= ets)%nat ->
  ok (credit_s j k ss inc)
  /\ (forall j' k', (j, k) <> (j', k') ->
        UIMatrix.get (credit_s j k ss inc) j' k' = UIMatrix.get inc j' k')
  /\ u32 (UIMatrix.get (credit_s j k ss inc) j k)
     = u32 (UIMatrix.get inc j k
            + sum_over (fun s => others j s (seq 1 ntype)) ss)
  /\ (0 <= UIMatrix.get inc j k < modulus ->
      0 <= UIMatrix.get (credit_s j k ss inc) j k < modulus).
Proof.
  intros Hok Hj Hk. revert inc Hok.
  induction ss as [|s ss IH]; intros inc Hok.
  - split; [exact Hok|]. split; [reflexivity|]. split; [|auto].
    unfold sum_over. simpl. now rewrite Z.add_0_r.
  - change (credit_s j k (s :: ss) inc)
      with (credit_s j k ss (credit_r j k s (seq 1 ntype) inc)).
    destruct (@credit_r_spec j k s (seq 1 ntype) inc Hok Hj Hk)
      as (R1 & R2 & R3 & R4).
    destruct (IH _ R1) as (I1 & I2 & I3 & I4).
    split; [exact I1|]. split; [|split].
    + intros j' k' Hne. rewrite I2, R2 by assumption. reflexivity.
    + rewrite I3, sum_over_cons.
      rewrite <- u32_add_l, R3, u32_add_l. f_equal; lia.
    + auto.
Qed.

Lemma inclusive_cell1_spec k j inc :
  ok inc -> (1 <= j <= ntype)%nat -> (k <= ets)%nat ->
  ok (inclusive_cell1 ntype ev ar k inc j)
  /\ (forall j' k', (j, k) <> (j', k') ->
        UIMatrix.get (inclusive_cell1 ntype ev ar k inc j) j' k'
        = UIMatrix.get inc j' k')
  /\ UIMatrix.get (inclusive_cell1 ntype ev ar k inc j) j k
     = u32 (get ar k + other_events ntype ev j k).
Proof.
  intros Hok Hj Hk.
  change (inclusive_cell1 ntype ev ar k inc j)
    with (credit_s j k (seq 1 (k - 1)) (UIMatrix.set inc j k (get ar k))).
  destruct (@credit_s_spec j k (seq 1 (k - 1))
              (UIMatrix.set inc j k (get ar k))) as (I1 & I2 & I3 & I4);
    try assumption.
  { now apply mat_ok_set. }
  rewrite (@mget_set_eq ntype ets) in I3, I4 by assumption.
  split; [exact I1|]. split.
  - intros j' k' Hne. rewrite I2 by assumption. now apply mget_set_neq.
  - change (other_events ntype ev j k)
      with (sum_over (fun s => others j s (seq 1 ntype)) (seq 1 (k - 1))).
    rewrite <- I3. symmetry. apply u32_small, I4, ar_range.
Qed.

Lemma inclusive_row_spec k inc :
  ok inc -> (k <= ets)%nat ->
  let inc' := fold_left (inclusive_cell1 ntype ev ar k) (seq 1 ntype) inc in
  ok inc'
  /\ (forall j' k', k' <> k \/ ~ (1 <= j' <= ntype)%nat ->
        UIMatrix.get inc' j' k' = UIMatrix.get inc j' k')
  /\ (forall j, (1 <= j <= ntype)%nat -> UIMatrix.get inc' j k = cell_val (j, k)).
Proof.
  intros Hok Hk.
  destruct (@fold_left_frame UIMatrix.t nat (nat * nat)
              (inclusive_cell1 ntype ev ar k) ok
              (fun j => (1 <= j <= ntype)%nat)
              (fun j p => p = (j, k))
              (fun m p => UIMatrix.get m (fst p) (snd p))
              cell_val) with (l := seq 1 ntype) (s := inc) as (F1 & F2 & F3).
  - intros j [j' k']. destruct (Nat.eq_dec j' j) as [->|];
      [destruct (Nat.eq_dec k' k) as [->|]|];
      [left; reflexivity | right; congruence | right; congruence].
  - intros m j Hm Hj. now apply inclusive_cell1_spec.
  - intros m j [j' k'] Hm Hj Hne. simpl.
    apply inclusive_cell1_spec; auto.
  - intros m j p Hm Hj ->. simpl.
    apply inclusive_cell1_spec; auto.
  - exact Hok.
  - intros j Hj. apply in_seq in Hj. lia.
  - split; [exact F1|]. split.
    + intros j' k' Hne. apply (F2 (j', k')). intros j Hj [= -> ->].
      apply in_seq in Hj. destruct Hne as [Hne|Hne]; [congruence | lia].
    + intros j Hj. apply (F3 (j, k) j); [apply in_seq; lia | reflexivity].
Qed.

Lemma inclusive1_spec inc :
  ok inc ->
  let inc' := inclusive1 ntype ets ev ar inc in
  ok inc'
  /\ (forall j k, (1 <= j <= ntype)%nat -> (1 <= k <= ets)%nat ->
        UIMatrix.get inc' j k = cell_val (j, k)).
Proof.
  intros Hok.
  destruct (@fold_left_frame UIMatrix.t nat (nat * nat)
              (fun inc k => fold_left (inclusive_cell1 ntype ev ar k) (seq 1 ntype) inc)
              ok
              (fun k => (k <= ets)%nat)
              (fun k p => snd p = k /\ (1 <= fst p <= ntype)%nat)
              (fun m p => UIMatrix.get m (fst p) (snd p))
              cell_val) with (l := seq 1 ets) (s := inc) as (F1 & F2 & F3).
  - intros k [j' k']. simpl.
    destruct (Nat.eq_dec k' k) as [->|]; [|right; intros []; congruence].
    destruct (le_dec 1 j'); [|right; intros []; lia].
    destruct (le_dec j' ntype); [|right; intros []; lia].
    left. split; [reflexivity | lia].
  - intros m k Hm Hk. now apply inclusive_row_spec.
  - intros m k [j' k'] Hm Hk Hne. simpl in *.
    apply inclusive_row_spec; auto.
    destruct (Nat.eq_dec k' k) as [->|Hk']; [right | left; assumption].
    intros Hj'. apply Hne. auto.
  - intros m k [j' k'] Hm Hk [Hk' Hj']. simpl in *. subst k'.
    now apply inclusive_row_spec.
  - exact Hok.
  - intros k Hk. apply in_seq in Hk. lia.
  - split; [exact F1|]. intros j k Hj Hk.
    apply (F3 (j, k) k); [apply in_seq; lia | simpl; auto].
Qed.

End Inclusive1Facts.

(** * The counts of the competing-risk rule *)

Section CRCounts.

Context {D : Type} {ops : DoubleOps D}.
Variable a : Node D.
Local Open Scope Z_scope.

Local Abbreviation ntype := (eventTypeSize a).
Local Abbreviation ets := (eventTimeSize a).

Lemma credit_rel c0 c pi li j k s r :
  incl_rel c0 c pi li ->
  incl_rel c0 (credit j k c s r)
    (credit1 (nodeParentEventCR c0) j k pi s r)
    (credit1 (nodeLeftEventCR c0) j k li s r).
Proof.
  intros [H1 H2 H3 H4 H5]. unfold credit, credit1.
  destruct (Nat.eqb j r); constructor; simpl; congruence.
Qed.

Lemma credit_r_rel c0 j k s rs c pi li :
  incl_rel c0 c pi li ->
  incl_rel c0 (fold_left (fun c r => credit j k c s r) rs c)
    (credit_r (nodeParentEventCR c0) j k s rs pi)
    (credit_r (nodeLeftEventCR c0) j k s rs li).
Proof.
  revert c pi li. induction rs as [|r rs IH]; intros c pi li H; [exact H|].
  simpl. apply IH. now apply credit_rel.
Qed.

Lemma credit_s_rel c0 j k ss c pi li :
  incl_rel c0 c pi li ->
  incl_rel c0
    (fold_left
       (fun c s => fold_left (fun c r => credit j k c s r) (seq 1 ntype) c)
       ss c)
    (credit_s ntype (nodeParentEventCR c0) j k ss pi)
    (credit_s ntype (nodeLeftEventCR c0) j k ss li).
Proof.
  revert c pi li. induction ss as [|s ss IH]; intros c pi li H; [exact H|].
  simpl. apply IH. now apply credit_r_rel.
Qed.

Lemma inclusive_cell_rel c0 k c j pi li :
  incl_rel c0 c pi li ->
  incl_rel c0 (inclusive_cell a k c j)
    (inclusive_cell1 ntype (nodeParentEventCR c0)
       (nodeParentAtRisk (vectors c0)) k pi j)
    (inclusive_cell1 ntype (nodeLeftEventCR c0)
       (nodeLeftAtRisk (vectors c0)) k li j).
Proof.
  intros H. unfold inclusive_cell, inclusive_cell1.
  apply credit_s_rel. destruct H as [H1 H2 H3 H4 H5].
  constructor; simpl; congruence.
Qed.

Lemma inclusive_row_rel c0 k js c pi li :
  incl_rel c0 c pi li ->
  incl_rel c0 (fold_left (inclusive_cell a k) js c)
    (fold_left (inclusive_cell1 ntype (nodeParentEventCR c0)
                  (nodeParentAtRisk (vectors c0)) k) js pi)
    (fold_left (inclusive_cell1 ntype (nodeLeftEventCR c0)
                  (nodeLeftAtRisk (vectors c0)) k) js li).
Proof.
  revert c pi li. induction js as [|j js IH]; intros c pi li H; [exact H|].
  simpl. apply IH. now apply inclusive_cell_rel.
Qed.

Lemma inclusive_fold_rel c0 ks c pi li :
  incl_rel c0 c pi li ->
  incl_rel c0
    (fold_left (fun c k => fold_left (inclusive_cell a k) (seq 1 ntype) c) ks c)
    (fold_left
       (fun inc k =>
          fold_left (inclusive_cell1 ntype (nodeParentEventCR c0)
                       (nodeParentAtRisk (vectors c0)) k) (seq 1 ntype) inc)
       ks pi)
    (fold_left
       (fun inc k =>
          fold_left (inclusive_cell1 ntype (nodeLeftEventCR c0)
                       (nodeLeftAtRisk (vectors c0)) k) (seq 1 ntype) inc)
       ks li).
Proof.
  revert c pi li. induction ks as [|k ks IH]; intros c pi li H; [exact H|].
  simpl. apply IH. now apply inclusive_row_rel.
Qed.

Lemma inclusive_at_risk_rel c0 :
  incl_rel c0 (inclusive_at_risk a c0)
    (inclusive1 ntype ets (nodeParentEventCR c0)
       (nodeParentAtRisk (vectors c0)) (nodeParentInclusiveAtRisk c0))
    (inclusive1 ntype ets (nodeLeftEventCR c0)
       (nodeLeftAtRisk (vectors c0)) (nodeLeftInclusiveAtRisk c0)).
Proof. apply inclusive_fold_rel. now constructor. Qed.

Hypothesis Hn : n_fits a.

Local Abbreviation raw :=
  (sweep a ets (n a) (reset_counts ets)).

Lemma others_le_col_sum m j s :
  cells_nonneg m ->
  0 <= others m j s (seq 1 ntype) <= col_sum ntype m s.
Proof.
  intros Hm. unfold others, col_sum. split.
  - apply sum_over_nonneg. intros r _. destruct (Nat.eqb j r); [lia | apply Hm].
  - apply sum_over_le. intros r _. destruct (Nat.eqb j r); [apply Hm | lia].
Qed.

Lemma other_events_nonneg m j k :
  cells_nonneg m -> 0 <= other_events ntype m j k.
Proof.
  intros Hm. unfold other_events. apply sum_over_nonneg.
  intros s _. apply others_le_col_sum, Hm.
Qed.

Lemma others_mono m m' j s :
  (forall r s, 0 <= UIMatrix.get m r s <= UIMatrix.get m' r s) ->
  others m j s (seq 1 ntype) <= others m' j s (seq 1 ntype).
Proof.
  intros H. unfold others. apply sum_over_le. intros r _.
  destruct (Nat.eqb j r); [lia | apply H].
Qed.

Lemma other_events_bound m j k :
  cells_nonneg m ->
  (forall s, col_sum ntype m s <= get (nodeParentAtRisk raw) s) ->
  (1 <= k)%nat ->
  0 <= other_events ntype m j k
    <= total raw - suffix (nodeParentAtRisk raw) k.
Proof.
  intros Hm Hcol Hk. unfold other_events. split.
  - apply sum_over_nonneg. intros s _. apply others_le_col_sum, Hm.
  - transitivity (sum_over (get (nodeParentAtRisk raw)) (seq 1 (k - 1))).
    + apply sum_over_le. intros s _.
      pose proof (@others_le_col_sum m j s Hm). specialize (Hcol s). lia.
    + rewrite sum_over_get. replace (1 + (k - 1))%nat with k by lia.
      unfold total. rewrite (suffix_step' (nodeParentAtRisk raw) 0).
      destruct (raw_ok Hn) as [Hok _].
      pose proof (ok_pa Hok 0%nat). lia.
Qed.

Lemma other_events_mono m m' j k :
  (forall r s, 0 <= UIMatrix.get m r s <= UIMatrix.get m' r s) ->
  other_events ntype m j k <= other_events ntype m' j k.
Proof.
  intros H. unfold other_events. apply sum_over_le. intros s _.
  now apply others_mono.
Qed.

(** The at-risk counts after the step function are [unsigned int] values. *)
Lemma stepped_range k :
  0 <= get (nodeLeftAtRisk (survival_counts a)) k
    <= get (nodeParentAtRisk (survival_counts a)) k
  /\ get (nodeParentAtRisk (survival_counts a)) k < modulus.
Proof.
  destruct (raw_ok Hn) as [Hok Hle]. pose proof (raw_small Hn) as Hs.
  pose proof (step_function_spec Hok Hs) as Hsi.
  fold (survival_counts a) in Hsi.
  destruct (Nat.lt_ge_cases ets k) as [Hk|Hk].
  { pose proof modulus_pos. rewrite !get_overflow; [lia | |].
    - rewrite (si_len_pa Hsi). lia.
    - rewrite (si_len_la Hsi). lia. }
  destruct (Nat.lt_ge_cases k (Nat.min 1 ets)) as [Hlo|Hhi].
  - rewrite (si_pa_lo Hsi), (si_la_lo Hsi) by assumption.
    pose proof (ok_la Hok k). pose proof (ok_la_pa Hok k).
    pose proof (get_le_total k Hok). lia.
  - rewrite (si_pa_hi Hsi), (si_la_hi Hsi) by lia.
    pose proof (suffix_la_bound Hok k). pose proof (suffix_pa_bound Hok Hs k).
    lia.
Qed.

Lemma competing_risk_counts_spec :
  causes_in_range a ->
  exists c, competing_risk_counts a = Some c /\ cr_spec a c.
Proof.
  intros Hc.
  destruct (raw_ok Hn) as [Hok Hle]. pose proof (raw_small Hn) as Hs.
  destruct (@cr_sweep_sim D ops a ets (n a) (reset_cr_counts a)
              (reset_counts ets) (Nat.le_refl _)) as (c1 & E1 & S1).
  { intros i' k' Hi' Hd. apply Hc; [lia|].
    unfold died in Hd. now apply andb_prop in Hd as [_ Hd]. }
  { apply cr_sim_reset. }
  { apply reset_counts_ok. }
  { rewrite total_reset. exact Hn. }
  unfold competing_risk_counts. rewrite E1.
  eexists. split; [reflexivity|].
  set (c2 := cr_step_function a c1).
  pose proof (inclusive_at_risk_rel c2) as R.
  destruct (@step_function_ext ets (vectors c1) raw (sim_pa S1) (sim_la S1))
    as [Epa Ela].
  destruct (step_function_events ets (vectors c1)) as [Epe1 _].
  destruct (step_function_events ets raw) as [Epe2 Ele2].
  fold (survival_counts a) in Epa, Ela, Epe2, Ele2.
  assert (Hpa : nodeParentAtRisk (vectors c2)
                = nodeParentAtRisk (survival_counts a)) by exact Epa.
  assert (Hla : nodeLeftAtRisk (vectors c2)
                = nodeLeftAtRisk (survival_counts a)) by exact Ela.
  assert (Hcn : cells_nonneg (nodeParentEventCR c1))
    by (eapply cr_cells_nonneg; exact S1).
  assert (Hln : cells_nonneg (nodeLeftEventCR c1)).
  { intros r s. apply (sim_cell S1). }
  assert (Hpcol : forall s, col_sum ntype (nodeParentEventCR c1) s
                            <= get (nodeParentAtRisk raw) s).
  { intros s. rewrite (sim_pcol S1). apply (ok_pe_pa Hok). }
  destruct (@inclusive1_spec ntype ets (nodeParentEventCR c2)
              (nodeParentAtRisk (vectors c2))) with
    (inc := nodeParentInclusiveAtRisk c2) as (_ & P2).
  { intros k. rewrite Hpa. pose proof (stepped_range k). lia. }
  { exact (sim_pimat S1). }
  destruct (@inclusive1_spec ntype ets (nodeLeftEventCR c2)
              (nodeLeftAtRisk (vectors c2))) with
    (inc := nodeLeftInclusiveAtRisk c2) as (_ & L2).
  { intros k. rewrite Hla. pose proof (stepped_range k). lia. }
  { exact (sim_limat S1). }
  constructor.
  - rewrite (ir_vectors R). exact Epa.
  - rewrite (ir_vectors R). exact Ela.
  - rewrite (ir_vectors R). simpl. rewrite Epe1, Epe2. apply (sim_pe S1).
  - intros s. rewrite (ir_pecr R). simpl. rewrite Epe2. apply (sim_pcol S1).
  - intros s. rewrite (ir_lecr R). simpl. rewrite Ele2. apply (sim_lcol S1).
  - intros r s. rewrite (ir_pecr R), (ir_lecr R). apply (sim_cell S1).
  - intros j k Hj Hk. rewrite (ir_pi R), (ir_vectors R), (ir_pecr R).
    rewrite P2 by assumption. unfold cell_val. simpl fst. simpl snd.
    apply u32_small.
    change (nodeParentEventCR c2) with (nodeParentEventCR c1).
    pose proof (@other_events_bound _ j k Hcn Hpcol ltac:(lia)).
    pose proof (suffix_pa_bound Hok Hs k).
    rewrite Hpa, (survival_pa Hn) by assumption. lia.
  - intros j k Hj Hk. rewrite (ir_li R), (ir_vectors R), (ir_lecr R).
    rewrite L2 by assumption. unfold cell_val. simpl fst. simpl snd.
    apply u32_small.
    change (nodeLeftEventCR c2) with (nodeLeftEventCR c1).
    pose proof (@other_events_bound _ j k Hcn Hpcol ltac:(lia)).
    pose proof (@other_events_mono _ _ j k (sim_cell S1)).
    assert (0 <= other_events ntype (nodeLeftEventCR c1) j k).
    { unfold other_events. apply sum_over_nonneg. intros s _.
      apply others_le_col_sum, Hln. }
    pose proof (stepped_range k) as Hr.
    rewrite Hla. rewrite (survival_pa Hn) in Hr by assumption. lia.
  - intros j k Hj Hk. rewrite (ir_pi R), P2 by assumption.
    unfold cell_val. apply u32_range.
Qed.

End CRCounts.

(** * One cause: the competing-risk rule against the survival rule *)

Section SingleCause.

Context {D : Type} {ops : DoubleOps D}.
Variable a : Node D.
Hypothesis Hn : n_fits a.
Hypothesis H1 : eventTypeSize a = 1%nat.
Local Open Scope Z_scope.

Lemma col_sum_single m s : col_sum 1 m s = UIMatrix.get m 1 s.
Proof. unfold col_sum, sum_over. simpl. lia. Qed.

Lemma other_events_single m k : other_events 1 m 1 k = 0.
Proof.
  unfold other_events. apply sum_over_zero. intros s _.
  unfold others, sum_over. reflexivity.
Qed.

(** With one cause the matrices hold the vectors of the survival rule. *)
Lemma single_cause_counts c k :
  cr_spec a c -> (1 <= k <= eventTimeSize a)%nat ->
  UIMatrix.get (nodeParentEventCR c) 1 k
    = get (nodeParentEvent (survival_counts a)) k
  /\ UIMatrix.get (nodeLeftEventCR c) 1 k
    = get (nodeLeftEvent (survival_counts a)) k
  /\ UIMatrix.get (nodeParentInclusiveAtRisk c) 1 k
    = get (nodeParentAtRisk (survival_counts a)) k
  /\ UIMatrix.get (nodeLeftInclusiveAtRisk c) 1 k
    = get (nodeLeftAtRisk (survival_counts a)) k
  /\ get (nodeParentAtRisk (vectors c)) k
    = get (nodeParentAtRisk (survival_counts a)) k.
Proof.
  intros Hc Hk.
  pose proof (crs_pcol Hc k) as P. pose proof (crs_lcol Hc k) as L.
  rewrite H1, col_sum_single in P, L.
  pose proof (@crs_pi _ _ _ _ Hc 1%nat k ltac:(lia) Hk) as PI.
  pose proof (@crs_li _ _ _ _ Hc 1%nat k ltac:(lia) Hk) as LI.
  rewrite H1, other_events_single in PI, LI.
  rewrite (crs_pa Hc) in PI. rewrite (crs_la Hc) in LI.
  rewrite (crs_pa Hc). repeat split; try assumption; lia.
Qed.

(** The counts of the survival rule are at most [n]. *)
Lemma survival_counts_bound k :
  (1 <= k <= eventTimeSize a)%nat ->
  0 <= get (nodeLeftAtRisk (survival_counts a)) k <= Z.of_nat (n a)
  /\ 0 <= get (nodeParentEvent (survival_counts a)) k <= Z.of_nat (n a).
Proof.
  clear H1. intros Hk. destruct (raw_ok Hn) as [Hok Hle].
  pose proof (stepped_range Hn k) as (R1 & R2).
  rewrite (survival_pa Hn) in R1 by assumption.
  pose proof (@suffix_antitone _ (ok_pa Hok) 0%nat k ltac:(lia)) as R3.
  fold (total (sweep a (eventTimeSize a) (n a) (reset_counts (eventTimeSize a)))) in R3.
  destruct (step_function_events (eventTimeSize a)
              (sweep a (eventTimeSize a) (n a) (reset_counts (eventTimeSize a))))
    as [Epe _].
  fold (survival_counts a) in Epe. rewrite Epe.
  pose proof (ok_pe Hok k). pose proof (ok_pe_pa Hok k).
  pose proof (get_le_total k Hok). lia.
Qed.

End SingleCause.

(** The sums of [logrank], one at a time. *)
Lemma logrank_fold {D : Type} {ops : DoubleOps D} (c : counts) l (num den : D) :
  fold_left (logrank_step c) l (num, den)
  = (fold_left (fun s k => dadd s (logrank_num c k)) l num,
     fold_left (fun s k =>
                  if (2 <=? get (nodeParentAtRisk c) k)%Z
                  then dadd s (logrank_den c k) else s) l den).
Proof.
  revert num den. induction l as [|k l IH]; intros num den; [reflexivity|].
  simpl. destruct (2 <=? get (nodeParentAtRisk c) k)%Z; apply IH.
Qed.

Lemma fold_left_ext_in {A B} (f g : A -> B -> A) l x :
  (forall y k, In k l -> f y k = g y k) -> fold_left f l x = fold_left g l x.
Proof.
  revert x. induction l as [|k l IH]; intros x H; [reflexivity|].
  simpl. rewrite H by apply in_eq. apply IH.
  intros y k' Hk'. apply H, in_cons, Hk'.
Qed.

Import SFInt.

(** * Exact arithmetic of IEEE doubles on small integers *)

Module Binary64.

Local Open Scope Z_scope.

Abbreviation bra := (binary_round_aux prec emax).

(** ** Shifts and digits *)

Lemma shl_0 p : shl p 0 = p.
Proof. reflexivity. Qed.

Lemma shl_S p n : shl p (S n) = xO (shl p n).
Proof. reflexivity. Qed.

Lemma shl_add p i k : shl (shl p i) k = shl p (i + k).
Proof.
  induction k as [|k IH].
  - now rewrite Nat.add_0_r.
  - rewrite Nat.add_succ_r, !shl_S, IH. reflexivity.
Qed.

Lemma Zpos_shl p n : Zpos (shl p n) = Zpos p * 2 ^ Z.of_nat n.
Proof.
  induction n as [|n IH].
  - simpl. lia.
  - rewrite shl_S, Pos2Z.inj_xO, IH, Nat2Z.inj_succ, Z.pow_succ_r by lia. lia.
Qed.

Lemma shl_mul p q i j : (shl p i * shl q j)%positive = shl (p * q) (i + j).
Proof.
  apply Pos2Z.inj. rewrite Pos2Z.inj_mul, !Zpos_shl, Pos2Z.inj_mul.
  rewrite Nat2Z.inj_add, Z.pow_add_r by lia. ring.
Qed.

Lemma iter_xO p d : Pos.iter xO p d = shl p (Pos.to_nat d).
Proof. unfold shl, Pos.shiftl_nat. apply Pos2Nat.inj_iter. Qed.

Lemma digits_pos p : 1 <= digits p.
Proof. unfold digits. lia. Qed.

Lemma digits_shl p n : digits (shl p n) = digits p + Z.of_nat n.
Proof.
  unfold digits. induction n as [|n IH].
  - simpl. lia.
  - rewrite shl_S. simpl digits2_pos. rewrite Pos2Z.inj_succ, IH. lia.
Qed.

Lemma digits_spec p : 2 ^ (digits p - 1) <= Zpos p < 2 ^ digits p.
Proof.
  unfold digits. induction p as [p IH|p IH|]; simpl digits2_pos.
  - rewrite Pos2Z.inj_succ.
    replace (Z.succ (Zpos (digits2_pos p)) - 1) with (Z.succ (Zpos (digits2_pos p) - 1)) by lia.
    rewrite !Z.pow_succ_r by lia. lia.
  - rewrite Pos2Z.inj_succ.
    replace (Z.succ (Zpos (digits2_pos p)) - 1) with (Z.succ (Zpos (digits2_pos p) - 1)) by lia.
    rewrite !Z.pow_succ_r by lia. lia.
  - simpl. lia.
Qed.

Lemma digits_ge p d : 2 ^ (d - 1) <= Zpos p -> d <= digits p.
Proof.
  intros H. destruct (Z_lt_le_dec (digits p) d) as [Hlt|]; [|assumption].
  exfalso. pose proof (digits_spec p) as [_ Hp].
  assert (2 ^ digits p <= 2 ^ (d - 1)) by (apply Z.pow_le_mono_r; lia).
  lia.
Qed.

Lemma digits_le p d : 0 <= d -> Zpos p < 2 ^ d -> digits p <= d.
Proof.
  intros Hd H. destruct (Z_lt_le_dec d (digits p)) as [Hlt|]; [|assumption].
  exfalso. pose proof (digits_spec p) as [Hp _].
  assert (2 ^ d <= 2 ^ (digits p - 1)) by (apply Z.pow_le_mono_r; lia).
  lia.
Qed.

Lemma digits_mul_lower p q : digits p + digits q - 1 <= digits (p * q).
Proof.
  apply digits_ge. rewrite Pos2Z.inj_mul.
  pose proof (digits_spec p) as [Hp _]. pose proof (digits_spec q) as [Hq _].
  pose proof (digits_pos p). pose proof (digits_pos q).
  replace (digits p + digits q - 1 - 1) with ((digits p - 1) + (digits q - 1)) by lia.
  rewrite Z.pow_add_r by lia.
  apply Z.mul_le_mono_nonneg; try assumption; apply Z.pow_nonneg; lia.
Qed.

Lemma digits_mul_upper p q : digits (p * q) <= digits p + digits q.
Proof.
  pose proof (digits_pos p). pose proof (digits_pos q).
  apply digits_le; [lia|]. rewrite Pos2Z.inj_mul, Z.pow_add_r by lia.
  pose proof (digits_spec p) as [_ Hp]. pose proof (digits_spec q) as [_ Hq].
  apply Z.mul_lt_mono_nonneg; lia.
Qed.

Lemma digits_add_lower p q : digits p <= digits (p + q).
Proof.
  apply digits_ge. pose proof (digits_spec p) as [Hp _]. lia.
Qed.

(** ** Rounding a value that needs none *)

Lemma iter_pos_nat {A} (f : A -> A) p x :
  SpecFloat.iter_pos f p x = Nat.iter (Pos.to_nat p) f x.
Proof.
  revert x. induction p as [p IH|p IH|]; intros x; simpl SpecFloat.iter_pos.
  - rewrite !IH, Pos2Nat.inj_xI.
    replace (S (2 * Pos.to_nat p)) with (Pos.to_nat p + (Pos.to_nat p + 1))%nat by lia.
    rewrite !Nat.iter_add. reflexivity.
  - rewrite !IH, Pos2Nat.inj_xO.
    replace (2 * Pos.to_nat p)%nat with (Pos.to_nat p + Pos.to_nat p)%nat by lia.
    rewrite Nat.iter_add. reflexivity.
  - reflexivity.
Qed.

Lemma shr_exact m n :
  Nat.iter n shr_1 (Build_shr_record (Zpos (shl m n)) false false)
  = Build_shr_record (Zpos m) false false.
Proof.
  induction n as [|n IH]; [reflexivity|].
  rewrite Nat.iter_succ_r, shl_S. simpl shr_1. exact IH.
Qed.

(** A mantissa of 53 digits with trailing zeros is rounded to itself. *)
Lemma bra_exact s m e k :
  digits m = 53 -> -1074 <= e <= 971 ->
  bra s (Zpos (shl m k)) (e - Z.of_nat k) loc_Exact = S754_finite s m e.
Proof.
  intros Hm He. unfold binary_round_aux, shr_fexp, fexp, shr_record_of_loc.
  unfold Zdigits2. fold (digits (shl m k)). rewrite digits_shl, Hm.
  replace (Z.max (53 + Z.of_nat k + (e - Z.of_nat k) - prec) (SpecFloat.emin prec emax)
           - (e - Z.of_nat k)) with (Z.of_nat k)
    by (unfold prec, emax, SpecFloat.emin; lia).
  assert (shr (Build_shr_record (Zpos (shl m k)) false false) (e - Z.of_nat k) (Z.of_nat k)
          = (Build_shr_record (Zpos m) false false, e)) as ->.
  { destruct k as [|k].
    - simpl. f_equal. lia.
    - cbn [Z.of_nat]. unfold shr.
      rewrite iter_pos_nat, SuccNat2Pos.id_succ, shr_exact.
      f_equal. lia. }
  cbn [shr_m loc_of_shr_record round_nearest_even].
  unfold Zdigits2. fold (digits m). rewrite Hm.
  replace (Z.max (53 + e - prec) (SpecFloat.emin prec emax) - e) with 0
    by (unfold prec, emax, SpecFloat.emin; lia).
  cbn [shr shr_m].
  replace (e <=? emax - prec) with true; [reflexivity|].
  symmetry. apply Z.leb_le. unfold prec, emax. lia.
Qed.

(** ** Integers *)

Lemma small_digits p : Zpos p < 2 ^ 53 -> digits p <= 53.
Proof. intros H. apply digits_le; [lia | exact H]. Qed.

Lemma SFint_digits p :
  digits p <= 53 -> digits (shl p (Z.to_nat (53 - digits p))) = 53.
Proof. intros H. rewrite digits_shl, Z2Nat.id by lia. lia. Qed.

Lemma bra_canonical s m e :
  digits m = 53 -> -1074 <= e <= 971 ->
  bra s (Zpos m) e loc_Exact = S754_finite s m e.
Proof.
  intros Hm He. pose proof (@bra_exact s m e 0%nat Hm He) as H.
  rewrite shl_0 in H. replace (e - Z.of_nat 0) with e in H by (simpl; lia).
  exact H.
Qed.

Lemma SFint_normalize z :
  0 <= z < 2 ^ 53 -> binary_normalize prec emax z 0 false = SFint z.
Proof.
  intros Hz. destruct z as [|p|p]; [reflexivity| |lia].
  pose proof (@small_digits p ltac:(lia)) as Hd. pose proof (digits_pos p) as Hd1.
  unfold binary_normalize, binary_round, shl_align, fexp.
  fold (digits p).
  replace (Z.max (digits p + 0 - prec) (SpecFloat.emin prec emax))
    with (digits p - 53) by (unfold prec, emax, SpecFloat.emin; lia).
  unfold SFint.
  destruct (Z.eq_dec (digits p) 53) as [E|E].
  - rewrite E. simpl. apply bra_canonical; [exact E | lia].
  - replace (digits p - 53 - 0) with (Z.neg (Z.to_pos (53 - digits p))) by lia.
    rewrite iter_xO.
    replace (Pos.to_nat (Z.to_pos (53 - digits p)))
      with (Z.to_nat (53 - digits p)) by lia.
    apply bra_canonical; [|lia].
    apply SFint_digits. exact Hd.
Qed.

Lemma SFmul_int a b :
  0 <= a -> 0 <= b -> a * b < 2 ^ 53 ->
  SFmul prec emax (SFint a) (SFint b) = SFint (a * b).
Proof.
  intros Ha Hb Hab.
  destruct a as [|p|p]; [now destruct b| |lia].
  destruct b as [|q|q]; [reflexivity| |lia].
  assert (Zpos (p * q) < 2 ^ 53) as Hpq by (rewrite Pos2Z.inj_mul; exact Hab).
  assert (Zpos p < 2 ^ 53) as Hp by nia.
  assert (Zpos q < 2 ^ 53) as Hq by nia.
  pose proof (small_digits Hpq) as Dpq. pose proof (small_digits Hp) as Dp.
  pose proof (small_digits Hq) as Dq.
  pose proof (digits_mul_lower p q) as Dl.
  pose proof (digits_pos p). pose proof (digits_pos q). pose proof (digits_pos (p * q)).
  change (Zpos p * Zpos q) with (Zpos (p * q)).
  unfold SFint, SFmul. cbn [xorb]. rewrite shl_mul.
  set (i0 := Z.to_nat (53 - digits (p * q))).
  set (k := (Z.to_nat (53 - digits p) + Z.to_nat (53 - digits q) - i0)%nat).
  replace (Z.to_nat (53 - digits p) + Z.to_nat (53 - digits q))%nat
    with (i0 + k)%nat by (unfold k, i0; lia).
  rewrite <- shl_add.
  replace (digits p - 53 + (digits q - 53))
    with (digits (p * q) - 53 - Z.of_nat k) by (unfold k, i0; lia).
  apply bra_exact; [|lia].
  apply SFint_digits. exact Dpq.
Qed.

Lemma div_eucl_exact a b : 0 < b -> Z.div_eucl (a * b) b = (a, 0).
Proof.
  intros Hb. pose proof (Z.div_mul a b ltac:(lia)) as Hd.
  pose proof (Z.mod_mul a b ltac:(lia)) as Hm.
  unfold Z.div, Z.modulo in Hd, Hm.
  destruct (Z.div_eucl (a * b) b) as [q r]. simpl in Hd, Hm. now subst.
Qed.

Lemma SFdiv_int a b :
  0 <= a -> 0 < b -> a * b < 2 ^ 53 ->
  SFdiv prec emax (SFint (a * b)) (SFint b) = SFint a.
Proof.
  intros Ha Hb Hab.
  destruct b as [|q|q]; try lia.
  destruct a as [|p|p]; [reflexivity| |lia].
  assert (Zpos (p * q) < 2 ^ 53) as Hpq by (rewrite Pos2Z.inj_mul; exact Hab).
  assert (Zpos p < 2 ^ 53) as Hp by nia.
  assert (Zpos q < 2 ^ 53) as Hq by nia.
  pose proof (small_digits Hpq) as Dpq. pose proof (small_digits Hp) as Dp.
  pose proof (small_digits Hq) as Dq.
  pose proof (digits_mul_lower p q) as Dl. pose proof (digits_mul_upper p q) as Du.
  pose proof (digits_pos p). pose proof (digits_pos q). pose proof (digits_pos (p * q)).
  change (Zpos p * Zpos q) with (Zpos (p * q)).
  unfold SFint, SFdiv, SFdiv_core_binary. cbn [xorb].
  unfold Zdigits2, fexp.
  fold (digits (shl (p * q) (Z.to_nat (53 - digits (p * q))))).
  fold (digits (shl q (Z.to_nat (53 - digits q)))).
  rewrite !SFint_digits by assumption.
  set (e1 := digits (p * q) - 53). set (e2 := digits q - 53).
  replace (Z.min (Z.max (53 + e1 - (53 + e2) - prec) (SpecFloat.emin prec emax)) (e1 - e2))
    with (e1 - e2 - 53) by (unfold prec, emax, SpecFloat.emin, e1, e2; lia).
  replace (e1 - e2 - (e1 - e2 - 53)) with 53 by lia.
  set (k := Z.to_nat (digits p + digits q - digits (p * q))).
  assert (Z.shiftl (Zpos (shl (p * q) (Z.to_nat (53 - digits (p * q))))) 53
          = Zpos (shl (shl p (Z.to_nat (53 - digits p))) k)
            * Zpos (shl q (Z.to_nat (53 - digits q)))) as ->.
  { rewrite Z.shiftl_mul_pow2 by lia. rewrite !Zpos_shl, Pos2Z.inj_mul.
    unfold k. rewrite !Z2Nat.id by lia.
    assert (E1 : 2 ^ (53 - digits (p * q)) * 2 ^ 53 = 2 ^ (106 - digits (p * q))).
    { rewrite <- Z.pow_add_r by lia. f_equal. lia. }
    assert (E2 : 2 ^ (53 - digits p) * 2 ^ (digits p + digits q - digits (p * q))
                 * 2 ^ (53 - digits q) = 2 ^ (106 - digits (p * q))).
    { rewrite <- !Z.pow_add_r by lia. f_equal. lia. }
    transitivity (Zpos p * Zpos q * 2 ^ (106 - digits (p * q))).
    - rewrite <- E1. ring.
    - rewrite <- E2. ring. }
  rewrite div_eucl_exact by lia.
  replace (new_location (Zpos (shl q (Z.to_nat (53 - digits q)))) 0) with loc_Exact.
  2:{ unfold new_location, new_location_even, new_location_odd.
      destruct (Z.even _); reflexivity. }
  replace (e1 - e2 - 53) with (digits p - 53 - Z.of_nat k) by (unfold e1, e2, k; lia).
  apply bra_exact; [|lia]. apply SFint_digits. exact Dp.
Qed.

Lemma SFadd_int a b :
  0 <= a -> 0 <= b -> a + b < 2 ^ 53 ->
  SFadd prec emax (SFint a) (SFint b) = SFint (a + b).
Proof.
  intros Ha Hb Hab.
  destruct a as [|p|p]; [now destruct b| |lia].
  destruct b as [|q|q]; [reflexivity| |lia].
  assert (Zpos (p + q) < 2 ^ 53) as Hpq by (rewrite Pos2Z.inj_add; exact Hab).
  assert (Zpos p < 2 ^ 53) as Hp by lia.
  assert (Zpos q < 2 ^ 53) as Hq by lia.
  pose proof (small_digits Hpq) as Dpq. pose proof (small_digits Hp) as Dp.
  pose proof (small_digits Hq) as Dq.
  pose proof (digits_add_lower p q) as Dl1.
  pose proof (digits_add_lower q p) as Dl2. rewrite Pos.add_comm in Dl2.
  pose proof (digits_pos p). pose proof (digits_pos q).
  change (Zpos p + Zpos q) with (Zpos (p + q)).
  unfold SFint at 1 2. unfold SFadd. cbn [cond_Zopp].
  set (ep := digits p - 53). set (eq := digits q - 53).
  set (ez := Z.min ep eq).
  set (np := Z.to_nat (53 - digits p)). set (nq := Z.to_nat (53 - digits q)).
  assert (forall m e, ez <= e ->
            fst (shl_align m e ez) = shl m (Z.to_nat (e - ez))) as Hal.
  { intros m e He. unfold shl_align.
    destruct (ez - e) as [|d|d] eqn:E; try lia.
    - replace (e - ez) with 0 by lia. reflexivity.
    - simpl fst. rewrite iter_xO. f_equal. lia. }
  rewrite !Hal by (unfold ez; lia).
  rewrite !shl_add.
  assert (Zpos (shl p (np + Z.to_nat (ep - ez)))
          + Zpos (shl q (nq + Z.to_nat (eq - ez)))
          = Zpos (shl (p + q) (Z.to_nat (- ez)))) as ->.
  { rewrite !Zpos_shl, Pos2Z.inj_add.
    replace (Z.of_nat (np + Z.to_nat (ep - ez))) with (- ez)
      by (unfold np, ep, ez, eq; lia).
    replace (Z.of_nat (nq + Z.to_nat (eq - ez))) with (- ez)
      by (unfold nq, ep, ez, eq; lia).
    rewrite Z2Nat.id by (unfold ez, ep, eq; lia). ring. }
  unfold binary_normalize, binary_round, shl_align, fexp.
  fold (digits (shl (p + q) (Z.to_nat (- ez)))).
  rewrite digits_shl, Z2Nat.id by (unfold ez, ep, eq; lia).
  replace (Z.max (digits (p + q) + - ez + ez - prec) (SpecFloat.emin prec emax))
    with (digits (p + q) - 53)
    by (unfold prec, emax, SpecFloat.emin; lia).
  unfold SFint.
  set (k := Z.to_nat (digits (p + q) - 53 - ez)).
  assert (Hk : Z.of_nat k = digits (p + q) - 53 - ez)
    by (unfold k, ez, ep, eq; lia).
  assert (match digits (p + q) - 53 - ez with
          | Z.neg d => (Pos.iter xO (shl (p + q) (Z.to_nat (- ez))) d,
                        digits (p + q) - 53)
          | _ => (shl (p + q) (Z.to_nat (- ez)), ez)
          end = (shl (p + q) (Z.to_nat (- ez)), ez)) as ->.
  { destruct (digits (p + q) - 53 - ez); [reflexivity | reflexivity | lia]. }
  replace (Z.to_nat (- ez))
    with (Z.to_nat (53 - digits (p + q)) + k)%nat by lia.
  rewrite <- shl_add.
  pose proof (@bra_exact false (shl (p + q) (Z.to_nat (53 - digits (p + q))))
                (digits (p + q) - 53) k (SFint_digits Dpq) ltac:(lia)) as B.
  replace (digits (p + q) - 53 - Z.of_nat k) with ez in B by lia.
  exact B.
Qed.

(** ** The sign and the size of a rounded value *)

Lemma bra_signed s m e l : signed s (bra s m e l).
Proof.
  unfold binary_round_aux.
  destruct (shr_fexp prec emax m e l) as [mrs' e'].
  destruct (shr_fexp prec emax _ e' loc_Exact) as [mrs'' e''].
  destruct (shr_m mrs''); [exact eq_refl | | exact I].
  destruct (_ <=? _); exact eq_refl.
Qed.

Lemma shr_1_m mrs : 0 <= shr_m mrs -> shr_m (shr_1 mrs) = shr_m mrs / 2.
Proof.
  destruct mrs as [m r s]. cbn [shr_m]. intros Hm.
  destruct m as [|[p|p|]|p]; cbn [shr_1 shr_m]; try lia.
  - reflexivity.
  - apply Z.div_unique with (r := 1); lia.
  - apply Z.div_unique with (r := 0); lia.
  - reflexivity.
Qed.

Lemma shr_iter_m mrs n :
  0 <= shr_m mrs ->
  shr_m (Nat.iter n shr_1 mrs) = shr_m mrs / 2 ^ Z.of_nat n.
Proof.
  intros Hm. induction n as [|n IH].
  - simpl. now rewrite Z.div_1_r.
  - cbn [Nat.iter nat_rect]. change (nat_rect _ mrs (fun _ => shr_1) n)
      with (Nat.iter n shr_1 mrs).
    rewrite shr_1_m, IH.
    + rewrite Nat2Z.inj_succ, Z.pow_succ_r by lia.
      rewrite Z.div_div by (try apply Z.pow_pos_nonneg; lia).
      f_equal. lia.
    + rewrite IH. apply Z.div_pos; [lia | apply Z.pow_pos_nonneg; lia].
Qed.

Lemma shr_m_spec mrs e n :
  0 <= shr_m mrs ->
  shr_m (fst (shr mrs e n)) = shr_m mrs / 2 ^ Z.max 0 n
  /\ snd (shr mrs e n) = e + Z.max 0 n.
Proof.
  intros Hm. destruct n as [|p|p]; simpl fst; simpl snd.
  - rewrite Z.div_1_r. split; lia.
  - rewrite iter_pos_nat, shr_iter_m by assumption.
    rewrite positive_nat_Z. split; [f_equal; f_equal; lia | lia].
  - simpl. rewrite Z.div_1_r. split; lia.
Qed.

Lemma shr_fexp_pos p e l :
  SpecFloat.emin prec emax <= e + digits p - 1 ->
  1 <= shr_m (fst (shr_fexp prec emax (Zpos p) e l))
  /\ SpecFloat.emin prec emax <= snd (shr_fexp prec emax (Zpos p) e l).
Proof.
  intros He. unfold shr_fexp, fexp. unfold Zdigits2. fold (digits p).
  set (k := Z.max (digits p + e - prec) (SpecFloat.emin prec emax) - e).
  assert (shr_m (shr_record_of_loc (Zpos p) l) = Zpos p) as Hm
    by (destruct l as [|[]]; reflexivity).
  destruct (@shr_m_spec (shr_record_of_loc (Zpos p) l) e k) as [E1 E2];
    [rewrite Hm; lia|].
  rewrite E1, E2, Hm. pose proof (digits_pos p). split.
  - pose proof (digits_spec p) as [Hp _].
    assert (2 ^ Z.max 0 k <= 2 ^ (digits p - 1)).
    { apply Z.pow_le_mono_r; [lia|]. unfold k, prec in *. lia. }
    assert (0 < 2 ^ Z.max 0 k) by (apply Z.pow_pos_nonneg; lia).
    apply Z.div_le_lower_bound; lia.
  - unfold k. lia.
Qed.

Lemma round_nearest_even_pos m l : 1 <= m -> 1 <= round_nearest_even m l.
Proof.
  intros Hm. destruct l as [|[]]; simpl; try lia.
  destruct (Z.even m); lia.
Qed.

(** A value of at least [2^emin] is rounded to a number that is not zero. *)
Lemma bra_nonzero s p e l :
  SpecFloat.emin prec emax <= e + digits p - 1 ->
  nonzero s (bra s (Zpos p) e l).
Proof.
  intros He. unfold binary_round_aux.
  destruct (@shr_fexp_pos p e l He) as [M1 E1].
  destruct (shr_fexp prec emax (Zpos p) e l) as [mrs' e']. simpl in M1, E1.
  pose proof (@round_nearest_even_pos _ (loc_of_shr_record mrs') M1) as M2.
  destruct (round_nearest_even (shr_m mrs') (loc_of_shr_record mrs'))
    as [|p2|p2]; try lia.
  destruct (@shr_fexp_pos p2 e' loc_Exact) as [M3 E3].
  { pose proof (digits_pos p2). lia. }
  destruct (shr_fexp prec emax (Zpos p2) e' loc_Exact) as [mrs'' e''].
  simpl in M3. destruct (shr_m mrs''); try lia.
  destruct (_ <=? _); exact eq_refl.
Qed.

Lemma valid_emin s m e :
  valid_binary (S754_finite s m e) = true -> SpecFloat.emin prec emax <= e.
Proof.
  simpl. unfold bounded, canonical_mantissa, fexp. intros H.
  apply andb_prop in H as [H _]. apply Z.eqb_eq in H.
  unfold SpecFloat.fexp, SpecFloat.emin in *. lia.
Qed.

(** The product of a positive integer and of a number that is not zero. *)
Lemma SFmul_int_nonzero z s y :
  0 < z < 2 ^ 53 -> valid_binary y = true -> nonzero s y ->
  nonzero s (SFmul prec emax (SFint z) y).
Proof.
  intros Hz Hv Hy. destruct z as [|p|p]; try lia.
  pose proof (@small_digits p ltac:(lia)) as Dp. pose proof (digits_pos p).
  destruct y as [sy|sy| |sy my ey]; simpl in Hy; try contradiction; subst sy.
  - reflexivity.
  - unfold SFint, SFmul. cbn [xorb]. apply bra_nonzero.
    pose proof (valid_emin _ _ _ Hv).
    pose proof (digits_mul_lower (shl p (Z.to_nat (53 - digits p))) my) as Dl.
    rewrite SFint_digits in Dl by assumption.
    pose proof (digits_pos my). lia.
Qed.

(** ** Zeros *)

Lemma SFadd_zero_l y : signed false y -> SFadd prec emax (S754_zero false) y = y.
Proof. destruct y as [[]|[]| |[] m e]; simpl; intros H; congruence. Qed.

Lemma SFadd_zero_r x :
  signed false x -> SFadd prec emax x (S754_zero false) = x.
Proof. destruct x as [[]|[]| |[] m e]; simpl; intros H; congruence. Qed.

Lemma SFadd_zero_any s : SFadd prec emax (S754_zero false) (S754_zero s) = S754_zero false.
Proof. now destruct s. Qed.

Lemma SFadd_zero_same s : SFadd prec emax (S754_zero s) (S754_zero s) = S754_zero s.
Proof. now destruct s. Qed.

Lemma SFdiv_zero_nonzero s y :
  nonzero s y -> SFdiv prec emax (S754_zero false) y = S754_zero s.
Proof. destruct y as [sy|sy| |sy m e]; simpl; intros H; try contradiction; now subst. Qed.

(** A number minus an equal finite number is a zero. *)
Lemma SFsub_eq x y :
  SFcompare x y = Some Eq -> SFltb (SFabs y) (S754_infinity false) = true ->
  exists s, SFsub prec emax x y = S754_zero s.
Proof.
  intros Heq Hfin.
  destruct x as [sx|sx| |sx mx ex], y as [sy|sy| |sy my ey];
    try discriminate Heq; try discriminate Hfin;
    try (destruct sx; discriminate Heq); try (destruct sy; discriminate Heq).
  - destruct sx, sy; simpl; eauto.
  - apply IEEEFacts.SFcompare_Eq_finite in Heq as (-> & -> & ->).
    exists false. unfold SFsub. rewrite Z.sub_diag. reflexivity.
Qed.

End Binary64.

(** * The class counts of the classification rule *)

Section ClassCounts.

Context {D : Type} {ops : DoubleOps D}.
Variable a : Node D.
Local Open Scope Z_scope.

Lemma count_left_cons i l :
  count_left a (i :: l) = (if on_left a i then 1 else 0) + count_left a l.
Proof. unfold count_left. simpl. destruct (on_left a i); simpl length; lia. Qed.

Lemma count_right_cons i l :
  count_right a (i :: l) = (if on_left a i then 0 else 1) + count_right a l.
Proof. unfold count_right. simpl. destruct (on_left a i); simpl length; lia. Qed.

Lemma count_left_nonneg l : 0 <= count_left a l.
Proof. unfold count_left. lia. Qed.

Lemma count_right_nonneg l : 0 <= count_right a l.
Proof. unfold count_right. lia. Qed.

Lemma count_left_right l : count_left a l + count_right a l = Z.of_nat (length l).
Proof.
  induction l as [|i l IH]; [reflexivity|].
  rewrite count_left_cons, count_right_cons. simpl length.
  destruct (on_left a i); lia.
Qed.

Lemma sizes_sum : leftSize a + rghtSize a = Z.of_nat (n a).
Proof. unfold leftSize, rghtSize. now rewrite count_left_right, length_seq. Qed.

Lemma set_set (v : UIVector.t) k x y : set (set v k x) k y = set v k y.
Proof.
  unfold set. revert k. induction v as [|z v IH]; intros [|k]; simpl; auto.
  now rewrite IH.
Qed.

(** The tallies of a perfectly separated node: the left counts are all in
    cell 1 and the right counts in cell 2. *)
Lemma separated_fold l lc rc ls rs :
  (forall i, In i l ->
     class_of a i = Some (if on_left a i then 1%nat else 2%nat)) ->
  (2 < length lc)%nat -> (2 < length rc)%nat ->
  0 <= get lc 1 -> 0 <= get rc 2 -> 0 <= ls -> 0 <= rs ->
  get lc 1 + Z.of_nat (length l) < modulus ->
  get rc 2 + Z.of_nat (length l) < modulus ->
  ls + Z.of_nat (length l) < modulus ->
  rs + Z.of_nat (length l) < modulus ->
  fold_left (classification_step a) l (Some (lc, rc, ls, rs))
  = Some (set lc 1 (get lc 1 + count_left a l),
          set rc 2 (get rc 2 + count_right a l),
          ls + count_left a l, rs + count_right a l).
Proof.
  revert lc rc ls rs. induction l as [|i l IH];
    intros lc rc ls rs Hc Ll Lr Gl Gr Hls Hrs Bl Br Bls Brs.
  - unfold count_left, count_right. simpl.
    rewrite !Z.add_0_r, !set_get. reflexivity.
  - simpl length in *. cbn [fold_left]. unfold classification_step at 2.
    rewrite (Hc i (in_eq _ _)), count_left_cons, count_right_cons.
    assert (Hc' : forall j, In j l ->
              class_of a j = Some (if on_left a j then 1%nat else 2%nat))
      by (intros j Hj; apply Hc, in_cons, Hj).
    assert (E1 : incr lc 1 = set lc 1 (get lc 1 + 1)).
    { unfold incr. rewrite u32_small by lia. reflexivity. }
    assert (E2 : incr rc 2 = set rc 2 (get rc 2 + 1)).
    { unfold incr. rewrite u32_small by lia. reflexivity. }
    assert (E3 : u32 (ls + 1) = ls + 1) by (apply u32_small; lia).
    assert (E4 : u32 (rs + 1) = rs + 1) by (apply u32_small; lia).
    destruct (on_left a i).
    + rewrite E1, E3, IH; rewrite ?length_set, ?get_set_eq by lia;
        try assumption; try lia.
      rewrite set_set, ?Z.add_assoc, ?Z.add_0_r. reflexivity.
    + rewrite E2, E4, IH; rewrite ?length_set, ?get_set_eq by lia;
        try assumption; try lia.
      rewrite set_set, ?Z.add_assoc, ?Z.add_0_r. reflexivity.
Qed.

Lemma separated_counts :
  n_fits a -> perfectly_separated a -> (2 <= maxLevel a)%nat ->
  classification_counts a
  = Some (set (alloc_uivector (maxLevel a)) 1 (leftSize a),
          set (alloc_uivector (maxLevel a)) 2 (rghtSize a),
          leftSize a, rghtSize a).
Proof.
  intros Hn Hs Hm. unfold classification_counts. rewrite zero_alloc.
  unfold n_fits in Hn.
  rewrite separated_fold; rewrite ?length_alloc, ?get_alloc, ?length_seq;
    try lia.
  - reflexivity.
  - intros i Hi. apply Hs. apply in_seq in Hi. lia.
Qed.

(** In every node the squares of the class counts of a daughter add up to
    at most the square of its size. *)
Lemma tally_fold l lc rc ls rs r :
  fold_left (classification_step a) l (Some (lc, rc, ls, rs)) = Some r ->
  nonneg lc -> nonneg rc ->
  suffix lc 0 = ls -> suffix rc 0 = rs ->
  ls + rs + Z.of_nat (length l) < modulus ->
  length lc = S (maxLevel a) -> length rc = S (maxLevel a) ->
  let '(lc', rc', ls', rs') := r in
  nonneg lc' /\ nonneg rc' /\ suffix lc' 0 = ls' /\ suffix rc' 0 = rs'.
Proof.
  revert lc rc ls rs. induction l as [|i l IH];
    intros lc rc ls rs E Nl Nr Sl Sr B Ll Lr.
  - simpl in E. injection E as <-. auto.
  - simpl length in B. cbn [fold_left] in E.
    unfold classification_step at 2 in E.
    destruct (class_of a i) as [c|] eqn:Ec.
    2:{ exfalso. clear -E. induction l; simpl in E; [discriminate | auto]. }
    assert (Hc : (c < S (maxLevel a))%nat).
    { unfold class_of in Ec. destruct (to_uint _) as [z|]; [|discriminate].
      destruct (z <=? Z.of_nat (maxLevel a)) eqn:Ez; [|discriminate].
      injection Ec as <-. apply Z.leb_le in Ez. lia. }
    pose proof (suffix_nonneg Nl 0) as P1. pose proof (suffix_nonneg Nr 0) as P2.
    pose proof (@get_le_suffix lc c 0%nat Nl ltac:(lia)) as G1.
    pose proof (@get_le_suffix rc c 0%nat Nr ltac:(lia)) as G2.
    pose proof (Nl c) as N1. pose proof (Nr c) as N2.
    destruct (on_left a i).
    + apply IH in E; auto; unfold incr; rewrite ?length_set; auto.
      * intros k. destruct (Nat.eq_dec c k) as [<-|Hk].
        -- rewrite get_set_eq by lia. apply u32_range.
        -- rewrite get_set_neq by assumption. apply Nl.
      * rewrite suffix_set_below by lia. rewrite !u32_small by lia. lia.
      * rewrite !u32_small by lia. lia.
    + apply IH in E; auto; unfold incr; rewrite ?length_set; auto.
      * intros k. destruct (Nat.eq_dec c k) as [<-|Hk].
        -- rewrite get_set_eq by lia. apply u32_range.
        -- rewrite get_set_neq by assumption. apply Nr.
      * rewrite suffix_set_below by lia. rewrite !u32_small by lia. lia.
      * rewrite !u32_small by lia. lia.
Qed.

Lemma sum_squares_le_square v lo len :
  nonneg v ->
  sum_over (fun p => get v p * get v p) (seq lo len)
  <= suffix v lo * suffix v lo.
Proof.
  intros Hv. revert lo. induction len as [|len IH]; intros lo.
  - unfold sum_over. simpl. pose proof (suffix_nonneg Hv lo). nia.
  - simpl seq. rewrite sum_over_cons. specialize (IH (S lo)).
    rewrite (suffix_step' v lo).
    pose proof (Hv lo). pose proof (suffix_nonneg Hv (S lo)). nia.
Qed.

Lemma tally_squares lc rc ls rs :
  n_fits a ->
  classification_counts a = Some (lc, rc, ls, rs) ->
  sum_sq a lc <= ls * ls /\ sum_sq a rc <= rs * rs.
Proof.
  intros Hn E. unfold classification_counts in E. rewrite zero_alloc in E.
  apply tally_fold in E.
  - destruct E as (Nl & Nr & Sl & Sr). unfold sum_sq. split.
    + rewrite <- Sl.
      pose proof (@sum_squares_le_square lc 1 (maxLevel a) Nl).
      pose proof (@suffix_antitone lc Nl 0%nat 1%nat ltac:(lia)).
      pose proof (suffix_nonneg Nl 1). nia.
    + rewrite <- Sr.
      pose proof (@sum_squares_le_square rc 1 (maxLevel a) Nr).
      pose proof (@suffix_antitone rc Nr 0%nat 1%nat ltac:(lia)).
      pose proof (suffix_nonneg Nr 1). nia.
  - intros k. rewrite get_alloc. lia.
  - intros k. rewrite get_alloc. lia.
  - pose proof (total_reset (maxLevel a)) as T. unfold total, reset_counts in T.
    rewrite zero_alloc in T. exact T.
  - pose proof (total_reset (maxLevel a)) as T. unfold total, reset_counts in T.
    rewrite zero_alloc in T. exact T.
  - rewrite length_seq. unfold n_fits in Hn. lia.
  - apply length_alloc.
  - apply length_alloc.
Qed.

End ClassCounts.

(** * Doubles holding integers and zeros *)

Module Doubles.

Import Binary64.
Local Open Scope Z_scope.

Lemma Prim2SF_of_uint z :
  0 <= z < 2 ^ 53 -> Prim2SF (IEEE.float_of_uint z) = SFint z.
Proof.
  intros Hz. unfold IEEE.float_of_uint.
  rewrite of_uint63_spec, Uint63.of_Z_spec, Z.mod_small.
  - now apply SFint_normalize.
  - unfold Uint63.wB. simpl. lia.
Qed.

Lemma Prim2SF_mul_int x y a b :
  Prim2SF x = SFint a -> Prim2SF y = SFint b ->
  0 <= a -> 0 <= b -> a * b < 2 ^ 53 ->
  Prim2SF (x * y)%float = SFint (a * b).
Proof.
  intros Hx Hy Ha Hb Hab. rewrite mul_spec, Hx, Hy. now apply SFmul_int.
Qed.

Lemma Prim2SF_div_int x y a b :
  Prim2SF x = SFint (a * b) -> Prim2SF y = SFint b ->
  0 <= a -> 0 < b -> a * b < 2 ^ 53 ->
  Prim2SF (x / y)%float = SFint a.
Proof.
  intros Hx Hy Ha Hb Hab. rewrite div_spec, Hx, Hy. now apply SFdiv_int.
Qed.

Lemma Prim2SF_add_int x y a b :
  Prim2SF x = SFint a -> Prim2SF y = SFint b ->
  0 <= a -> 0 <= b -> a + b < 2 ^ 53 ->
  Prim2SF (x + y)%float = SFint (a + b).
Proof.
  intros Hx Hy Ha Hb Hab. rewrite add_spec, Hx, Hy. now apply SFadd_int.
Qed.

Lemma signed_SFint z : signed false (SFint z) .
Proof. destruct z; simpl; auto. Qed.

Lemma signed_square c :
  0 <= c < 2 ^ 53 ->
  signed false (Prim2SF (IEEE.float_of_uint c * IEEE.float_of_uint c)%float).
Proof.
  intros Hc. rewrite mul_spec, Prim2SF_of_uint by assumption.
  destruct c as [|p|p]; [exact eq_refl| |lia].
  unfold SFint, SF64mul, SFmul. cbn [xorb]. apply bra_signed.
Qed.

Lemma add_zero_l y : signed false (Prim2SF y) -> (0 + y)%float = y.
Proof.
  intros H. apply Prim2SF_inj. rewrite add_spec.
  change (Prim2SF 0%float) with (S754_zero false). now apply SFadd_zero_l.
Qed.

Lemma add_zero_r x : signed false (Prim2SF x) -> (x + 0)%float = x.
Proof.
  intros H. apply Prim2SF_inj. rewrite add_spec.
  change (Prim2SF 0%float) with (S754_zero false). now apply SFadd_zero_r.
Qed.

End Doubles.

(** * The classification rule on a perfectly separated node *)

Section Classification.

Import Binary64 Doubles.
Variable a : Node float.
Local Open Scope Z_scope.

Local Abbreviation sq c := (IEEE.float_of_uint c * IEEE.float_of_uint c)%float.

(** A sum of squares with one term that is not zero. *)
Lemma sum_squares_zeros v l s :
  (forall p, In p l -> get v p = 0) -> signed false (Prim2SF s) ->
  fold_left (fun s p => dadd s (dpow2 (of_uint (get v p)))) l s = s.
Proof.
  intros Hz Hs. induction l as [|p l IH]; [reflexivity|].
  cbn [fold_left]. rewrite (Hz p (in_eq _ _)).
  change (dadd s (dpow2 (of_uint 0))) with (s + 0)%float.
  rewrite add_zero_r by assumption.
  apply IH. intros q Hq. apply Hz, in_cons, Hq.
Qed.

Lemma sum_squares_cell j c :
  (1 <= j <= maxLevel a)%nat -> 0 <= c < 2 ^ 53 ->
  sum_squares a (set (alloc_uivector (maxLevel a)) j c) = sq c.
Proof.
  intros Hj Hc. unfold sum_squares.
  replace (seq 1 (maxLevel a))
    with (seq 1 (j - 1) ++ j :: seq (S j) (maxLevel a - j)).
  2:{ change (j :: seq (S j) (maxLevel a - j)) with (seq j (S (maxLevel a - j))).
      replace j with (1 + (j - 1))%nat at 2 by lia.
      rewrite <- seq_app. f_equal. lia. }
  rewrite fold_left_app.
  rewrite (@sum_squares_zeros _ (seq 1 (j - 1)) d0).
  - cbn [fold_left]. rewrite get_set_eq by (rewrite length_alloc; lia).
    change (dadd d0 (dpow2 (of_uint c))) with (0 + sq c)%float.
    rewrite add_zero_l by now apply signed_square.
    apply sum_squares_zeros; [|now apply signed_square].
    intros p Hp. apply in_seq in Hp.
    rewrite get_set_neq by lia. apply get_alloc.
  - intros p Hp. apply in_seq in Hp.
    rewrite get_set_neq by lia. apply get_alloc.
  - exact eq_refl.
Qed.

Hypothesis Hn : n_fits a.
Hypothesis Hsep : perfectly_separated a.
Hypothesis Hmax : (2 <= maxLevel a)%nat.

(** What the rule computes on a perfectly separated node. *)
Lemma separated_statistic :
  getCustomSplitStatisticMultivariateClassification a
  = Some (sq (leftSize a) / IEEE.float_of_uint (leftSize a)
          + sq (rghtSize a) / IEEE.float_of_uint (rghtSize a))%float.
Proof.
  unfold getCustomSplitStatisticMultivariateClassification.
  rewrite (separated_counts Hn Hsep Hmax).
  pose proof (sizes_sum a) as Hs. unfold n_fits, modulus in Hn.
  pose proof (count_left_nonneg a (seq 1 (n a))).
  pose proof (count_right_nonneg a (seq 1 (n a))).
  fold (leftSize a) in *. fold (rghtSize a) in *.
  rewrite !sum_squares_cell by lia. reflexivity.
Qed.

(** While the squares of the daughter sizes are below 2^53 every operation
    is exact. *)
Lemma separated_exact :
  1 <= leftSize a -> 1 <= rghtSize a ->
  leftSize a * leftSize a < 2 ^ 53 -> rghtSize a * rghtSize a < 2 ^ 53 ->
  getCustomSplitStatisticMultivariateClassification a
  = Some (IEEE.float_of_uint (leftSize a + rghtSize a)).
Proof.
  intros Hl Hr Bl Br. rewrite separated_statistic. f_equal.
  pose proof (sizes_sum a) as Hs. unfold n_fits, modulus in Hn.
  assert (forall c, 1 <= c -> c * c < 2 ^ 53 ->
            Prim2SF (sq c / IEEE.float_of_uint c)%float = SFint c) as Hdiv.
  { intros c Hc Hsq.
    assert (0 <= c < 2 ^ 53) by nia.
    apply Prim2SF_div_int with (b := c); try lia.
    - apply Prim2SF_mul_int; try lia; now apply Prim2SF_of_uint.
    - now apply Prim2SF_of_uint. }
  apply Prim2SF_inj.
  rewrite Prim2SF_of_uint by lia.
  apply Prim2SF_add_int; try lia; apply Hdiv; lia.
Qed.

End Classification.

(** * The regression rule on a node whose responses all equal the mean *)

Section Regression.

Import Binary64 Doubles.
Variable a : Node float.
Local Open Scope Z_scope.

Lemma finite_double_spec m :
  finite_double m -> SFltb (SFabs (Prim2SF m)) (S754_infinity false) = true.
Proof.
  unfold finite_double. rewrite ltb_spec, abs_spec. intros H. exact H.
Qed.

Lemma sub_at_mean x m :
  PrimFloat.eqb x m = true -> finite_double m -> (0 + (x - m))%float = 0%float.
Proof.
  intros He Hm. apply Prim2SF_inj. rewrite add_spec, sub_spec.
  rewrite eqb_spec in He. unfold SFeqb in He.
  destruct (SFcompare (Prim2SF x) (Prim2SF m)) as [[| |]|] eqn:E;
    try discriminate.
  destruct (SFsub_eq _ _ E (finite_double_spec Hm)) as [s Hs].
  unfold SF64sub. rewrite Hs. apply SFadd_zero_any.
Qed.

Lemma nonzero_double_sign v :
  nonzero_double v -> nonzero (PrimFloat.ltb v 0) (Prim2SF v).
Proof.
  intros [Hf Hv]. apply finite_double_spec in Hf.
  rewrite !ltb_spec in *.
  change (Prim2SF 0%float) with (S754_zero false) in *.
  destruct (Prim2SF v) as [s|s| |s m e]; simpl in *.
  - destruct Hv; discriminate.
  - discriminate.
  - destruct Hv; discriminate.
  - now destruct s.
Qed.

Lemma zero_div_scaled c v s :
  1 <= c < 2 ^ 53 -> nonzero s (Prim2SF v) ->
  Prim2SF (0 / (IEEE.float_of_uint c * v))%float = S754_zero s.
Proof.
  intros Hc Hv. rewrite div_spec, mul_spec, Prim2SF_of_uint by lia.
  change (Prim2SF 0%float) with (S754_zero false).
  apply SFdiv_zero_nonzero, SFmul_int_nonzero; [lia | | exact Hv].
  apply Prim2SF_valid.
Qed.

Hypothesis Hmean : all_at_mean a.
Hypothesis Hfin : finite_double (mean a).

Lemma regression_fold l ls rs :
  (forall i, In i l -> (1 <= i <= n a)%nat) ->
  0 <= ls -> 0 <= rs ->
  ls + Z.of_nat (length l) < modulus -> rs + Z.of_nat (length l) < modulus ->
  fold_left (regression_step a) l (0%float, 0%float, ls, rs)
  = (0%float, 0%float, ls + count_left a l, rs + count_right a l).
Proof.
  revert ls rs. induction l as [|i l IH]; intros ls rs Hi Hls Hrs Bl Br.
  - unfold count_left, count_right. simpl. now rewrite !Z.add_0_r.
  - simpl length in *. cbn [fold_left]. unfold regression_step at 2.
    rewrite count_left_cons, count_right_cons.
    change (dadd 0%float (dsub (dget (response a) i) (mean a)))
      with (0 + (dget (response a) i - mean a))%float.
    rewrite sub_at_mean; [|apply Hmean, Hi, in_eq | exact Hfin].
    assert (Hi' : forall j, In j l -> (1 <= j <= n a)%nat)
      by (intros j Hj; apply Hi, in_cons, Hj).
    destruct (on_left a i).
    + rewrite u32_small by lia.
      rewrite IH; try assumption; try lia.
      now rewrite !Z.add_assoc, Z.add_0_r.
    + rewrite u32_small by lia.
      rewrite IH; try assumption; try lia.
      now rewrite !Z.add_assoc, Z.add_0_r.
Qed.

Lemma regression_sums_at_mean :
  n_fits a ->
  regression_sums a = (0%float, 0%float, leftSize a, rghtSize a).
Proof.
  intros Hn. unfold regression_sums, n_fits in *.
  change (@d0 float float_ops) with 0%float.
  rewrite regression_fold; rewrite ?length_seq; try lia.
  - reflexivity.
  - intros i Hi. apply in_seq in Hi. lia.
Qed.

Lemma regression_at_mean :
  n_fits a -> nonzero_double (variance a) ->
  1 <= leftSize a -> 1 <= rghtSize a ->
  getCustomSplitStatisticMultivariateRegression a
  = if PrimFloat.ltb (variance a) 0 then (-0)%float else 0%float.
Proof.
  intros Hn Hv Hl Hr.
  unfold getCustomSplitStatisticMultivariateRegression.
  rewrite (regression_sums_at_mean Hn).
  pose proof (sizes_sum a) as Hs. unfold n_fits, modulus in Hn.
  apply nonzero_double_sign in Hv.
  apply Prim2SF_inj.
  change (dpow2 0%float) with 0%float.
  change (Prim2SF (dadd (ddiv 0%float (dmul (of_uint (leftSize a)) (variance a)))
                        (ddiv 0%float (dmul (of_uint (rghtSize a)) (variance a)))))
    with (Prim2SF (0 / (IEEE.float_of_uint (leftSize a) * variance a)
                   + 0 / (IEEE.float_of_uint (rghtSize a) * variance a))%float).
  rewrite add_spec, !zero_div_scaled with (s := PrimFloat.ltb (variance a) 0)
    by (assumption || lia).
  unfold SF64add. rewrite SFadd_zero_same.
  now destruct (PrimFloat.ltb (variance a) 0).
Qed.

End Regression.

(** * Separated nodes of any size *)

Section SeparatedNode.

Variables L R : nat.
Local Open Scope Z_scope.

Local Abbreviation a := (separated_node L R).

Lemma get1_app_repeat {A} (x y d : A) i :
  (1 <= i <= L + R)%nat ->
  get1 d (repeat x L ++ repeat y R) i = if (i <=? L)%nat then x else y.
Proof.
  intros Hi. destruct i as [|i]; [lia|]. simpl get1.
  destruct (Nat.leb_spec (S i) L).
  - rewrite app_nth1 by (rewrite repeat_length; lia).
    apply nth_repeat_lt. lia.
  - rewrite app_nth2 by (rewrite repeat_length; lia).
    rewrite repeat_length. apply nth_repeat_lt. lia.
Qed.

Lemma separated_on_left i :
  (1 <= i <= L + R)%nat -> on_left a i = (i <=? L)%nat.
Proof.
  intros Hi. unfold on_left, mget. cbn [membership separated_node].
  rewrite get1_app_repeat by assumption. now destruct (i <=? L)%nat.
Qed.

Lemma separated_node_separated : perfectly_separated a.
Proof.
  intros i Hi. cbn [n separated_node] in Hi.
  rewrite separated_on_left by assumption.
  unfold class_of, dget. cbn [response maxLevel separated_node].
  rewrite get1_app_repeat by assumption.
  destruct (i <=? L)%nat; reflexivity.
Qed.

Lemma count_left_all l :
  (forall i, In i l -> on_left a i = true) ->
  count_left a l = Z.of_nat (length l) /\ count_right a l = 0.
Proof.
  induction l as [|i l IH]; intros H; [now split|].
  rewrite count_left_cons, count_right_cons, (H i (in_eq _ _)).
  destruct IH as [-> ->]; [intros j Hj; apply H, in_cons, Hj|].
  simpl length. lia.
Qed.

Lemma count_left_none l :
  (forall i, In i l -> on_left a i = false) ->
  count_left a l = 0 /\ count_right a l = Z.of_nat (length l).
Proof.
  induction l as [|i l IH]; intros H; [now split|].
  rewrite count_left_cons, count_right_cons, (H i (in_eq _ _)).
  destruct IH as [-> ->]; [intros j Hj; apply H, in_cons, Hj|].
  simpl length. lia.
Qed.

Lemma count_app l l' :
  count_left a (l ++ l') = count_left a l + count_left a l'
  /\ count_right a (l ++ l') = count_right a l + count_right a l'.
Proof.
  unfold count_left, count_right. rewrite !filter_app, !length_app. lia.
Qed.

Lemma separated_sizes : leftSize a = Z.of_nat L /\ rghtSize a = Z.of_nat R.
Proof.
  unfold leftSize, rghtSize. cbn [n separated_node].
  rewrite seq_app.
  destruct (count_app (seq 1 L) (seq (1 + L) R)) as [-> ->].
  destruct (count_left_all (seq 1 L)) as [-> ->].
  { intros i Hi. apply in_seq in Hi. rewrite separated_on_left by lia.
    apply Nat.leb_le. lia. }
  destruct (count_left_none (seq (1 + L) R)) as [-> ->].
  { intros i Hi. apply in_seq in Hi. rewrite separated_on_left by lia.
    apply Nat.leb_gt. lia. }
  rewrite !length_seq. lia.
Qed.

End SeparatedNode.

(** * The guards of the canonical-correlation rule *)

Section CCAFacts.

Context {D : Type} {ops : DoubleOps D}.
Variable backend : Lapack D.
Variable a : Node D.
Local Open Scope Z_scope.

Lemma daughter_sizes_fold l ls rs :
  fold_left
    (fun '(leftSize, rghtSize) i =>
       if on_left a i then (leftSize + 1, rghtSize)
       else (leftSize, rghtSize + 1))
    l (ls, rs)
  = (ls + count_left a l, rs + count_right a l).
Proof.
  revert ls rs. induction l as [|i l IH]; intros ls rs.
  - unfold count_left, count_right. simpl. now rewrite !Z.add_0_r.
  - cbn [fold_left]. rewrite count_left_cons, count_right_cons.
    destruct (on_left a i); rewrite IH; f_equal; lia.
Qed.

Lemma daughter_sizes_spec : daughter_sizes a = (leftSize a, rghtSize a).
Proof. unfold daughter_sizes. now rewrite daughter_sizes_fold. Qed.

Lemma cca_dims_spec dimX dimY :
  cca_dims a = Some (dimX, dimY) ->
  exists x,
    feature_at a (featureCount a) 1 = Some x /\ to_int x = Some dimX
    /\ dimY = to_int32 (Z.of_nat (featureCount a) - dimX - 1).
Proof.
  unfold cca_dims.
  destruct (feature_at a (featureCount a) 1) as [x|] eqn:Ex; [|discriminate].
  destruct (to_int x) as [z|] eqn:Ez; [|discriminate].
  intros H. injection H as <- <-. exists x.
  split; [reflexivity|]. split; [exact Ez | reflexivity].
Qed.

Lemma to_int32_exact z : - 2 ^ 31 <= z < 2 ^ 31 -> to_int32 z = z.
Proof.
  intros Hz. unfold to_int32, modulus.
  destruct (Z_lt_le_dec z 0) as [Hneg|Hpos].
  - replace (z mod 2 ^ 32) with (z + 2 ^ 32).
    + destruct (Z.ltb_spec (z + 2 ^ 32) (2 ^ 31)); lia.
    + apply Z.mod_unique with (q := -1); lia.
  - rewrite Z.mod_small by lia.
    destruct (Z.ltb_spec z (2 ^ 31)); lia.
Qed.

Lemma cca_guarded dimX dimY :
  cca_dims a = Some (dimX, dimY) ->
  Z.of_nat (n a) < 2 ^ 31 -> dimX + dimY < 2 ^ 31 ->
  dimX <= 0 \/ dimY <= 0
  \/ leftSize a <= dimX + dimY \/ rghtSize a <= dimX + dimY ->
  ccaSplitAbsoluteDifference backend a = Some (d0, []).
Proof.
  intros Hd Hn Hs Hg. unfold ccaSplitAbsoluteDifference. rewrite Hd.
  destruct ((0 <? dimX) && (0 <? dimY))%bool eqn:E.
  - apply andb_prop in E as [H1 H2]. apply Z.ltb_lt in H1, H2.
    replace (Z.of_nat (n a) <? 2 ^ 31) with true
      by (symmetry; apply Z.ltb_lt; exact Hn).
    rewrite daughter_sizes_spec.
    replace (dimX + dimY <? 2 ^ 31) with true
      by (symmetry; apply Z.ltb_lt; exact Hs).
    replace ((dimX + dimY <? leftSize a) && (dimX + dimY <? rghtSize a))%bool
      with false; [reflexivity|].
    symmetry. apply andb_false_iff. rewrite !Z.ltb_ge. lia.
  - reflexivity.
Qed.

(** Past the guards the backend is called: eleven calls per daughter. *)
Lemma cca_unguarded dimX dimY :
  cca_dims a = Some (dimX, dimY) ->
  0 < dimX -> 0 < dimY -> Z.of_nat (n a) < 2 ^ 31 -> dimX + dimY < 2 ^ 31 ->
  dimX + dimY < leftSize a -> dimX + dimY < rghtSize a ->
  leftSize a * rghtSize a < 2 ^ 31 ->
  exists v, ccaSplitAbsoluteDifference backend a = Some (v, cca_trace ++ cca_trace).
Proof.
  intros Hd H1 H2 Hn Hs Hl Hr Hm. unfold ccaSplitAbsoluteDifference.
  rewrite Hd, daughter_sizes_spec.
  replace ((0 <? dimX) && (0 <? dimY))%bool with true
    by (symmetry; apply andb_true_iff; rewrite !Z.ltb_lt; lia).
  replace (Z.of_nat (n a) <? 2 ^ 31) with true
    by (symmetry; apply Z.ltb_lt; exact Hn).
  replace (dimX + dimY <? 2 ^ 31) with true
    by (symmetry; apply Z.ltb_lt; exact Hs).
  replace ((dimX + dimY <? leftSize a) && (dimX + dimY <? rghtSize a))%bool
    with true by (symmetry; apply andb_true_iff; rewrite !Z.ltb_lt; lia).
  replace (leftSize a * rghtSize a <? 2 ^ 31) with true
    by (symmetry; apply Z.ltb_lt; exact Hm).
  eauto.
Qed.

(** The blocks of a daughter: one row per observation of the daughter, one
    entry per feature column of the block. *)
Lemma block_rows side lo len :
  Z.of_nat (length (block a side lo len))
  = (if side then leftSize a else rghtSize a)
  /\ Forall (fun r => length r = len) (block a side lo len).
Proof.
  unfold block. split.
  - rewrite length_map. unfold leftSize, rghtSize, count_left, count_right.
    destruct side; do 2 f_equal; apply filter_ext; intros i;
      now destruct (on_left a i).
  - apply Forall_map. apply Forall_forall. intros i _.
    now rewrite length_map, length_seq.
Qed.

Lemma cca_nonpositive dimX dimY :
  cca_dims a = Some (dimX, dimY) -> dimX <= 0 \/ dimY <= 0 ->
  ccaSplitAbsoluteDifference backend a = Some (d0, []).
Proof.
  intros Hd Hg. unfold ccaSplitAbsoluteDifference. rewrite Hd.
  destruct ((0 <? dimX) && (0 <? dimY))%bool eqn:E; [|reflexivity].
  apply andb_prop in E as [H1 H2]. apply Z.ltb_lt in H1, H2. lia.
Qed.

(** The blocks are the columns [1 .. dimX] and
    [dimX + 1 .. dimX + dimY] of the observations of the daughter. *)
Lemma block_columns side dimX dimY :
  0 <= dimX ->
  block a side 1 (Z.to_nat dimX) = map (columns a 1 dimX) (daughter a side)
  /\ block a side (S (Z.to_nat dimX)) (Z.to_nat dimY)
     = map (columns a (dimX + 1) (dimX + dimY)) (daughter a side).
Proof.
  intros Hx. unfold block, columns, daughter. split.
  - replace (dimX - 1 + 1) with dimX by lia. reflexivity.
  - replace (dimX + dimY - (dimX + 1) + 1) with dimY by lia.
    replace (Z.to_nat (dimX + 1)) with (S (Z.to_nat dimX)) by lia.
    reflexivity.
Qed.

(** Past the guards the result is computed from these blocks. *)
Lemma cca_unguarded_value dimX dimY :
  cca_dims a = Some (dimX, dimY) ->
  0 < dimX -> 0 < dimY -> Z.of_nat (n a) < 2 ^ 31 -> dimX + dimY < 2 ^ 31 ->
  dimX + dimY < leftSize a -> dimX + dimY < rghtSize a ->
  leftSize a * rghtSize a < 2 ^ 31 ->
  ccaSplitAbsoluteDifference backend a
  = Some (dmul (dsqrt (of_uint (leftSize a * rghtSize a)))
            (dfabs
               (dsub
                  (cca_daughter backend
                     (map (columns a 1 dimX) (daughter a true))
                     (map (columns a (dimX + 1) (dimX + dimY))
                        (daughter a true))
                     (leftSize a) dimX dimY)
                  (cca_daughter backend
                     (map (columns a 1 dimX) (daughter a false))
                     (map (columns a (dimX + 1) (dimX + dimY))
                        (daughter a false))
                     (rghtSize a) dimX dimY))),
          cca_trace ++ cca_trace).
Proof.
  intros Hd H1 H2 Hn Hs Hl Hr Hm. unfold ccaSplitAbsoluteDifference.
  rewrite Hd, daughter_sizes_spec.
  replace ((0 <? dimX) && (0 <? dimY))%bool with true
    by (symmetry; apply andb_true_iff; rewrite !Z.ltb_lt; lia).
  replace (Z.of_nat (n a) <? 2 ^ 31) with true
    by (symmetry; apply Z.ltb_lt; exact Hn).
  replace (dimX + dimY <? 2 ^ 31) with true
    by (symmetry; apply Z.ltb_lt; exact Hs).
  replace ((dimX + dimY <? leftSize a) && (dimX + dimY <? rghtSize a))%bool
    with true by (symmetry; apply andb_true_iff; rewrite !Z.ltb_lt; lia).
  replace (leftSize a * rghtSize a <? 2 ^ 31) with true
    by (symmetry; apply Z.ltb_lt; exact Hm).
  destruct (@block_columns true dimX dimY ltac:(lia)) as [-> ->].
  destruct (@block_columns false dimX dimY ltac:(lia)) as [-> ->].
  reflexivity.
Qed.

End CCAFacts.

(** * The properties of the specification *)

Lemma sqrt2_bounds :
  (1414213562 / 1000000000 <= sqrt 2 <= 1414213563 / 1000000000)%R.
Proof.
  split.
  - rewrite <- (sqrt_square (1414213562 / 1000000000)) by lra.
    apply sqrt_le_1_alt. lra.
  - rewrite <- (sqrt_square (1414213563 / 1000000000)) by lra.
    apply sqrt_le_1_alt. lra.
Qed.

(** C1: on the node of four observations with the times 1, 2, 3, 4, the
    events 1, 0, 1, 1, the memberships LEFT, RIGHT, LEFT, RIGHT and the event
    times 1, 3, 4, the survival rule counts the parent at-risk table 4, 2, 1,
    the left at-risk table 2, 1, 0, the parent event table 1, 1, 1 and the
    left event table 1, 1, 0; the numerator is 1 and the denominator 0.5; the
    result is the double |1| / sqrt 0.5, which is within 1e-9 of the square
    root of 2. *)
Theorem survival_four_observations :
  let c := survival_counts four_observations in
  map (get (nodeParentAtRisk c)) (seq 1 3) = [4; 2; 1]%Z
  /\ map (get (nodeLeftAtRisk c)) (seq 1 3) = [2; 1; 0]%Z
  /\ map (get (nodeParentEvent c)) (seq 1 3) = [1; 1; 1]%Z
  /\ map (get (nodeLeftEvent c)) (seq 1 3) = [1; 1; 0]%Z
  /\ logrank four_observations c = (1, 0.5)%float
  /\ getCustomSplitStatisticSurvival four_observations
     = (PrimFloat.abs 1 / PrimFloat.sqrt 0.5)%float
  /\ (Rabs (float_value (getCustomSplitStatisticSurvival four_observations)
            - sqrt 2) <= 1 / 1000000000)%R.
Proof.
  cbv zeta. repeat split; try (vm_compute; reflexivity).
  unfold float_value.
  replace (Prim2SF (getCustomSplitStatisticSurvival four_observations))
    with (S754_finite false 6369051672525772 (-52))
    by (vm_compute; reflexivity).
  cbn [IEEE.SFvalue Z.leb Z.compare cond_Zopp Z.opp].
  change (2 ^ 52)%Z with 4503599627370496%Z.
  pose proof sqrt2_bounds as [Hlo Hhi].
  apply Rabs_le. lra.
Qed.

(** C2, the input that refutes it: five observations at the time 1, three of
    them deaths, four on the left, one cause.  The preconditions hold, and the
    two rules return doubles that differ in the last bits: the survival rule
    divides the product of two counts, the competing-risk rule multiplies by
    the quotient of two counts. *)
Lemma single_cause_rounding :
  eventTypeSize tied_deaths = 1%nat
  /\ time_sorted tied_deaths
  /\ eventTime_increasing tied_deaths
  /\ eventTime_observed tied_deaths
  /\ deaths_on_grid tied_deaths
  /\ causes_in_range tied_deaths
  /\ Prim2SF (getCustomSplitStatisticSurvival tied_deaths)
     = S754_finite false 7354347395230781 (-53)
  /\ option_map Prim2SF (getCustomSplitStatisticCompetingRisk tied_deaths)
     = Some (S754_finite false 7354347395230789 (-53))
  /\ getCustomSplitStatisticCompetingRisk tied_deaths
     <> Some (getCustomSplitStatisticSurvival tied_deaths).
Proof.
  split; [reflexivity|].
  split; [apply time_sortedb_ok; vm_compute; reflexivity|].
  split; [apply eventTime_increasingb_ok; vm_compute; reflexivity|].
  split; [apply eventTime_observedb_ok; vm_compute; reflexivity|].
  split; [apply deaths_on_gridb_ok; vm_compute; reflexivity|].
  split; [apply causes_in_rangeb_ok; vm_compute; reflexivity|].
  split; [vm_compute; reflexivity|].
  split; [vm_compute; reflexivity|].
  intros H. apply (f_equal (option_map Prim2SF)) in H.
  vm_compute in H. discriminate H.
Qed.

Lemma two_observations_causes : causes_in_range two_observations.
Proof.
  intros i Hi. unfold cause_of.
  assert (i = 1 \/ i = 2)%nat as [-> | ->]
    by (cbn [n two_observations logrank_node] in Hi; lia).
  - intros _.
    cbn [event two_observations logrank_node dget get1 nth to_uint real_ops
         eventTypeSize].
    replace (Exact.Rtrunc 1) with 1%Z.
    + vm_compute. discriminate.
    + unfold Exact.Rtrunc. destruct (Rle_dec 0 1) as [_|N]; [|exfalso; lra].
      apply Int_part_spec. simpl. lra.
  - cbn [event two_observations logrank_node dget get1 nth dltb real_ops].
    unfold d0. cbn [of_uint real_ops]. unfold Exact.Rltb.
    destruct (Rlt_dec 0 0) as [N|_]; [exfalso; lra | discriminate].
Qed.

(** C2, amended: with one cause, fewer than 65536 observations and every
    event labelled with the cause 1, the competing-risk rule computed in
    exact arithmetic returns the value of the survival rule. *)
Theorem single_cause_exact_arithmetic (a : Node R) :
  eventTypeSize a = 1%nat ->
  (Z.of_nat (n a) < 65536)%Z ->
  causes_in_range a ->
  getCustomSplitStatisticCompetingRisk a
  = Some (getCustomSplitStatisticSurvival a).
Proof.
  intros H1 Hsmall Hc.
  assert (n_fits a) as Hn by (unfold n_fits, modulus; lia).
  destruct (competing_risk_counts_spec Hn Hc) as (c & Ec & Sc).
  unfold getCustomSplitStatisticCompetingRisk, getCustomSplitStatisticSurvival.
  rewrite Ec. unfold logrankCR, logrank. rewrite H1. simpl seq.
  rewrite logrank_fold. cbn [fold_left cr_cause].
  f_equal. f_equal.
  - unfold d0. cbn [of_uint dadd real_ops]. rewrite Rplus_0_l.
    apply fold_left_ext_in. intros y k Hk. apply in_seq in Hk.
    destruct (@single_cause_counts _ _ a H1 c k Sc ltac:(lia))
      as (E1 & E2 & E3 & E4 & E5).
    destruct (@survival_counts_bound _ _ a Hn k ltac:(lia)) as (B1 & B2).
    unfold cr_num, logrank_num. rewrite E1, E2, E3, E4.
    rewrite u32_small by (unfold modulus; nia).
    cbn [of_uint dadd dsub dmul ddiv real_ops].
    rewrite mult_IZR. unfold Rdiv. ring.
  - unfold d0. cbn [of_uint dadd real_ops]. rewrite Rplus_0_l.
    apply fold_left_ext_in. intros y k Hk. apply in_seq in Hk.
    destruct (@single_cause_counts _ _ a H1 c k Sc ltac:(lia))
      as (E1 & E2 & E3 & E4 & E5).
    rewrite E5. destruct (2 <=? _)%Z; [|reflexivity].
    unfold cr_den, logrank_den, d1. rewrite E1, E3, E4.
    cbn [of_uint dadd dsub dmul ddiv real_ops].
    unfold Rdiv. ring.
Qed.

Lemma single_cause_exact_arithmetic_witness :
  eventTypeSize two_observations = 1%nat
  /\ (Z.of_nat (n two_observations) < 65536)%Z
  /\ causes_in_range two_observations
  /\ getCustomSplitStatisticCompetingRisk two_observations
     = Some (getCustomSplitStatisticSurvival two_observations).
Proof.
  split; [reflexivity|]. split; [simpl; lia|].
  split; [exact two_observations_causes|].
  apply (@single_cause_exact_arithmetic two_observations).
  - reflexivity.
  - simpl; lia.
  - exact two_observations_causes.
Defined.

Lemma two_causes_in_range : causes_in_range two_causes.
Proof. apply causes_in_rangeb_ok. vm_compute. reflexivity. Qed.

(** C3: once the competing-risk rule has made the at-risk counts a step
    function, the inclusive at-risk count of the cause j at the time k is the
    at-risk count at k plus the events of the other causes at the times
    before k, for the parent and for the left daughter. *)
Theorem inclusive_at_risk_sums {D : Type} {ops : DoubleOps D} (a : Node D) :
  n_fits a -> causes_in_range a ->
  exists c, competing_risk_counts a = Some c /\
    forall j k,
      (1 <= j <= eventTypeSize a)%nat -> (1 <= k <= eventTimeSize a)%nat ->
      UIMatrix.get (nodeParentInclusiveAtRisk c) j k
      = (get (nodeParentAtRisk (vectors c)) k
         + sum_over
             (fun s =>
                sum_over
                  (fun r => if Nat.eqb j r then 0
                            else UIMatrix.get (nodeParentEventCR c) r s)
                  (seq 1 (eventTypeSize a)))
             (seq 1 (k - 1)))%Z
      /\ UIMatrix.get (nodeLeftInclusiveAtRisk c) j k
      = (get (nodeLeftAtRisk (vectors c)) k
         + sum_over
             (fun s =>
                sum_over
                  (fun r => if Nat.eqb j r then 0
                            else UIMatrix.get (nodeLeftEventCR c) r s)
                  (seq 1 (eventTypeSize a)))
             (seq 1 (k - 1)))%Z.
Proof.
  intros Hn Hc.
  destruct (competing_risk_counts_spec Hn Hc) as (c & Ec & Sc).
  exists c. split; [exact Ec|]. intros j k Hj Hk. split.
  - exact (crs_pi Sc Hj Hk).
  - exact (crs_li Sc Hj Hk).
Qed.

Lemma inclusive_at_risk_sums_witness :
  n_fits two_causes /\ causes_in_range two_causes
  /\ exists c, competing_risk_counts two_causes = Some c.
Proof.
  split; [vm_compute; reflexivity|].
  split; [exact two_causes_in_range|].
  destruct (@inclusive_at_risk_sums float float_ops two_causes)
    as (c & Ec & _).
  - vm_compute; reflexivity.
  - exact two_causes_in_range.
  - exists c. exact Ec.
Defined.

(** C4: both log-rank rules end on the same guard.  With num the absolute
    value of the summed numerator and den the square root of the summed
    denominator, the result is exactly 0 when den <= 1e-9 and num <= 1e-9,
    and num / den in every other case. *)
Theorem zero_guard_rule {D : Type} {ops : DoubleOps D} (a : Node D) :
  (forall deltaNum deltaDen : D,
     zero_guard deltaNum deltaDen
     = guarded_ratio (dfabs deltaNum) (dsqrt deltaDen))
  /\ getCustomSplitStatisticSurvival a
     = (let '(deltaNum, deltaDen) := logrank a (survival_counts a) in
        guarded_ratio (dfabs deltaNum) (dsqrt deltaDen))
  /\ getCustomSplitStatisticCompetingRisk a
     = option_map
         (fun c => let '(deltaNum, deltaDen) := logrankCR a c in
                   guarded_ratio (dfabs deltaNum) (dsqrt deltaDen))
         (competing_risk_counts a).
Proof.
  assert (forall deltaNum deltaDen : D,
            zero_guard deltaNum deltaDen
            = guarded_ratio (dfabs deltaNum) (dsqrt deltaDen)) as G.
  { intros num den. unfold zero_guard, guarded_ratio.
    destruct (dleb (dsqrt den) d1em9); [|reflexivity].
    destruct (dleb (dfabs num) d1em9); reflexivity. }
  split; [exact G|]. split.
  - unfold getCustomSplitStatisticSurvival.
    destruct (logrank a (survival_counts a)) as [num den]. apply G.
  - unfold getCustomSplitStatisticCompetingRisk.
    destruct (competing_risk_counts a) as [c|]; [|reflexivity].
    cbn [option_map]. destruct (logrankCR a c) as [num den].
    f_equal. apply G.
Qed.

(** C5: after the sweep and the suffix sums of the survival rule the parent
    at-risk counts do not increase from one event time to the next, and at
    every event time the left at-risk count lies between 0 and the parent
    at-risk count. *)
Theorem at_risk_step_function {D : Type} {ops : DoubleOps D} (a : Node D) :
  n_fits a ->
  (forall k, (1 <= k < eventTimeSize a)%nat ->
     (get (nodeParentAtRisk (survival_counts a)) (S k)
      <= get (nodeParentAtRisk (survival_counts a)) k)%Z)
  /\ (forall k, (1 <= k <= eventTimeSize a)%nat ->
     (0 <= get (nodeLeftAtRisk (survival_counts a)) k
        <= get (nodeParentAtRisk (survival_counts a)) k)%Z).
Proof.
  intros Hn. destruct (raw_ok Hn) as [Hok _]. split.
  - intros k Hk. rewrite !(survival_pa Hn) by lia.
    apply suffix_antitone; [exact (ok_pa Hok) | lia].
  - intros k Hk. rewrite (survival_pa Hn), (survival_la Hn) by lia.
    apply (suffix_la_bound Hok).
Qed.

Lemma at_risk_step_function_witness :
  n_fits four_observations
  /\ (get (nodeParentAtRisk (survival_counts four_observations)) 2
      <= get (nodeParentAtRisk (survival_counts four_observations)) 1)%Z.
Proof.
  split; [vm_compute; reflexivity|].
  apply (@at_risk_step_function float float_ops four_observations).
  - vm_compute; reflexivity.
  - simpl; lia.
Defined.

Local Open Scope Z_scope.

Lemma large_separated_fits : n_fits large_separated.
Proof.
  unfold n_fits, large_separated, modulus. cbn [n separated_node].
  rewrite Nat2Z.inj_add, Z2Nat.id by lia. simpl. lia.
Qed.

(** C6, the input that refutes it: 100000001 observations of class 1 on the
    left and one observation of class 2 on the right.  The square of the left
    count is not a double, and the quotient of its rounding by the count is
    not the count. *)
Lemma separated_rounding :
  perfectly_separated large_separated
  /\ maxLevel large_separated = 2%nat
  /\ leftSize large_separated = 100000001
  /\ rghtSize large_separated = 1
  /\ getCustomSplitStatisticMultivariateClassification large_separated
     <> Some (IEEE.float_of_uint
                (leftSize large_separated + rghtSize large_separated)).
Proof.
  pose proof (separated_node_separated (Z.to_nat 100000001) 1) as Hsep.
  destruct (separated_sizes (Z.to_nat 100000001) 1) as [Hl Hr].
  fold large_separated in Hsep, Hl, Hr.
  rewrite Z2Nat.id in Hl by lia. change (Z.of_nat 1) with 1 in Hr.
  split; [exact Hsep|]. split; [reflexivity|].
  split; [exact Hl|]. split; [exact Hr|].
  rewrite (@separated_statistic large_separated large_separated_fits Hsep
             (Nat.le_refl 2)).
  rewrite Hl, Hr. intros H.
  apply (f_equal (option_map Prim2SF)) in H. vm_compute in H. discriminate H.
Qed.

(** The refutation does not rest on the rounding of [pow]: the square of
    100000001 lies midway between two doubles, and neither of them divided
    by 100000001 gives 100000001. *)
Lemma separated_rounding_any_square (sq : float) :
  sq = 10000000200000000%float \/ sq = 10000000200000002%float ->
  (sq / IEEE.float_of_uint 100000001
   + 1 * 1 / IEEE.float_of_uint 1)%float
  <> IEEE.float_of_uint (100000001 + 1).
Proof.
  intros [-> | ->] H; apply (f_equal Prim2SF) in H; vm_compute in H;
    discriminate H.
Qed.

(** C6, amended: on a node whose observations of class 1 are all on the left
    and whose observations of class 2 are all on the right, with both
    daughters non-empty and the squares of their sizes below 2^53, the
    classification rule returns the double leftSize + rghtSize; and for
    every node the sum of the squares of the class counts of a daughter is
    at most the square of its size, so that no partition scores more. *)
Theorem separated_classification (a : Node float) :
  n_fits a -> perfectly_separated a -> (2 <= maxLevel a)%nat ->
  1 <= leftSize a -> 1 <= rghtSize a ->
  leftSize a * leftSize a < 2 ^ 53 -> rghtSize a * rghtSize a < 2 ^ 53 ->
  getCustomSplitStatisticMultivariateClassification a
  = Some (IEEE.float_of_uint (leftSize a + rghtSize a))
  /\ forall (b : Node float) lc rc ls rs,
       n_fits b -> classification_counts b = Some (lc, rc, ls, rs) ->
       sum_sq b lc <= ls * ls /\ sum_sq b rc <= rs * rs.
Proof.
  intros Hn Hsep Hmax Hl Hr Bl Br. split.
  - exact (separated_exact Hn Hsep Hmax Hl Hr Bl Br).
  - intros b lc rc ls rs Hb E. exact (tally_squares Hb E).
Qed.

Lemma separated_classification_witness :
  n_fits (separated_node 2 2)
  /\ perfectly_separated (separated_node 2 2)
  /\ (2 <= maxLevel (separated_node 2 2))%nat
  /\ leftSize (separated_node 2 2) = 2
  /\ rghtSize (separated_node 2 2) = 2
  /\ getCustomSplitStatisticMultivariateClassification (separated_node 2 2)
     = Some 4%float.
Proof.
  split; [vm_compute; reflexivity|].
  split; [exact (separated_node_separated 2 2)|].
  split; [simpl; lia|].
  split; [reflexivity|]. split; [reflexivity|].
  apply (@separated_classification (separated_node 2 2)).
  - vm_compute; reflexivity.
  - exact (separated_node_separated 2 2).
  - simpl; lia.
  - vm_compute; discriminate.
  - vm_compute; discriminate.
  - vm_compute; reflexivity.
  - vm_compute; reflexivity.
Defined.

Lemma all_at_meanb_ok {D : Type} {ops : DoubleOps D} (a : Node D) :
  all_at_meanb a = true -> all_at_mean a.
Proof.
  unfold all_at_meanb, all_at_mean. intros H i Hi.
  rewrite forallb_forall in H. apply H, in_seq. lia.
Qed.

Lemma ltb_zero_asym v :
  PrimFloat.ltb 0 v = true -> PrimFloat.ltb v 0 = false.
Proof.
  rewrite !ltb_spec. change (Prim2SF 0) with (S754_zero false).
  destruct (Prim2SF v) as [s|s| |s m e]; try destruct s;
    (discriminate || reflexivity).
Qed.

(** C7: on a node with both daughters non-empty whose responses all equal
    the mean, with a variance that is a real number other than 0, the
    regression rule has summed the deviations 0 and 0 over the daughters and
    returns zero: the double 0 when the variance is positive (the zero of the
    other sign when it is negative), the value of
    sumLeft^2 / (leftSize * variance) + sumRght^2 / (rghtSize * variance). *)
Theorem regression_all_at_mean (a : Node float) :
  n_fits a -> all_at_mean a -> finite_double (mean a) ->
  nonzero_double (variance a) ->
  1 <= leftSize a -> 1 <= rghtSize a ->
  regression_sums a = (0%float, 0%float, leftSize a, rghtSize a)
  /\ getCustomSplitStatisticMultivariateRegression a
     = (0 * 0 / (IEEE.float_of_uint (leftSize a) * variance a)
        + 0 * 0 / (IEEE.float_of_uint (rghtSize a) * variance a))%float
  /\ PrimFloat.eqb (getCustomSplitStatisticMultivariateRegression a) 0 = true
  /\ (PrimFloat.ltb 0 (variance a) = true ->
      getCustomSplitStatisticMultivariateRegression a = 0%float).
Proof.
  intros Hn Hm Hf Hv Hl Hr.
  pose proof (regression_sums_at_mean Hm Hf Hn) as Es.
  pose proof (regression_at_mean Hm Hf Hn Hv Hl Hr) as Er.
  split; [exact Es|]. split.
  - unfold getCustomSplitStatisticMultivariateRegression. rewrite Es.
    reflexivity.
  - rewrite Er. split.
    + destruct (PrimFloat.ltb (variance a) 0); reflexivity.
    + intros Hp. now rewrite (ltb_zero_asym Hp).
Qed.

Lemma regression_all_at_mean_witness :
  n_fits constant_responses
  /\ all_at_mean constant_responses
  /\ finite_double (mean constant_responses)
  /\ nonzero_double (variance constant_responses)
  /\ leftSize constant_responses = 2
  /\ rghtSize constant_responses = 2
  /\ getCustomSplitStatisticMultivariateRegression constant_responses
     = 0%float.
Proof.
  assert (all_at_mean constant_responses) as Hm
    by (apply all_at_meanb_ok; vm_compute; reflexivity).
  split; [vm_compute; reflexivity|].
  split; [exact Hm|].
  split; [vm_compute; reflexivity|].
  split; [split; [vm_compute; reflexivity | left; vm_compute; reflexivity]|].
  split; [reflexivity|]. split; [reflexivity|].
  apply (@regression_all_at_mean constant_responses).
  - vm_compute; reflexivity.
  - exact Hm.
  - vm_compute; reflexivity.
  - split; [vm_compute; reflexivity | left; vm_compute; reflexivity].
  - vm_compute; discriminate.
  - vm_compute; discriminate.
  - vm_compute; reflexivity.
Defined.

(** C8: when dimX <= 0, or dimY <= 0, or a daughter has at most dimX + dimY
    observations, the canonical-correlation rule returns 0 and calls no
    routine of the linear-algebra backend, whatever the backend is. *)
Theorem cca_guard {D : Type} {ops : DoubleOps D} (backend : Lapack D)
    (a : Node D) (dimX dimY : Z) :
  cca_dims a = Some (dimX, dimY) ->
  dimX <= 0 \/ dimY <= 0
  \/ (Z.of_nat (n a) < 2 ^ 31 /\ dimX + dimY < 2 ^ 31
      /\ (leftSize a <= dimX + dimY \/ rghtSize a <= dimX + dimY)) ->
  ccaSplitAbsoluteDifference backend a = Some (of_uint 0, []).
Proof.
  intros Hd [Hx | [Hy | (Hn & Hs & Hg)]].
  - apply (cca_nonpositive backend a Hd). now left.
  - apply (cca_nonpositive backend a Hd). now right.
  - apply (cca_guarded backend a Hd Hn Hs). tauto.
Qed.

Lemma cca_guard_witness :
  cca_dims cca_four = Some (1, 1)
  /\ leftSize cca_four = 2 /\ rghtSize cca_four = 2
  /\ ccaSplitAbsoluteDifference null_backend cca_four = Some (0%float, []).
Proof.
  split; [reflexivity|]. split; [reflexivity|]. split; [reflexivity|].
  apply (@cca_guard float float_ops null_backend cca_four 1 1).
  - reflexivity.
  - right; right. split; [simpl; lia|]. split; [lia|].
    left. vm_compute; discriminate.
Defined.

(** C9: dimX is the entry of the first observation in the last feature
    column, the column featureCount, converted to an integer, and dimY is
    featureCount - dimX - 1; past the guards the result is computed, for
    each daughter, from the X block of the columns 1 .. dimX and the Y block
    of the columns dimX + 1 .. dimX + dimY of its observations. *)
Theorem cca_blocks {D : Type} {ops : DoubleOps D} (backend : Lapack D)
    (a : Node D) (dimX dimY : Z) :
  cca_dims a = Some (dimX, dimY) ->
  (exists x, feature_at a (featureCount a) 1 = Some x /\ to_int x = Some dimX)
  /\ dimY = to_int32 (Z.of_nat (featureCount a) - dimX - 1)
  /\ (- 2 ^ 31 <= Z.of_nat (featureCount a) - dimX - 1 < 2 ^ 31 ->
      dimY = Z.of_nat (featureCount a) - dimX - 1)
  /\ (0 < dimX -> 0 < dimY ->
      Z.of_nat (n a) < 2 ^ 31 -> dimX + dimY < 2 ^ 31 ->
      dimX + dimY < leftSize a -> dimX + dimY < rghtSize a ->
      leftSize a * rghtSize a < 2 ^ 31 ->
      ccaSplitAbsoluteDifference backend a
      = Some (dmul (dsqrt (of_uint (leftSize a * rghtSize a)))
                (dfabs
                   (dsub
                      (cca_daughter backend
                         (map (columns a 1 dimX) (daughter a true))
                         (map (columns a (dimX + 1) (dimX + dimY))
                            (daughter a true))
                         (leftSize a) dimX dimY)
                      (cca_daughter backend
                         (map (columns a 1 dimX) (daughter a false))
                         (map (columns a (dimX + 1) (dimX + dimY))
                            (daughter a false))
                         (rghtSize a) dimX dimY))),
              cca_trace ++ cca_trace)).
Proof.
  intros Hd. destruct (cca_dims_spec a Hd) as (x & Ex & Ez & Ey).
  split; [exists x; split; assumption|]. split; [exact Ey|]. split.
  - intros Hr. rewrite Ey. now apply to_int32_exact.
  - intros. now apply cca_unguarded_value.
Qed.

Lemma cca_blocks_witness :
  cca_dims cca_six = Some (1, 1)
  /\ exists x, feature_at cca_six (featureCount cca_six) 1 = Some x
               /\ to_int x = Some 1.
Proof.
  split; [reflexivity|].
  apply (@cca_blocks float float_ops null_backend cca_six 1 1).
  reflexivity.
Defined.

Lemma of_uint_nonzero z :
  (1 <= z < 2 ^ 53)%Z -> PrimFloat.eqb (IEEE.float_of_uint z) 0 = false.
Proof.
  intros Hz. rewrite eqb_spec, Doubles.Prim2SF_of_uint by lia.
  destruct z as [|p|p]; try lia. reflexivity.
Qed.

(** C10: when the observations are sorted by time and every event time is
    the time of an observation that had an event, every parent at-risk count
    of the survival rule is at least 1, so the double the numerator divides
    by is not zero; in the competing-risk rule every inclusive parent at-risk
    count is at least the parent at-risk count, which is at least 1, so its
    divisors are not zero either. *)
Theorem at_risk_divisors_positive (a : Node float) :
  n_fits a -> time_sorted a -> eventTime_observed a ->
  (forall k, (1 <= k <= eventTimeSize a)%nat ->
     (1 <= get (nodeParentAtRisk (survival_counts a)) k)%Z
     /\ PrimFloat.eqb
          (of_uint (get (nodeParentAtRisk (survival_counts a)) k)) 0 = false)
  /\ (causes_in_range a ->
      exists c, competing_risk_counts a = Some c /\
        forall j k,
          (1 <= j <= eventTypeSize a)%nat -> (1 <= k <= eventTimeSize a)%nat ->
          (1 <= get (nodeParentAtRisk (vectors c)) k
             <= UIMatrix.get (nodeParentInclusiveAtRisk c) j k)%Z
          /\ PrimFloat.eqb
               (of_uint (UIMatrix.get (nodeParentInclusiveAtRisk c) j k)) 0
             = false).
Proof.
  intros Hn Hs Ho.
  assert (forall k, (1 <= k <= eventTimeSize a)%nat ->
            (1 <= get (nodeParentAtRisk (survival_counts a)) k)%Z) as Hpos.
  { intros k Hk. apply (survival_at_risk_pos Hn Hk).
    destruct (Ho k Hk) as (i0 & Hi0 & Hd). exists i0. split; [exact Hi0|].
    apply (@observed_still_at_risk a k i0 Hs); [lia | exact Hd]. }
  split.
  - intros k Hk. split; [exact (Hpos k Hk)|].
    apply of_uint_nonzero. pose proof (Hpos k Hk).
    destruct (stepped_range Hn k) as [_ Hlt]. unfold modulus in Hlt. lia.
  - intros Hc.
    destruct (competing_risk_counts_spec Hn Hc) as (c & Ec & Sc).
    exists c. split; [exact Ec|]. intros j k Hj Hk.
    pose proof (Hpos k Hk) as Hp. rewrite <- (crs_pa Sc) in Hp.
    pose proof (crs_pi Sc Hj Hk) as Hpi.
    pose proof (crs_pi_fits Sc Hj Hk) as Hfit.
    assert (cells_nonneg (nodeParentEventCR c)) as Hnn.
    { intros r s. pose proof (crs_cell Sc r s). lia. }
    pose proof (@other_events_nonneg _ a (nodeParentEventCR c) j k Hnn).
    split; [lia|].
    apply of_uint_nonzero. unfold modulus in Hfit. lia.
Qed.

Lemma at_risk_divisors_positive_witness :
  n_fits two_causes /\ time_sorted two_causes /\ eventTime_observed two_causes
  /\ (1 <= get (nodeParentAtRisk (survival_counts two_causes)) 3)%Z.
Proof.
  assert (n_fits two_causes) as Hn by (vm_compute; reflexivity).
  assert (time_sorted two_causes) as Hs
    by (apply time_sortedb_ok; vm_compute; reflexivity).
  assert (eventTime_observed two_causes) as Ho
    by (apply eventTime_observedb_ok; vm_compute; reflexivity).
  split; [exact Hn|]. split; [exact Hs|]. split; [exact Ho|].
  apply (at_risk_divisors_positive Hn Hs Ho). simpl; lia.
Defined.

(** * The order of IEEE doubles *)

Module DoubleOrder.

Import OrderKey.
Local Open Scope Z_scope.

Lemma SFcompare_lex x y :
SFcompare x y = if is_nan x || is_nan y then None else Some (lex x y).
Proof.
destruct x as [sx|sx| |sx mx ex], y as [sy|sy| |sy my ey];
  try destruct sx; try destruct sy; try reflexivity;
  unfold lex; cbn [SFcompare is_nan orb k1 k2 k3 Z.compare];
  f_equal.
cbn [CompOpp Pos.compare Pos.compare_cont].
rewrite Z.compare_opp, (Z.compare_antisym ex ey).
destruct (ex ?= ey); reflexivity.
Qed.

Lemma lex_spec x y :
match lex x y with
| Lt => lt3 x y
| Eq => eq3 x y
| Gt => lt3 y x
end.
Proof.
unfold lex, lt3, eq3.
destruct (Z.compare_spec (k1 x) (k1 y)); try lia.
destruct (Z.compare_spec (k2 x) (k2 y)); try lia.
destruct (Z.compare_spec (k3 x) (k3 y)); lia.
Qed.

Lemma leb_iff x y :
PrimFloat.leb x y = true
<-> is_nan (Prim2SF x) = false /\ is_nan (Prim2SF y) = false
    /\ le3 (Prim2SF x) (Prim2SF y).
Proof.
rewrite leb_spec. unfold SFleb. rewrite SFcompare_lex.
pose proof (lex_spec (Prim2SF x) (Prim2SF y)) as H.
destruct (is_nan (Prim2SF x)); [cbn; intuition discriminate|].
destruct (is_nan (Prim2SF y)); [cbn; intuition discriminate|].
cbn [orb]. unfold le3, lt3, eq3 in *.
destruct (lex (Prim2SF x) (Prim2SF y)); split; intros; try discriminate;
  try (repeat split; try reflexivity; lia); try reflexivity; lia.
Qed.

Lemma ltb_iff x y :
PrimFloat.ltb x y = true
<-> is_nan (Prim2SF x) = false /\ is_nan (Prim2SF y) = false
    /\ lt3 (Prim2SF x) (Prim2SF y).
Proof.
rewrite ltb_spec. unfold SFltb. rewrite SFcompare_lex.
pose proof (lex_spec (Prim2SF x) (Prim2SF y)) as H.
destruct (is_nan (Prim2SF x)); [cbn; intuition discriminate|].
destruct (is_nan (Prim2SF y)); [cbn; intuition discriminate|].
cbn [orb]. unfold le3, lt3, eq3 in *.
destruct (lex (Prim2SF x) (Prim2SF y)); split; intros; try discriminate;
  try (repeat split; try reflexivity; lia); try reflexivity; lia.
Qed.

Lemma eqb_iff x y :
PrimFloat.eqb x y = true
<-> is_nan (Prim2SF x) = false /\ is_nan (Prim2SF y) = false
    /\ eq3 (Prim2SF x) (Prim2SF y).
Proof.
rewrite eqb_spec. unfold SFeqb. rewrite SFcompare_lex.
pose proof (lex_spec (Prim2SF x) (Prim2SF y)) as H.
destruct (is_nan (Prim2SF x)); [cbn; intuition discriminate|].
destruct (is_nan (Prim2SF y)); [cbn; intuition discriminate|].
cbn [orb]. unfold le3, lt3, eq3 in *.
destruct (lex (Prim2SF x) (Prim2SF y)); split; intros; try discriminate;
  try (repeat split; try reflexivity; lia); try reflexivity; lia.
Qed.

(** The goals about comparisons of doubles become linear arithmetic. *)
Ltac order :=
repeat match goal with
| H : PrimFloat.leb _ _ = true |- _ => apply leb_iff in H
| H : PrimFloat.ltb _ _ = true |- _ => apply ltb_iff in H
| H : PrimFloat.eqb _ _ = true |- _ => apply eqb_iff in H
| H : _ /\ _ |- _ => destruct H
end;
try match goal with
| |- PrimFloat.leb _ _ = true => apply leb_iff
| |- PrimFloat.ltb _ _ = true => apply ltb_iff
| |- PrimFloat.eqb _ _ = true => apply eqb_iff
end;
unfold le3, lt3, eq3 in *; repeat split; try assumption; try lia.

Lemma leb_trans x y z :
PrimFloat.leb x y = true -> PrimFloat.leb y z = true ->
PrimFloat.leb x z = true.
Proof. intros H1 H2. order. Qed.

Lemma ltb_leb_trans x y z :
PrimFloat.ltb x y = true -> PrimFloat.leb y z = true ->
PrimFloat.leb x z = true.
Proof. intros H1 H2. order. Qed.

Lemma eqb_leb x y : PrimFloat.eqb x y = true -> PrimFloat.leb x y = true.
Proof. intros H. order. Qed.

Lemma eqb_ltb_not_leb x y z :
PrimFloat.eqb x y = true -> PrimFloat.ltb x z = true ->
PrimFloat.leb z y = false.
Proof.
intros H1 H2. destruct (PrimFloat.leb z y) eqn:E; [|reflexivity].
exfalso. order.
Qed.

Lemma leb_total x y :
is_nan (Prim2SF x) = false -> is_nan (Prim2SF y) = false ->
PrimFloat.leb x y = true \/ PrimFloat.ltb y x = true.
Proof.
intros Hx Hy. rewrite leb_iff, ltb_iff. unfold le3, lt3.
assert ((k1 (Prim2SF x) < k1 (Prim2SF y)
         \/ (k1 (Prim2SF x) = k1 (Prim2SF y)
             /\ (k2 (Prim2SF x) < k2 (Prim2SF y)
                 \/ (k2 (Prim2SF x) = k2 (Prim2SF y)
                     /\ k3 (Prim2SF x) <= k3 (Prim2SF y)))))
        \/ (k1 (Prim2SF y) < k1 (Prim2SF x)
            \/ (k1 (Prim2SF y) = k1 (Prim2SF x)
                /\ (k2 (Prim2SF y) < k2 (Prim2SF x)
                    \/ (k2 (Prim2SF y) = k2 (Prim2SF x)
                        /\ k3 (Prim2SF y) < k3 (Prim2SF x)))))) as [H|H]
  by lia; [left | right]; repeat split; assumption.
Qed.

End DoubleOrder.

(** * What the sweep counts *)

Section Counting.

Local Open Scope Z_scope.

Lemma count_nil f : count f [] = 0.
Proof. reflexivity. Qed.

Lemma count_cons f x l : count f (x :: l) = b2z (f x) + count f l.
Proof. unfold count. simpl. destruct (f x); simpl length; unfold b2z; lia. Qed.

Lemma count_snoc f l x : count f (l ++ [x]) = count f l + b2z (f x).
Proof.
  unfold count. rewrite filter_app, length_app. simpl.
  destruct (f x); simpl length; unfold b2z; lia.
Qed.

Lemma count_sum f l : count f l = sum_over (fun j => b2z (f j)) l.
Proof.
  induction l as [|x l IH]; [reflexivity|].
  now rewrite count_cons, sum_over_cons, IH.
Qed.

Lemma count_ext f g l :
  (forall x, In x l -> f x = g x) -> count f l = count g l.
Proof.
  intros H. rewrite !count_sum. apply sum_over_ext.
  intros x Hx. now rewrite H.
Qed.

Lemma count_false f l : (forall x, In x l -> f x = false) -> count f l = 0.
Proof.
  intros H. rewrite count_sum. apply sum_over_zero.
  intros x Hx. now rewrite H.
Qed.

Lemma count_range f l : 0 <= count f l <= Z.of_nat (length l).
Proof.
  unfold count. pose proof (filter_length_le f l). lia.
Qed.

Lemma sum_over_swap (f : nat -> nat -> Z) l1 l2 :
  sum_over (fun m => sum_over (f m) l2) l1
  = sum_over (fun j => sum_over (fun m => f m j) l1) l2.
Proof.
  induction l1 as [|m l1 IH].
  - symmetry. apply sum_over_zero. reflexivity.
  - rewrite sum_over_cons, IH. clear IH.
    induction l2 as [|j l2 IH2]; [reflexivity|].
    rewrite !sum_over_cons, <- IH2. lia.
Qed.

End Counting.

Section SweepExact.

Context {D : Type} {ops : DoubleOps D}.
Variable a : Node D.
Local Open Scope Z_scope.

Local Abbreviation ets := (eventTimeSize a).
Local Abbreviation R := (still_at_risk a).

(** The observations at risk at an event time are a final segment of the
    observations, and the event times at which an observation is at risk
    an initial segment of the event times. *)
Hypothesis Hmono : forall j j' m,
  (1 <= j <= j')%nat -> (j' <= n a)%nat -> (1 <= m <= ets)%nat ->
  R j m = true -> R j' m = true.
Hypothesis Hanti : forall j m m',
  (1 <= j <= n a)%nat -> (1 <= m <= m')%nat -> (m' <= ets)%nat ->
  R j m' = true -> R j m = true.

(** One of the four vectors, with the condition under which the sweep
    increments its cell. *)
Variable proj : counts -> UIVector.t.
Variable ind : nat -> nat -> bool.
Hypothesis Hproj : forall i k c,
  proj (at_risk a i k c) = if ind i k then incr (proj c) k else proj c.

Lemma sweep_tally k i c m :
  (k <= ets)%nat -> (i <= n a)%nat ->
  (forall j m', (1 <= j <= i)%nat -> (k < m' <= ets)%nat -> R j m' = false) ->
  (1 <= m <= ets)%nat -> length (proj c) = S ets ->
  0 <= get (proj c) m -> get (proj c) m + Z.of_nat i < modulus ->
  get (proj (sweep a k i c)) m
  = get (proj c) m + count (fun j => lands a j m && ind j m) (seq 1 i).
Proof.
  revert i c. induction k as [|k IHk]; intros i c Hk Hi Hinv Hm Hlen H0 Hb.
  - simpl. rewrite count_false; [lia|].
    intros j Hj. apply in_seq in Hj. unfold lands.
    rewrite (Hinv j m) by lia. reflexivity.
  - revert c Hlen H0 Hb Hinv.
    induction i as [|i IHi]; intros c Hlen H0 Hb Hinv.
    + rewrite sweep_0_r. simpl seq. rewrite count_nil. lia.
    + rewrite sweep_S_S. rewrite seq_S, count_snoc. cbn [Nat.add].
      destruct (R (S i) (S k)) eqn:E.
      * assert (get (proj (at_risk a (S i) (S k) c)) m
                = get (proj c) m + b2z (lands a (S i) m && ind (S i) m)
                /\ length (proj (at_risk a (S i) (S k) c)) = S ets)
          as [Eg El].
        { rewrite Hproj. unfold lands.
          destruct (Nat.eq_dec m (S k)) as [->|Hne].
          - rewrite E. cbn [andb].
            assert ((S k =? ets)%nat || negb (R (S i) (S (S k))) = true)
              as ->.
            { destruct (Nat.eqb_spec (S k) ets); [reflexivity|].
              rewrite (Hinv (S i) (S (S k))) by lia. reflexivity. }
            destruct (ind (S i) (S k)); cbn [andb b2z].
            + rewrite get_incr_eq by lia. rewrite length_incr.
              split; [lia | assumption].
            + split; [lia | assumption].
          - assert (R (S i) m
                    && ((m =? ets)%nat || negb (R (S i) (S m))) = false)
              as ->.
            { destruct (Nat.lt_ge_cases (S k) m) as [Hgt|Hle].
              - rewrite (Hinv (S i) m) by lia. reflexivity.
              - destruct (Nat.eqb_spec m ets); [lia|].
                rewrite (@Hanti (S i) (S m) (S k)) by (assumption || lia).
                cbn [negb orb]. apply andb_false_r. }
            cbn [andb b2z].
            destruct (ind (S i) (S k)).
            + rewrite get_incr_neq by congruence. rewrite length_incr.
              split; [lia | assumption].
            + split; [lia | assumption]. }
        rewrite IHi; try assumption; try lia.
        -- pose proof (Eg). unfold b2z in *.
           destruct (lands a (S i) m && ind (S i) m); lia.
        -- unfold b2z in Eg.
           destruct (lands a (S i) m && ind (S i) m); lia.
        -- intros j m' Hj Hm'. apply Hinv; lia.
      * rewrite IHk; try assumption; try lia.
        -- rewrite seq_S, count_snoc. cbn [Nat.add]. reflexivity.
        -- intros j m' Hj Hm'.
           destruct (Nat.eq_dec m' (S k)) as [->|Hne].
           ++ destruct (R j (S k)) eqn:Ej; [|reflexivity].
              rewrite (@Hmono j (S i) (S k)) in E by (assumption || lia).
              discriminate.
           ++ apply Hinv; lia.
Qed.

Hypothesis Hreset : forall e, proj (reset_counts e) = alloc_uivector e.
Hypothesis Hn : n_fits a.

Local Abbreviation raw := (sweep a ets (n a) (reset_counts ets)).

(** The cells of the vector when the sweep ends. *)
Lemma raw_tally m :
  (1 <= m <= ets)%nat ->
  get (proj raw) m = count (fun j => lands a j m && ind j m) (seq 1 (n a)).
Proof.
  intros Hm. unfold n_fits in Hn.
  rewrite sweep_tally; try lia.
  - rewrite Hreset, get_alloc. lia.
  - rewrite Hreset. apply length_alloc.
  - rewrite Hreset, get_alloc. lia.
  - rewrite Hreset, get_alloc. lia.
Qed.

Lemma raw_length : length (proj raw) = S ets.
Proof.
  assert (forall k i c, length (proj c) = S ets ->
            length (proj (sweep a k i c)) = S ets) as H.
  { induction k as [|k IHk]; intros i c Hc; [exact Hc|].
    revert c Hc. induction i as [|i IHi]; intros c Hc.
    - now rewrite sweep_0_r.
    - rewrite sweep_S_S. destruct (R (S i) (S k)).
      + apply IHi. rewrite Hproj.
        destruct (ind (S i) (S k)); [now rewrite length_incr | exact Hc].
      + now apply IHk. }
  apply H. rewrite Hreset. apply length_alloc.
Qed.

(** Over the event times from [k] on, an observation lands once if it is at
    risk at [k], and never otherwise. *)
Lemma lands_sum j b d k :
  (1 <= j <= n a)%nat -> (1 <= k)%nat -> (k + d = ets)%nat ->
  sum_over (fun m => b2z (lands a j m && b)) (seq k (S d))
  = b2z (R j k && b).
Proof.
  intros Hj. revert k. induction d as [|d IH]; intros k Hk Hd.
  - simpl seq. rewrite sum_over_cons. unfold sum_over at 1. simpl.
    unfold lands. replace (k =? ets)%nat with true
      by (symmetry; apply Nat.eqb_eq; lia).
    cbn [orb]. rewrite andb_true_r. lia.
  - change (seq k (S (S d))) with (k :: seq (S k) (S d)).
    rewrite sum_over_cons, IH by lia.
    unfold lands. replace (k =? ets)%nat with false
      by (symmetry; apply Nat.eqb_neq; lia).
    cbn [orb]. destruct (R j (S k)) eqn:E.
    + rewrite (@Hanti j k (S k)) by (assumption || lia).
      destruct b; reflexivity.
    + destruct (R j k), b; reflexivity.
Qed.

(** The suffix sums of a vector whose increments do not depend on the
    event time. *)
Lemma raw_suffix g k :
  (forall j m, ind j m = g j) -> (1 <= k <= ets)%nat ->
  suffix (proj raw) k = count (fun j => R j k && g j) (seq 1 (n a)).
Proof.
  intros Hg Hk.
  pose proof (sum_over_get (proj raw) k (S ets - k)) as Hs.
  rewrite (@suffix_overflow (proj raw) (k + (S ets - k))%nat) in Hs
    by (rewrite raw_length; lia).
  rewrite Z.sub_0_r in Hs. rewrite <- Hs.
  rewrite (@sum_over_ext (get (proj raw))
             (fun m => sum_over (fun j => b2z (lands a j m && g j))
                         (seq 1 (n a)))).
  - rewrite sum_over_swap, count_sum. apply sum_over_ext.
    intros j Hj. apply in_seq in Hj.
    replace (S ets - k)%nat with (S (ets - k)) by lia.
    apply lands_sum; lia.
  - intros m Hm. apply in_seq in Hm.
    rewrite raw_tally by lia. rewrite count_sum.
    apply sum_over_ext. intros j _. now rewrite Hg.
Qed.

End SweepExact.

(** ** The order of the doubles gives the two segments *)

Section FloatSegments.

Variable a : Node float.
Hypothesis Hs : time_sorted a.
Hypothesis He : eventTime_increasing a.

Lemma sorted_mono j j' m :
  (1 <= j <= j')%nat -> (j' <= n a)%nat ->
  still_at_risk a j m = true -> still_at_risk a j' m = true.
Proof.
  unfold still_at_risk. intros Hj Hj' H.
  apply (DoubleOrder.leb_trans H). apply Hs; lia.
Qed.

Lemma increasing_anti j m m' :
  (1 <= m <= m')%nat -> (m' <= eventTimeSize a)%nat ->
  still_at_risk a j m' = true -> still_at_risk a j m = true.
Proof.
  unfold still_at_risk. intros Hm Hm' H.
  destruct (Nat.eq_dec m m') as [->|Hne]; [exact H|].
  apply (DoubleOrder.ltb_leb_trans (@He m m' ltac:(lia) ltac:(lia) Hm') H).
Qed.

Lemma died_lands j m :
  (1 <= m <= eventTimeSize a)%nat ->
  died a j m = true -> lands a j m = true.
Proof.
  intros Hm Hd. unfold died in Hd. apply andb_prop in Hd as [Hd _].
  assert (still_at_risk a j m = true) as E1
    by exact (DoubleOrder.eqb_leb Hd).
  unfold lands. rewrite E1. cbn [andb].
  destruct (Nat.eqb_spec m (eventTimeSize a)); [reflexivity|].
  assert (still_at_risk a j (S m) = false) as E2
    by exact (DoubleOrder.eqb_ltb_not_leb Hd
                (@He m (S m) ltac:(lia) ltac:(lia) ltac:(lia))).
  rewrite E2. reflexivity.
Qed.

End FloatSegments.

(** * Doubles that are not numbers *)

Module NaN.

Lemma add_l x y : Prim2SF x = S754_nan -> Prim2SF (x + y)%float = S754_nan.
Proof. intros H. rewrite add_spec, H. reflexivity. Qed.

Lemma add_r x y : Prim2SF y = S754_nan -> Prim2SF (x + y)%float = S754_nan.
Proof. intros H. rewrite add_spec, H. now destruct (Prim2SF x). Qed.

Lemma sub_r x y : Prim2SF y = S754_nan -> Prim2SF (x - y)%float = S754_nan.
Proof. intros H. rewrite sub_spec, H. now destruct (Prim2SF x). Qed.

Lemma div_l x y : Prim2SF x = S754_nan -> Prim2SF (x / y)%float = S754_nan.
Proof. intros H. rewrite div_spec, H. reflexivity. Qed.

Lemma abs_nan x : Prim2SF x = S754_nan -> Prim2SF (PrimFloat.abs x) = S754_nan.
Proof. intros H. rewrite abs_spec, H. reflexivity. Qed.

Lemma leb_l x y : Prim2SF x = S754_nan -> PrimFloat.leb x y = false.
Proof. intros H. rewrite leb_spec, H. reflexivity. Qed.

(** [0 / (0 * v)] is not a number, whatever [v] is. *)
Lemma zero_over_zero_times v :
Prim2SF (0 * 0 / (IEEE.float_of_uint 0 * v))%float = S754_nan.
Proof.
rewrite div_spec, (mul_spec (IEEE.float_of_uint 0) v).
change (Prim2SF (0 * 0)%float) with (S754_zero false).
change (Prim2SF (IEEE.float_of_uint 0)) with (S754_zero false).
destruct (Prim2SF v) as [s|s| |s m e]; reflexivity.
Qed.

(** The zero guard lets a numerator that is not a number through. *)
Lemma zero_guard_nan num den :
Prim2SF num = S754_nan -> Prim2SF (zero_guard num den) = S754_nan.
Proof.
intros H. unfold zero_guard.
change (dfabs num) with (PrimFloat.abs num).
pose proof (abs_nan _ H) as Ha.
change (dleb (PrimFloat.abs num) d1em9)
  with (PrimFloat.leb (PrimFloat.abs num) d1em9).
rewrite (leb_l _ _ Ha).
destruct (dleb (dsqrt den) d1em9); apply div_l, Ha.
Qed.

End NaN.

(** * Event times at which nobody is at risk *)

Section EmptyRiskSet.

Variable a : Node float.
Hypothesis Hn : n_fits a.
Local Open Scope Z_scope.

(** Where the parent at-risk count is 0 the other three counts are 0. *)
Lemma survival_zero_cell k :
  (1 <= k <= eventTimeSize a)%nat ->
  get (nodeParentAtRisk (survival_counts a)) k = 0 ->
  get (nodeLeftAtRisk (survival_counts a)) k = 0
  /\ get (nodeParentEvent (survival_counts a)) k = 0
  /\ get (nodeLeftEvent (survival_counts a)) k = 0.
Proof.
  intros Hk H0. destruct (raw_ok Hn) as [Hok _].
  destruct (stepped_range Hn k) as [Hla _].
  destruct (step_function_events (eventTimeSize a)
              (sweep a (eventTimeSize a) (n a)
                 (reset_counts (eventTimeSize a)))) as [Epe Ele].
  fold (survival_counts a) in Epe, Ele. rewrite Epe, Ele.
  pose proof H0 as H0'. rewrite (survival_pa Hn) in H0' by assumption.
  pose proof (@get_le_suffix _ k k (ok_pa Hok) (Nat.le_refl k)) as G.
  pose proof (ok_pe_pa Hok k). pose proof (ok_le_pe Hok k).
  pose proof (ok_le Hok k). pose proof (ok_pe Hok k).
  pose proof (ok_pa Hok k). lia.
Qed.

Lemma logrank_num_nan c k :
  get (nodeParentAtRisk c) k = 0 -> get (nodeLeftAtRisk c) k = 0 ->
  get (nodeParentEvent c) k = 0 -> get (nodeLeftEvent c) k = 0 ->
  Prim2SF (logrank_num c k) = S754_nan.
Proof.
  intros H1 H2 H3 H4. unfold logrank_num. rewrite H1, H2, H3, H4.
  reflexivity.
Qed.

Lemma logrank_fold_nan c l num den :
  Prim2SF num = S754_nan
  \/ (exists k, In k l /\ Prim2SF (logrank_num c k) = S754_nan) ->
  Prim2SF (fst (fold_left (logrank_step c) l (num, den))) = S754_nan.
Proof.
  revert num den. induction l as [|k l IH]; intros num den H.
  - destruct H as [H | (k & [] & _)]. exact H.
  - cbn [fold_left]. unfold logrank_step at 2. apply IH.
    destruct H as [H | (k' & [<- | Hin] & Hk)].
    + left. now apply NaN.add_l.
    + left. now apply NaN.add_r.
    + right. exists k'. split; assumption.
Qed.

End EmptyRiskSet.

(** * No event time *)

Lemma logrankCR_no_event_time (a : Node float) c l :
  eventTimeSize a = 0%nat ->
  fold_left (cr_cause a c) l (0%float, 0%float) = (0%float, 0%float).
Proof.
  intros H0. induction l as [|j l IH]; [reflexivity|].
  cbn [fold_left]. unfold cr_cause at 2. rewrite H0. cbn [seq fold_left].
  exact IH.
Qed.

(** * An empty daughter *)

Section EmptyDaughter.

Context {D : Type} {ops : DoubleOps D}.
Variable a : Node D.
Local Open Scope Z_scope.

Lemma count_left_zero l i :
  count_left a l = 0 -> In i l -> on_left a i = false.
Proof.
  unfold count_left. intros H Hi.
  destruct (on_left a i) eqn:E; [|reflexivity].
  assert (In i (filter (on_left a) l)) as Hf by (apply filter_In; auto).
  destruct (filter (on_left a) l); [destruct Hf | simpl in H; lia].
Qed.

Lemma count_right_zero l i :
  count_right a l = 0 -> In i l -> on_left a i = true.
Proof.
  unfold count_right. intros H Hi.
  destruct (on_left a i) eqn:E; [reflexivity|].
  assert (In i (filter (fun i => negb (on_left a i)) l)) as Hf
    by (apply filter_In; rewrite E; auto).
  destruct (filter _ l); [destruct Hf | simpl in H; lia].
Qed.

(** The sizes the regression rule counts, and the sum of a daughter
    without observations. *)
Lemma regression_fold_sizes l sl sr ls rs :
  0 <= ls -> 0 <= rs ->
  ls + Z.of_nat (length l) < modulus -> rs + Z.of_nat (length l) < modulus ->
  exists sl' sr',
    fold_left (regression_step a) l (sl, sr, ls, rs)
    = (sl', sr', ls + count_left a l, rs + count_right a l)
    /\ (count_left a l = 0 -> sl' = sl)
    /\ (count_right a l = 0 -> sr' = sr).
Proof.
  revert sl sr ls rs. induction l as [|i l IH]; intros sl sr ls rs Hl Hr Bl Br.
  - exists sl, sr. unfold count_left, count_right. simpl.
    rewrite !Z.add_0_r. auto.
  - simpl length in *. cbn [fold_left]. unfold regression_step at 2.
    rewrite count_left_cons, count_right_cons.
    pose proof (count_left_nonneg a l). pose proof (count_right_nonneg a l).
    destruct (on_left a i).
    + rewrite u32_small by lia.
      destruct (IH (dadd sl (dsub (dget (response a) i) (mean a))) sr
                  (ls + 1) rs) as (sl' & sr' & E & Hsl & Hsr); try lia.
      exists sl', sr'. rewrite E. split; [apply f_equal2; [apply f_equal2; [reflexivity | lia] | lia]|].
      split; [lia | intros; apply Hsr; lia].
    + rewrite u32_small by lia.
      destruct (IH sl (dadd sr (dsub (dget (response a) i) (mean a)))
                  ls (rs + 1)) as (sl' & sr' & E & Hsl & Hsr); try lia.
      exists sl', sr'. rewrite E. split; [apply f_equal2; [apply f_equal2; [reflexivity | lia] | lia]|].
      split; [intros; apply Hsl; lia | lia].
Qed.

End EmptyDaughter.

(** * The tallies of the classification rule *)

Section Tallies.

Context {D : Type} {ops : DoubleOps D}.
Variable a : Node D.
Local Open Scope Z_scope.

Lemma classification_fold_None l :
  fold_left (classification_step a) l None = None.
Proof. induction l; [reflexivity | exact IHl]. Qed.

(** A label outside the vectors stops the tally. *)
Lemma classification_fold_outside l acc i :
  In i l -> class_of a i = None ->
  fold_left (classification_step a) l acc = None.
Proof.
  revert acc. induction l as [|j l IH]; intros acc Hi Hc; [destruct Hi|].
  cbn [fold_left]. destruct Hi as [->|Hi].
  - unfold classification_step at 2.
    destruct acc as [[[[lc rc] ls] rs]|]; rewrite ?Hc;
      apply classification_fold_None.
  - now apply IH.
Qed.

Lemma classification_fold_inside l lc rc ls rs :
  (forall i, In i l -> class_of a i <> None) ->
  0 <= ls -> 0 <= rs ->
  ls + Z.of_nat (length l) < modulus -> rs + Z.of_nat (length l) < modulus ->
  exists lc' rc',
    fold_left (classification_step a) l (Some (lc, rc, ls, rs))
    = Some (lc', rc', ls + count_left a l, rs + count_right a l)
    /\ length lc' = length lc /\ length rc' = length rc
    /\ (count_left a l = 0 -> lc' = lc)
    /\ (count_right a l = 0 -> rc' = rc).
Proof.
  revert lc rc ls rs. induction l as [|i l IH];
    intros lc rc ls rs Hc Hl Hr Bl Br.
  - exists lc, rc. unfold count_left, count_right. simpl.
    rewrite !Z.add_0_r. auto.
  - simpl length in *. cbn [fold_left]. unfold classification_step at 2.
    destruct (class_of a i) as [c|] eqn:Ec;
      [|exfalso; apply (Hc i (in_eq _ _)); exact Ec].
    rewrite count_left_cons, count_right_cons.
    pose proof (count_left_nonneg a l). pose proof (count_right_nonneg a l).
    assert (forall j, In j l -> class_of a j <> None) as Hc'
      by (intros j Hj; apply Hc, in_cons, Hj).
    destruct (on_left a i).
    + rewrite u32_small by lia.
      destruct (IH (incr lc c) rc (ls + 1) rs Hc')
        as (lc' & rc' & E & L1 & L2 & Hlc & Hrc); try lia.
      exists lc', rc'. rewrite E.
      split; [apply f_equal; apply f_equal2;
              [apply f_equal2; [reflexivity | lia] | lia]|].
      rewrite length_incr in L1.
      split; [exact L1|]. split; [exact L2|].
      split; [lia | intros; apply Hrc; lia].
    + rewrite u32_small by lia.
      destruct (IH lc (incr rc c) ls (rs + 1) Hc')
        as (lc' & rc' & E & L1 & L2 & Hlc & Hrc); try lia.
      exists lc', rc'. rewrite E.
      split; [apply f_equal; apply f_equal2;
              [apply f_equal2; [reflexivity | lia] | lia]|].
      rewrite length_incr in L2.
      split; [exact L1|]. split; [exact L2|].
      split; [intros; apply Hlc; lia | lia].
Qed.

(** A tally that ends has met no label outside the vectors. *)
Lemma classification_fold_Some l acc r :
  fold_left (classification_step a) l acc = Some r ->
  forall i, In i l -> class_of a i <> None.
Proof.
  intros E i Hi Hc. rewrite (@classification_fold_outside l acc i Hi Hc) in E.
  discriminate.
Qed.


Lemma classification_counts_sizes lc rc ls rs :
  n_fits a ->
  classification_counts a = Some (lc, rc, ls, rs) ->
  ls = leftSize a /\ rs = rghtSize a
  /\ length lc = S (maxLevel a) /\ length rc = S (maxLevel a)
  /\ (leftSize a = 0 -> lc = alloc_uivector (maxLevel a))
  /\ (rghtSize a = 0 -> rc = alloc_uivector (maxLevel a)).
Proof.
  intros Hn E. unfold n_fits in Hn.
  pose proof (classification_fold_Some _ _ E) as Hc.
  unfold classification_counts in E. rewrite zero_alloc in E.
  destruct (@classification_fold_inside (seq 1 (n a))
              (alloc_uivector (maxLevel a)) (alloc_uivector (maxLevel a))
              0 0 Hc) as (lc' & rc' & E' & L1 & L2 & Hlc & Hrc);
    rewrite ?length_seq; try lia.
  rewrite E' in E. injection E as <- <- <- <-.
  rewrite length_alloc in L1, L2.
  unfold leftSize, rghtSize. repeat split; auto.
Qed.

End Tallies.

(** * The sign of a result *)

Module Sign.

Import Binary64.

Lemma SFabs_signed x : signed false (SFabs x).
Proof. destruct x; simpl; auto. Qed.

Lemma SFsqrt_signed x : signed false x -> signed false (SFsqrt prec emax x).
Proof.
destruct x as [s|s| |s m e]; simpl; intros H; subst; try exact I;
  try exact eq_refl.
destruct (SFsqrt_core_binary prec emax (Z.pos m) e) as [[mz ez] lz].
apply bra_signed.
Qed.

Lemma SFmul_signed x y :
signed false x -> signed false y -> signed false (SFmul prec emax x y).
Proof.
destruct x as [sx|sx| |sx mx ex], y as [sy|sy| |sy my ey]; simpl;
  intros Hx Hy; subst; try exact I; try exact eq_refl.
apply (bra_signed false).
Qed.

Lemma SFdiv_signed x y :
signed false x -> signed false y -> signed false (SFdiv prec emax x y).
Proof.
destruct x as [sx|sx| |sx mx ex], y as [sy|sy| |sy my ey]; simpl;
  intros Hx Hy; subst; try exact I; try exact eq_refl.
destruct (SFdiv_core_binary prec emax (Z.pos mx) ex (Z.pos my) ey)
  as [[mz ez] lz].
apply (bra_signed false).
Qed.

(** A double whose sign bit is clear is not less than 0. *)
Lemma signed_not_negative x :
signed false (Prim2SF x) -> PrimFloat.ltb x 0 = false.
Proof.
rewrite ltb_spec. change (Prim2SF 0) with (S754_zero false).
destruct (Prim2SF x) as [s|s| |s m e]; simpl; intros H; subst; reflexivity.
Qed.

Lemma sqrt_times_abs z x :
(0 <= z < 2 ^ 53)%Z ->
signed false
  (Prim2SF (PrimFloat.sqrt (IEEE.float_of_uint z) * PrimFloat.abs x)%float).
Proof.
intros Hz. rewrite mul_spec, sqrt_spec, abs_spec, Doubles.Prim2SF_of_uint
  by assumption.
apply SFmul_signed.
- apply SFsqrt_signed, Doubles.signed_SFint.
- apply SFabs_signed.
Qed.

End Sign.

(** * Sums that are not the zero of negative sign *)

Module NegZero.

Import Binary64.
Local Open Scope Z_scope.

Lemma binary_round_nonzero s m e :
SpecFloat.emin prec emax <= e + digits m - 1 ->
nonzero s (binary_round prec emax s m e).
Proof.
intros He. unfold binary_round, shl_align.
destruct (SpecFloat.fexp prec emax (Z.pos (digits2_pos m) + e) - e)
  as [|d|d] eqn:Ed; try (apply bra_nonzero; exact He).
apply bra_nonzero. rewrite iter_xO, digits_shl.
rewrite positive_nat_Z. lia.
Qed.

Lemma nonzero_not_zero s x t : nonzero s x -> x <> S754_zero t.
Proof. destruct x; simpl; intros H E; try discriminate; contradiction. Qed.

(** A sum is the zero of negative sign only if both terms are. *)
Lemma SFadd_not_neg_zero x y :
valid_binary x = true -> valid_binary y = true ->
x <> S754_zero true -> SFadd prec emax x y <> S754_zero true.
Proof.
intros Vx Vy Hx.
destruct x as [sx|sx| |sx mx ex], y as [sy|sy| |sy my ey];
  try (simpl; discriminate);
  try (destruct sx, sy; simpl; try discriminate; congruence).
cbn [SFadd]. unfold binary_normalize.
apply valid_emin in Vx, Vy.
set (ez := Z.min ex ey).
destruct (cond_Zopp sx (Z.pos (fst (shl_align mx ex ez)))
          + cond_Zopp sy (Z.pos (fst (shl_align my ey ez)))) as [|p|p].
- discriminate.
- apply (@nonzero_not_zero false). apply binary_round_nonzero.
  pose proof (digits_pos p). unfold ez. lia.
- apply (@nonzero_not_zero true). apply binary_round_nonzero.
  pose proof (digits_pos p). unfold ez. lia.
Qed.

Lemma add_not_neg_zero (x y : float) :
Prim2SF x <> S754_zero true -> Prim2SF (x + y)%float <> S754_zero true.
Proof.
intros H. rewrite add_spec.
apply SFadd_not_neg_zero; [apply Prim2SF_valid | apply Prim2SF_valid | exact H].
Qed.

(** The quotient the log-rank rules return. *)
Lemma abs_over_sqrt num den :
Prim2SF den <> S754_zero true ->
signed false (Prim2SF (PrimFloat.abs num / PrimFloat.sqrt den)%float).
Proof.
intros H. rewrite div_spec, abs_spec, sqrt_spec.
apply Sign.SFdiv_signed; [apply Sign.SFabs_signed|].
destruct (Prim2SF den) as [s|s| |s m e] eqn:E.
- destruct s; [congruence | exact eq_refl].
- destruct s; [exact I | exact eq_refl].
- exact I.
- destruct s; [exact I|]. apply Sign.SFsqrt_signed. exact eq_refl.
Qed.

Lemma zero_guard_signed num den :
Prim2SF den <> S754_zero true ->
signed false (Prim2SF (zero_guard num den)).
Proof.
intros H. unfold zero_guard.
destruct (dleb (dsqrt den) d1em9);
  [destruct (dleb (dfabs num) d1em9); [exact eq_refl|]|];
  apply (@abs_over_sqrt num den H).
Qed.

End NegZero.

(** * Exchanging the daughters *)

Lemma SFadd_comm x y : SFadd prec emax x y = SFadd prec emax y x.
Proof.
  destruct x as [sx|sx| |sx mx ex], y as [sy|sy| |sy my ey];
    try reflexivity; try (destruct sx, sy; reflexivity).
  cbn [SFadd]. rewrite (Z.min_comm ey ex). f_equal. apply Z.add_comm.
Qed.

Lemma add_comm (x y : float) : (x + y)%float = (y + x)%float.
Proof. apply Prim2SF_inj. rewrite !add_spec. apply SFadd_comm. Qed.

Section Swap.

Context {D : Type} {ops : DoubleOps D}.
Variable a : Node D.
Hypothesis Hlen : (n a <= length (membership a))%nat.

Lemma on_left_swap i :
  (1 <= i <= n a)%nat ->
  on_left (swap_daughters a) i = negb (on_left a i).
Proof.
  intros Hi. unfold on_left, mget. cbn [membership swap_daughters].
  destruct i as [|i]; [lia|]. cbn [get1].
  rewrite (nth_indep (map flip (membership a)) RIGHT (flip RIGHT))
    by (rewrite length_map; lia).
  rewrite map_nth. now destruct (nth i (membership a) RIGHT).
Qed.

Lemma regression_fold_swap l sl sr ls rs :
  (forall i, In i l -> (1 <= i <= n a)%nat) ->
  fold_left (regression_step (swap_daughters a)) l (sl, sr, ls, rs)
  = (let '(x, y, u, v) := fold_left (regression_step a) l (sr, sl, rs, ls)
     in (y, x, v, u)).
Proof.
  revert sl sr ls rs. induction l as [|i l IH]; intros sl sr ls rs Hl;
    [reflexivity|].
  cbn [fold_left]. unfold regression_step at 2 4.
  rewrite on_left_swap by (apply Hl, in_eq).
  cbn [response mean swap_daughters].
  destruct (on_left a i); cbn [negb]; apply IH;
    intros j Hj; apply Hl, in_cons, Hj.
Qed.

Lemma classification_fold_swap l lc rc ls rs :
  (forall i, In i l -> (1 <= i <= n a)%nat) ->
  fold_left (classification_step (swap_daughters a)) l
    (Some (lc, rc, ls, rs))
  = match fold_left (classification_step a) l (Some (rc, lc, rs, ls)) with
    | Some (x, y, u, v) => Some (y, x, v, u)
    | None => None
    end.
Proof.
  revert lc rc ls rs. induction l as [|i l IH]; intros lc rc ls rs Hl;
    [reflexivity|].
  cbn [fold_left]. unfold classification_step at 2 4.
  rewrite on_left_swap by (apply Hl, in_eq).
  change (class_of (swap_daughters a) i) with (class_of a i).
  assert (forall j, In j l -> (1 <= j <= n a)%nat) as Hl'
    by (intros j Hj; apply Hl, in_cons, Hj).
  destruct (class_of a i) as [c|].
  - destruct (on_left a i); cbn [negb]; now apply IH.
  - rewrite !classification_fold_None. reflexivity.
Qed.

End Swap.

(** * What the sweep of the competing-risk rule counts *)

Section CRTally.

Context {D : Type} {ops : DoubleOps D}.
Variable a : Node D.
Local Open Scope Z_scope.

Local Abbreviation ntype := (eventTypeSize a).
Local Abbreviation ets := (eventTimeSize a).
Local Abbreviation R := (still_at_risk a).

Hypothesis Hmono : forall j j' m,
  (1 <= j <= j')%nat -> (j' <= n a)%nat -> (1 <= m <= ets)%nat ->
  R j m = true -> R j' m = true.
Hypothesis Hanti : forall j m m',
  (1 <= j <= n a)%nat -> (1 <= m <= m')%nat -> (m' <= ets)%nat ->
  R j m' = true -> R j m = true.

(** An observation met at the event time [k], later event times being
    past its time, lands at [k]. *)
Lemma lands_at i k m :
  (1 <= i <= n a)%nat -> (1 <= k <= ets)%nat -> (1 <= m <= ets)%nat ->
  R i k = true ->
  (forall m', (k < m' <= ets)%nat -> R i m' = false) ->
  lands a i m = Nat.eqb m k.
Proof.
  intros Hi Hk Hm E Hinv. unfold lands.
  destruct (Nat.eqb_spec m k) as [->|Hne].
  - rewrite E. cbn [andb].
    destruct (Nat.eqb_spec k ets); [reflexivity|].
    rewrite (Hinv (S k)) by lia. reflexivity.
  - destruct (Nat.lt_ge_cases k m) as [Hgt|Hle].
    + rewrite (Hinv m) by lia. reflexivity.
    + destruct (Nat.eqb_spec m ets); [lia|].
      rewrite (@Hanti i (S m) k) by (assumption || lia).
      cbn [negb orb]. apply andb_false_r.
Qed.

(** One of the two event matrices, with the condition under which the
    sweep increments the cell of the cause. *)
Variable mproj : cr_counts -> UIMatrix.t.
Variable mind : nat -> nat -> bool.
Hypothesis Hmproj : forall i k c c',
  cr_at_risk a i k c = Some c' ->
  mproj c' = match cause_of a i with
             | Some e => if mind i k then UIMatrix.incr (mproj c) e k
                         else mproj c
             | None => mproj c
             end.

Lemma cr_sweep_tally k i c c' j m :
  cr_sweep a k i c = Some c' ->
  (k <= ets)%nat -> (i <= n a)%nat ->
  (forall i' m', (1 <= i' <= i)%nat -> (k < m' <= ets)%nat ->
     R i' m' = false) ->
  (1 <= j <= ntype)%nat -> (1 <= m <= ets)%nat ->
  mat_ok ntype ets (mproj c) ->
  0 <= UIMatrix.get (mproj c) j m ->
  UIMatrix.get (mproj c) j m + Z.of_nat i < modulus ->
  UIMatrix.get (mproj c') j m
  = UIMatrix.get (mproj c) j m
    + count (fun i' => lands a i' m && mind i' m && has_cause a i' j)
        (seq 1 i).
Proof.
  revert i c. induction k as [|k IHk];
    intros i c E Hk Hi Hinv Hj Hm Hok H0 Hb.
  - simpl in E. injection E as <-. rewrite count_false; [lia|].
    intros i' Hi'. apply in_seq in Hi'. unfold lands.
    rewrite (Hinv i' m) by lia. reflexivity.
  - revert c E Hok H0 Hb Hinv.
    induction i as [|i IHi]; intros c E Hok H0 Hb Hinv.
    + rewrite cr_sweep_0_r in E. injection E as <-.
      simpl seq. rewrite count_nil. lia.
    + rewrite cr_sweep_S_S in E. rewrite seq_S, count_snoc. cbn [Nat.add].
      destruct (R (S i) (S k)) eqn:Er.
      * destruct (cr_at_risk a (S i) (S k) c) as [c1|] eqn:E1;
          [|discriminate].
        pose proof (Hmproj _ _ _ E1) as P.
        rewrite (@lands_at (S i) (S k) m) by
          (try assumption; try lia; intros m' Hm'; apply Hinv; lia).
        assert (UIMatrix.get (mproj c1) j m
                = UIMatrix.get (mproj c) j m
                  + b2z ((m =? S k)%nat && mind (S i) m
                         && has_cause a (S i) j)
                /\ mat_ok ntype ets (mproj c1)) as [Eg Eok].
        { unfold has_cause. rewrite P.
          destruct (cause_of a (S i)) as [e|] eqn:Ec.
          2:{ split; [|assumption]. rewrite andb_false_r. cbn [b2z]. lia. }
          pose proof (cause_of_range _ _ Ec) as He.
          destruct (Nat.eqb_spec m (S k)) as [->|Hne].
          - destruct (mind (S i) (S k)).
            + split; [|now apply mat_ok_incr].
              destruct (Nat.eqb_spec e j) as [->|Hne].
              * rewrite (@mget_incr_eq ntype ets) by (assumption || lia).
                reflexivity.
              * rewrite mget_incr_neq by congruence. cbn [andb b2z]. lia.
            + split; [|assumption]. cbn [andb b2z]. lia.
          - cbn [andb b2z]. rewrite Z.add_0_r.
            destruct (mind (S i) (S k)).
            + split; [|now apply mat_ok_incr].
              apply mget_incr_neq. congruence.
            + split; [reflexivity | assumption]. }
        assert (0 <= b2z ((m =? S k)%nat && mind (S i) m
                          && has_cause a (S i) j) <= 1) as Hb2
          by (destruct (_ && _ && _)%bool; cbn [b2z]; lia).
        rewrite (IHi ltac:(lia) c1 E Eok); try lia.
        intros i' m' Hi' Hm'. apply Hinv; lia.
      * rewrite (IHk (S i) c E); try assumption; try lia.
        -- rewrite seq_S, count_snoc. reflexivity.
        -- intros i' m' Hi' Hm'.
           destruct (Nat.eq_dec m' (S k)) as [->|Hne].
           ++ destruct (R i' (S k)) eqn:Ej; [|reflexivity].
              rewrite (@Hmono i' (S i) (S k)) in Er by (assumption || lia).
              discriminate.
           ++ apply Hinv; lia.
Qed.

End CRTally.

(** * Quotients of integers do not overflow *)

Module Overflow.

Import Binary64.
Local Open Scope Z_scope.

Lemma round_nearest_even_bounds m l :
  m <= round_nearest_even m l <= m + 1.
Proof.
  destruct l as [|[]]; simpl; try lia.
  destruct (Z.even m); lia.
Qed.

Lemma Zdigits2_le m d : 0 <= m < 2 ^ d -> 0 <= d -> 0 <= Zdigits2 m <= d.
Proof.
  intros Hm Hd. destruct m as [|p|p]; simpl; try lia.
  fold (digits p). pose proof (digits_pos p).
  split; [lia | apply digits_le; lia].
Qed.

Lemma Zdigits2_spec m : 0 <= m -> m < 2 ^ Zdigits2 m.
Proof.
  intros Hm. destruct m as [|p|p]; simpl; try lia.
  fold (digits p). apply digits_spec.
Qed.

Lemma shr_fexp_spec m e l :
  0 <= m ->
  let k := Z.max 0 (Z.max (Zdigits2 m + e - prec) (SpecFloat.emin prec emax) - e) in
  shr_m (fst (shr_fexp prec emax m e l)) = m / 2 ^ k
  /\ snd (shr_fexp prec emax m e l) = e + k.
Proof.
  intros Hm k. unfold shr_fexp, fexp.
  assert (shr_m (shr_record_of_loc m l) = m) as E
    by (destruct l as [|[]]; reflexivity).
  destruct (@shr_m_spec (shr_record_of_loc m l) e
              (Z.max (Zdigits2 m + e - prec) (SpecFloat.emin prec emax) - e))
    as [E1 E2]; [rewrite E; exact Hm|].
  rewrite E in E1. split; assumption.
Qed.

(** A mantissa below [2^d] with [d + e <= emax - 1] is rounded to a zero
    or to a finite number. *)
Lemma bra_no_overflow s m e l d :
  0 <= m < 2 ^ d -> 0 <= d -> e <= emax - prec -> d + e <= emax - 1 ->
  is_finite (bra s m e l) = true.
Proof.
  intros Hm Hd He Hde. unfold binary_round_aux.
  destruct (@shr_fexp_spec m e l ltac:(lia)) as [M1 E1].
  destruct (Zdigits2_le Hm Hd) as [D0 D1].
  pose proof (@Zdigits2_spec m ltac:(lia)) as Hm'.
  set (dm := Zdigits2 m) in *.
  set (k := Z.max 0 (Z.max (dm + e - prec) (SpecFloat.emin prec emax) - e)) in *.
  destruct (shr_fexp prec emax m e l) as [mrs' e']. simpl in M1, E1.
  assert (0 <= k) as Hk by (unfold k; lia).
  assert (0 < 2 ^ k) as Hpk by (apply Z.pow_pos_nonneg; lia).
  assert (0 <= shr_m mrs' < 2 ^ Z.max (dm - k) 0) as B1.
  { rewrite M1. split; [apply Z.div_pos; lia|].
    destruct (Z.le_gt_cases k dm) as [Hle|Hgt].
    - rewrite Z.max_l by lia. apply Z.div_lt_upper_bound; [lia|].
      rewrite <- Z.pow_add_r by lia. replace (k + (dm - k)) with dm by lia.
      exact Hm'.
    - rewrite Z.max_r by lia. rewrite Z.div_small; [simpl; lia|].
      split; [lia|]. apply Z.lt_le_trans with (2 ^ dm); [exact Hm'|].
      apply Z.pow_le_mono_r; lia. }
  pose proof (round_nearest_even_bounds (shr_m mrs') (loc_of_shr_record mrs')) as B2.
  set (m2 := round_nearest_even (shr_m mrs') (loc_of_shr_record mrs')) in *.
  assert (0 <= m2 < 2 ^ (Z.max (dm - k) 0 + 1)) as B3.
  { rewrite Z.pow_add_r by lia. change (2 ^ 1) with 2. lia. }
  destruct (@Zdigits2_le m2 (Z.max (dm - k) 0 + 1) B3 ltac:(lia)) as [D2 D3].
  destruct (@shr_fexp_spec m2 e' loc_Exact ltac:(lia)) as [M4 E4].
  destruct (shr_fexp prec emax m2 e' loc_Exact) as [mrs'' e'']. simpl in M4, E4.
  assert (0 <= shr_m mrs'') as B4.
  { rewrite M4. apply Z.div_pos; [lia|]. apply Z.pow_pos_nonneg; lia. }
  destruct (shr_m mrs'') as [|p|p]; [reflexivity| |lia].
  replace (e'' <=? emax - prec) with true; [reflexivity|].
  symmetry. apply Z.leb_le. rewrite E4, E1.
  unfold k, prec, emax, SpecFloat.emin in *. lia.
Qed.

(** The quotient of two integers below [2^53] is a zero or a finite
    number, and is not negative. *)
Lemma SFdiv_int_finite a b :
  0 <= a < 2 ^ 53 -> 0 < b < 2 ^ 53 ->
  is_finite (SFdiv prec emax (SFint a) (SFint b)) = true
  /\ signed false (SFdiv prec emax (SFint a) (SFint b)).
Proof.
  intros Ha Hb.
  destruct b as [|q|q]; try lia.
  destruct a as [|p|p]; [split; reflexivity| |lia].
  pose proof (@small_digits p ltac:(lia)) as Dp.
  pose proof (@small_digits q ltac:(lia)) as Dq.
  pose proof (digits_pos p). pose proof (digits_pos q).
  unfold SFint, SFdiv. cbn [xorb].
  destruct (SFdiv_core_binary prec emax _ _ _ _) as [[mq eq] lq] eqn:E.
  split; [|apply bra_signed].
  unfold SFdiv_core_binary in E. unfold Zdigits2, fexp in E.
  fold (digits (shl p (Z.to_nat (53 - digits p)))) in E.
  fold (digits (shl q (Z.to_nat (53 - digits q)))) in E.
  rewrite !SFint_digits in E by assumption.
  set (e1 := digits p - 53) in *. set (e2 := digits q - 53) in *.
  replace (Z.min (Z.max (53 + e1 - (53 + e2) - prec) (SpecFloat.emin prec emax)) (e1 - e2))
    with (e1 - e2 - 53) in E by (unfold prec, emax, SpecFloat.emin, e1, e2; lia).
  replace (e1 - e2 - (e1 - e2 - 53)) with 53 in E by lia.
  set (mp := Zpos (shl p (Z.to_nat (53 - digits p)))) in *.
  set (mq' := Zpos (shl q (Z.to_nat (53 - digits q)))) in *.
  assert (0 < mp < 2 ^ 53) as Bp.
  { unfold mp. split; [lia|].
    pose proof (digits_spec (shl p (Z.to_nat (53 - digits p)))) as [_ Hu].
    rewrite SFint_digits in Hu by assumption. exact Hu. }
  assert (0 < mq') as Bq by (unfold mq'; lia).
  change (match 53 with Z0 => mp | Zpos _ => Z.shiftl mp 53 | Zneg _ => mp end)
    with (Z.shiftl mp 53) in E.
  rewrite Z.shiftl_mul_pow2 in E by lia.
  assert (0 <= mp * 2 ^ 53 < 2 ^ 53 * 2 ^ 53) as Bm by lia.
  set (mm := mp * 2 ^ 53) in *.
  pose proof (Z.div_pos mm mq' ltac:(lia) Bq) as Q0.
  pose proof (Z.div_le_upper_bound mm mq' mm Bq ltac:(nia)) as Q1.
  unfold Z.div in Q0, Q1.
  destruct (Z.div_eucl mm mq') as [q0 r0]. simpl in Q0, Q1.
  injection E as <- <- <-.
  apply bra_no_overflow with (d := 106).
  - split; [exact Q0|]. change (2 ^ 106) with (2 ^ 53 * 2 ^ 53). lia.
  - lia.
  - unfold e1, e2, prec, emax. lia.
  - unfold e1, e2, emax. lia.
Qed.

End Overflow.

(** * The survival rule on a split with an empty daughter *)

Section OneSided.

Context {D : Type} {ops : DoubleOps D}.
Variable a : Node D.
Local Open Scope Z_scope.

(** Without observations on the left the sweep leaves the left vectors
    alone. *)
Lemma sweep_none_left k i c :
  (forall j, (1 <= j <= i)%nat -> on_left a j = false) ->
  nodeLeftAtRisk (sweep a k i c) = nodeLeftAtRisk c
  /\ nodeLeftEvent (sweep a k i c) = nodeLeftEvent c.
Proof.
  revert i c. induction k as [|k IHk]; intros i c H; [now split|].
  revert c. induction i as [|i IHi]; intros c; [now split|].
  rewrite sweep_S_S. destruct (still_at_risk a (S i) (S k)).
  - destruct (IHi ltac:(intros j Hj; apply H; lia) (at_risk a (S i) (S k) c))
      as [E1 E2].
    rewrite E1, E2. unfold at_risk. cbn.
    rewrite (H (S i)) by lia. now rewrite andb_false_r.
  - apply IHk. exact H.
Qed.

(** With every observation on the left the sweep keeps the left vectors
    equal to the parent vectors. *)
Lemma sweep_all_left k i c :
  (forall j, (1 <= j <= i)%nat -> on_left a j = true) ->
  nodeLeftAtRisk c = nodeParentAtRisk c ->
  nodeLeftEvent c = nodeParentEvent c ->
  nodeLeftAtRisk (sweep a k i c) = nodeParentAtRisk (sweep a k i c)
  /\ nodeLeftEvent (sweep a k i c) = nodeParentEvent (sweep a k i c).
Proof.
  revert i c. induction k as [|k IHk]; intros i c H Ea Ee; [now split|].
  revert c Ea Ee. induction i as [|i IHi]; intros c Ea Ee; [now split|].
  rewrite sweep_S_S. destruct (still_at_risk a (S i) (S k)).
  - apply IHi.
    + intros j Hj. apply H. lia.
    + unfold at_risk. cbn. rewrite (H (S i)) by lia. now rewrite Ea.
    + unfold at_risk. cbn. rewrite (H (S i)) by lia.
      rewrite andb_true_r, Ee. reflexivity.
  - apply IHk; assumption.
Qed.

Hypothesis Hn : n_fits a.

Lemma survival_none_left k :
  leftSize a = 0 -> (1 <= k <= eventTimeSize a)%nat ->
  get (nodeLeftAtRisk (survival_counts a)) k = 0
  /\ get (nodeLeftEvent (survival_counts a)) k = 0.
Proof.
  intros H0 Hk.
  destruct (@sweep_none_left (eventTimeSize a) (n a)
              (reset_counts (eventTimeSize a))) as [E1 E2].
  { intros j Hj. apply (@count_left_zero _ a (seq 1 (n a))); [exact H0|].
    apply in_seq. lia. }
  destruct (step_function_events (eventTimeSize a)
              (sweep a (eventTimeSize a) (n a)
                 (reset_counts (eventTimeSize a)))) as [_ Ele].
  fold (survival_counts a) in Ele.
  rewrite (survival_la Hn) by assumption. rewrite Ele, E1, E2.
  pose proof (reset_counts_ok (eventTimeSize a)) as Hok.
  split.
  - pose proof (total_reset (eventTimeSize a)) as Ht. unfold total in Ht.
    assert (nodeLeftAtRisk (reset_counts (eventTimeSize a))
            = nodeParentAtRisk (reset_counts (eventTimeSize a))) as ->
      by reflexivity.
    pose proof (@suffix_antitone _ (ok_pa Hok) 0%nat k ltac:(lia)).
    pose proof (@suffix_nonneg _ (ok_pa Hok) k). lia.
  - pose proof (ok_le Hok k). pose proof (ok_le_pe Hok k).
    pose proof (ok_pe_pa Hok k).
    pose proof (get_le_total k Hok) as Ht. rewrite total_reset in Ht. lia.
Qed.

Lemma survival_all_left k :
  rghtSize a = 0 -> (1 <= k <= eventTimeSize a)%nat ->
  get (nodeLeftAtRisk (survival_counts a)) k
  = get (nodeParentAtRisk (survival_counts a)) k
  /\ get (nodeLeftEvent (survival_counts a)) k
     = get (nodeParentEvent (survival_counts a)) k.
Proof.
  intros H0 Hk.
  destruct (@sweep_all_left (eventTimeSize a) (n a)
              (reset_counts (eventTimeSize a))) as [E1 E2];
    [|reflexivity|reflexivity|].
  { intros j Hj. apply (@count_right_zero _ a (seq 1 (n a))); [exact H0|].
    apply in_seq. lia. }
  destruct (step_function_events (eventTimeSize a)
              (sweep a (eventTimeSize a) (n a)
                 (reset_counts (eventTimeSize a)))) as [Epe Ele].
  fold (survival_counts a) in Epe, Ele.
  rewrite (survival_la Hn), (survival_pa Hn) by assumption.
  rewrite Epe, Ele, E1, E2. split; reflexivity.
Qed.

(** The parent counts of the survival rule are at most [n]. *)
Lemma survival_parent_bound k :
  (1 <= k <= eventTimeSize a)%nat ->
  0 <= get (nodeParentEvent (survival_counts a)) k
    <= get (nodeParentAtRisk (survival_counts a)) k
  /\ get (nodeParentAtRisk (survival_counts a)) k <= Z.of_nat (n a).
Proof.
  intros Hk. destruct (raw_ok Hn) as [Hok Hle].
  destruct (step_function_events (eventTimeSize a)
              (sweep a (eventTimeSize a) (n a)
                 (reset_counts (eventTimeSize a)))) as [Epe _].
  fold (survival_counts a) in Epe.
  rewrite (survival_pa Hn), Epe by assumption.
  pose proof (@suffix_antitone _ (ok_pa Hok) 0%nat k ltac:(lia)) as R3.
  pose proof (@get_le_suffix _ k k (ok_pa Hok) (Nat.le_refl k)) as G.
  pose proof (ok_pe Hok k). pose proof (ok_pe_pa Hok k).
  unfold total in Hle. lia.
Qed.

End OneSided.

(** ** The terms of the test in IEEE doubles *)

Module ZeroTerms.

Import Binary64 Doubles Overflow.
Local Open Scope Z_scope.

Lemma is_finite_int z : 0 <= z -> is_finite (SFint z) = true.
Proof. destruct z; simpl; intros; try reflexivity; lia. Qed.

(** [+0] times a number that is finite and not negative is [+0]. *)
Lemma SFmul_zero_finite y :
  is_finite y = true -> signed false y ->
  SFmul prec emax (S754_zero false) y = S754_zero false.
Proof. destruct y as [[]|[]| |[] m e]; simpl; intros; congruence. Qed.

Lemma num_none_left P E :
  1 <= P < 2 ^ 53 ->
  Prim2SF (IEEE.float_of_uint 0
           - IEEE.float_of_uint (u32 (0 * E)) / IEEE.float_of_uint P)%float
  = S754_zero false.
Proof.
  intros HP. rewrite Z.mul_0_l. change (u32 0) with 0.
  rewrite sub_spec, div_spec, !Prim2SF_of_uint by lia.
  destruct P as [|p|p]; try lia. reflexivity.
Qed.

Lemma num_all_left P E :
  1 <= P < modulus -> 0 <= E <= P -> P * E < modulus ->
  exists s,
    Prim2SF (IEEE.float_of_uint E
             - IEEE.float_of_uint (u32 (P * E)) / IEEE.float_of_uint P)%float
    = S754_zero s.
Proof.
  intros HP HE Hm. unfold modulus in HP, Hm.
  assert (0 <= P * E) by nia.
  rewrite u32_small by (unfold modulus; lia).
  rewrite sub_spec.
  assert (Prim2SF (IEEE.float_of_uint (P * E) / IEEE.float_of_uint P)%float
          = SFint E) as ->.
  { apply Prim2SF_div_int with (b := P); try lia.
    - rewrite Prim2SF_of_uint by lia. f_equal. lia.
    - apply Prim2SF_of_uint. lia. }
  rewrite Prim2SF_of_uint by lia.
  apply SFsub_eq.
  - destruct E as [|e|e]; try lia; [reflexivity|].
    unfold SFint. simpl. rewrite Z.compare_refl, Pos.compare_refl. reflexivity.
  - destruct E; try reflexivity; lia.
Qed.

Lemma lead_none_left P :
  1 <= P < 2 ^ 53 ->
  Prim2SF (IEEE.float_of_uint 0 / IEEE.float_of_uint P
           * (IEEE.float_of_uint 1
              - IEEE.float_of_uint 0 / IEEE.float_of_uint P))%float
  = S754_zero false.
Proof.
  intros HP. rewrite mul_spec, sub_spec, div_spec, !Prim2SF_of_uint by lia.
  destruct P as [|p|p]; try lia. reflexivity.
Qed.

Lemma lead_all_left P :
  1 <= P < 2 ^ 53 ->
  Prim2SF (IEEE.float_of_uint P / IEEE.float_of_uint P
           * (IEEE.float_of_uint 1
              - IEEE.float_of_uint P / IEEE.float_of_uint P))%float
  = S754_zero false.
Proof.
  intros HP.
  assert (IEEE.float_of_uint P / IEEE.float_of_uint P = 1)%float as ->.
  { apply Prim2SF_inj.
    rewrite (@Prim2SF_div_int _ _ 1 P); try lia; try reflexivity.
    - rewrite Z.mul_1_l. apply Prim2SF_of_uint. lia.
    - apply Prim2SF_of_uint. lia. }
  reflexivity.
Qed.

(** The denominator term: a leading factor [+0] times a quotient of
    counts times a count. *)
Lemma den_zero t x y E :
  Prim2SF t = S754_zero false ->
  0 <= x < 2 ^ 53 -> 1 <= y < 2 ^ 53 -> 0 <= E < 2 ^ 53 ->
  Prim2SF (t * (IEEE.float_of_uint x / IEEE.float_of_uint y)
           * IEEE.float_of_uint E)%float
  = S754_zero false.
Proof.
  intros Ht Hx Hy HE.
  rewrite !mul_spec, div_spec, !Prim2SF_of_uint, Ht by lia.
  destruct (@SFdiv_int_finite x y ltac:(lia) ltac:(lia)) as [F S].
  unfold SF64mul, SF64div. rewrite (SFmul_zero_finite _ F S).
  apply SFmul_zero_finite; [apply is_finite_int; lia | apply signed_SFint].
Qed.

(** Sums of zeros. *)
Lemma logrank_zero (c : counts) l :
  (forall k, In k l ->
     (exists s, Prim2SF (logrank_num c k) = S754_zero s)
     /\ ((2 <= get (nodeParentAtRisk c) k) ->
         Prim2SF (logrank_den c k) = S754_zero false)) ->
  fold_left (logrank_step c) l (0%float, 0%float) = (0%float, 0%float).
Proof.
  induction l as [|k l IH]; intros H; [reflexivity|].
  cbn [fold_left]. unfold logrank_step at 2.
  destruct (H k (in_eq _ _)) as [[s Hs] Hd].
  assert (dadd 0%float (logrank_num c k) = 0%float) as ->.
  { apply Prim2SF_inj. change (dadd 0%float (logrank_num c k))
      with (0 + logrank_num c k)%float.
    rewrite add_spec, Hs. apply SFadd_zero_any. }
  assert ((if (2 <=? get (nodeParentAtRisk c) k)
           then dadd 0%float (logrank_den c k) else 0%float) = 0%float) as ->.
  { destruct (Z.leb_spec 2 (get (nodeParentAtRisk c) k)) as [H2|H2];
      [|reflexivity].
    apply Prim2SF_inj. change (dadd 0%float (logrank_den c k))
      with (0 + logrank_den c k)%float.
    rewrite add_spec, (Hd H2). reflexivity. }
  apply IH. intros k' Hk'. apply H. now right.
Qed.

End ZeroTerms.

(** * The competing-risk rule on a split with an empty daughter *)

Lemma sum_over_squeeze f g l :
  (forall x, In x l -> (f x <= g x)%Z) -> sum_over f l = sum_over g l ->
  forall x, In x l -> f x = g x.
Proof.
  induction l as [|y l IH]; intros Hle Hs x Hx; [destruct Hx|].
  rewrite !sum_over_cons in Hs.
  pose proof (Hle y (in_eq _ _)) as Hy.
  pose proof (@sum_over_le f g l (fun z Hz => Hle z (in_cons _ _ _ Hz))) as Hl.
  destruct Hx as [<-|Hx]; [lia|].
  apply IH; [intros z Hz; apply Hle; now right | lia | exact Hx].
Qed.

Section CROneSided.

Context {D : Type} {ops : DoubleOps D}.
Variable a : Node D.
Variable c : cr_counts.
Hypothesis Hn : n_fits a.
Hypothesis Hc : cr_spec a c.
Local Open Scope Z_scope.

Lemma left_cells_nonneg : cells_nonneg (nodeLeftEventCR c).
Proof. intros r s. apply (crs_cell Hc). Qed.

Lemma cr_none_left j k :
  leftSize a = 0 ->
  (1 <= j <= eventTypeSize a)%nat -> (1 <= k <= eventTimeSize a)%nat ->
  UIMatrix.get (nodeLeftEventCR c) j k = 0
  /\ UIMatrix.get (nodeLeftInclusiveAtRisk c) j k = 0.
Proof.
  intros H0 Hj Hk.
  assert (forall r s, (1 <= r <= eventTypeSize a)%nat ->
            (1 <= s <= eventTimeSize a)%nat ->
            UIMatrix.get (nodeLeftEventCR c) r s = 0) as Hz.
  { intros r s Hr Hs.
    pose proof (@cell_le_col_sum (eventTypeSize a) _ r s left_cells_nonneg Hr) as H.
    rewrite (crs_lcol Hc) in H.
    destruct (survival_none_left Hn H0 Hs) as [_ E]. rewrite E in H.
    pose proof (left_cells_nonneg r s). lia. }
  split; [now apply Hz|].
  rewrite (crs_li Hc) by assumption. rewrite (crs_la Hc).
  destruct (survival_none_left Hn H0 Hk) as [-> _].
  unfold other_events. rewrite sum_over_zero; [reflexivity|].
  intros s Hs. apply in_seq in Hs. unfold others. apply sum_over_zero.
  intros r Hr. apply in_seq in Hr.
  destruct (Nat.eqb j r); [reflexivity|]. apply Hz; lia.
Qed.

Lemma cr_all_left j k :
  rghtSize a = 0 ->
  (1 <= j <= eventTypeSize a)%nat -> (1 <= k <= eventTimeSize a)%nat ->
  UIMatrix.get (nodeLeftEventCR c) j k = UIMatrix.get (nodeParentEventCR c) j k
  /\ UIMatrix.get (nodeLeftInclusiveAtRisk c) j k
     = UIMatrix.get (nodeParentInclusiveAtRisk c) j k.
Proof.
  intros H0 Hj Hk.
  assert (forall r s, (1 <= r <= eventTypeSize a)%nat ->
            (1 <= s <= eventTimeSize a)%nat ->
            UIMatrix.get (nodeLeftEventCR c) r s
            = UIMatrix.get (nodeParentEventCR c) r s) as Hz.
  { intros r s Hr Hs.
    apply (@sum_over_squeeze (fun r => UIMatrix.get (nodeLeftEventCR c) r s)
             (fun r => UIMatrix.get (nodeParentEventCR c) r s)
             (seq 1 (eventTypeSize a))).
    - intros x _. apply (crs_cell Hc).
    - fold (col_sum (eventTypeSize a) (nodeLeftEventCR c) s).
      fold (col_sum (eventTypeSize a) (nodeParentEventCR c) s).
      rewrite (crs_lcol Hc), (crs_pcol Hc).
      now destruct (survival_all_left Hn H0 Hs) as [_ ->].
    - apply in_seq. lia. }
  split; [now apply Hz|].
  rewrite (crs_li Hc), (crs_pi Hc) by assumption.
  rewrite (crs_la Hc), (crs_pa Hc).
  destruct (survival_all_left Hn H0 Hk) as [-> _]. f_equal.
  unfold other_events. apply sum_over_ext.
  intros s Hs. apply in_seq in Hs. unfold others. apply sum_over_ext.
  intros r Hr. apply in_seq in Hr.
  destruct (Nat.eqb j r); [reflexivity|]. apply Hz; lia.
Qed.

(** The cells the terms of the test divide by and multiply with. *)
Lemma cr_parent_bounds j k :
  (1 <= j <= eventTypeSize a)%nat -> (1 <= k <= eventTimeSize a)%nat ->
  0 <= UIMatrix.get (nodeParentEventCR c) j k <= Z.of_nat (n a)
  /\ get (nodeParentAtRisk (survival_counts a)) k
     <= UIMatrix.get (nodeParentInclusiveAtRisk c) j k < modulus.
Proof.
  intros Hj Hk.
  assert (cells_nonneg (nodeParentEventCR c)) as Hnn.
  { intros r s. pose proof (crs_cell Hc r s). lia. }
  pose proof (@cell_le_col_sum (eventTypeSize a) _ j k Hnn Hj) as H.
  rewrite (crs_pcol Hc) in H.
  destruct (survival_parent_bound Hn Hk) as [[_ H1] H2].
  pose proof (crs_pi Hc Hj Hk) as Hpi. rewrite (crs_pa Hc) in Hpi.
  pose proof (@other_events_nonneg _ a (nodeParentEventCR c) j k Hnn).
  pose proof (crs_pi_fits Hc Hj Hk).
  pose proof (Hnn j k). lia.
Qed.

End CROneSided.

Module CRZeroTerms.

Import Binary64 Doubles Overflow ZeroTerms.
Local Open Scope Z_scope.

Lemma one_ratio P :
  1 <= P < 2 ^ 53 -> (IEEE.float_of_uint P / IEEE.float_of_uint P = 1)%float.
Proof.
  intros HP. apply Prim2SF_inj.
  rewrite (@Prim2SF_div_int _ _ 1 P); try lia; try reflexivity.
  - rewrite Z.mul_1_l. apply Prim2SF_of_uint. lia.
  - apply Prim2SF_of_uint. lia.
Qed.

Lemma zero_ratio P :
  1 <= P < 2 ^ 53 -> (IEEE.float_of_uint 0 / IEEE.float_of_uint P = 0)%float.
Proof.
  intros HP. apply Prim2SF_inj. rewrite div_spec, !Prim2SF_of_uint by lia.
  destruct P as [|p|p]; try lia. reflexivity.
Qed.

Lemma int_times_zero E :
  0 <= E < 2 ^ 53 -> Prim2SF (IEEE.float_of_uint E * 0)%float = S754_zero false.
Proof.
  intros HE. rewrite mul_spec, Prim2SF_of_uint by lia.
  destruct E as [|e|e]; try lia; reflexivity.
Qed.

Lemma int_times_one E :
  0 <= E < 2 ^ 53 -> (IEEE.float_of_uint E * 1 = IEEE.float_of_uint E)%float.
Proof.
  intros HE. apply Prim2SF_inj.
  rewrite (@Prim2SF_mul_int _ _ E 1); try lia.
  - rewrite Z.mul_1_r. symmetry. apply Prim2SF_of_uint. lia.
  - apply Prim2SF_of_uint. lia.
  - reflexivity.
Qed.

Lemma zero_times_quotient t x y :
  Prim2SF t = S754_zero false -> 0 <= x < 2 ^ 53 -> 1 <= y < 2 ^ 53 ->
  Prim2SF (t * (IEEE.float_of_uint x / IEEE.float_of_uint y))%float
  = S754_zero false.
Proof.
  intros Ht Hx Hy. rewrite mul_spec, div_spec, !Prim2SF_of_uint, Ht by lia.
  destruct (@SFdiv_int_finite x y ltac:(lia) ltac:(lia)) as [F S].
  apply (SFmul_zero_finite _ F S).
Qed.

Lemma cr_num_none_left E P :
  0 <= E < 2 ^ 53 -> 1 <= P < 2 ^ 53 ->
  Prim2SF (IEEE.float_of_uint 0
           - IEEE.float_of_uint E
             * (IEEE.float_of_uint 0 / IEEE.float_of_uint P))%float
  = S754_zero false.
Proof.
  intros HE HP. rewrite zero_ratio by assumption.
  rewrite sub_spec, int_times_zero by assumption. reflexivity.
Qed.

Lemma cr_num_all_left E P :
  0 <= E < 2 ^ 53 -> 1 <= P < 2 ^ 53 ->
  exists s,
    Prim2SF (IEEE.float_of_uint E
             - IEEE.float_of_uint E
               * (IEEE.float_of_uint P / IEEE.float_of_uint P))%float
    = S754_zero s.
Proof.
  intros HE HP. rewrite one_ratio, int_times_one by assumption.
  rewrite sub_spec, Prim2SF_of_uint by lia.
  apply SFsub_eq.
  - destruct E as [|e|e]; try lia; [reflexivity|].
    unfold SFint. simpl. rewrite Z.compare_refl, Pos.compare_refl. reflexivity.
  - destruct E; try reflexivity; lia.
Qed.

Lemma cr_lead_none_left E P :
  0 <= E < 2 ^ 53 -> 1 <= P < 2 ^ 53 ->
  Prim2SF (IEEE.float_of_uint E
           * (IEEE.float_of_uint 0 / IEEE.float_of_uint P)
           * (IEEE.float_of_uint 1
              - IEEE.float_of_uint 0 / IEEE.float_of_uint P))%float
  = S754_zero false.
Proof.
  intros HE HP. rewrite zero_ratio by assumption.
  rewrite mul_spec, int_times_zero by assumption. reflexivity.
Qed.

Lemma cr_lead_all_left E P :
  0 <= E < 2 ^ 53 -> 1 <= P < 2 ^ 53 ->
  Prim2SF (IEEE.float_of_uint E
           * (IEEE.float_of_uint P / IEEE.float_of_uint P)
           * (IEEE.float_of_uint 1
              - IEEE.float_of_uint P / IEEE.float_of_uint P))%float
  = S754_zero false.
Proof.
  intros HE HP. rewrite one_ratio, int_times_one by assumption.
  change (IEEE.float_of_uint 1 - 1)%float with 0%float.
  now apply int_times_zero.
Qed.

Lemma add_zeros l (f : nat -> float) :
  (forall k, In k l -> exists s, Prim2SF (f k) = S754_zero s) ->
  fold_left (fun s k => (s + f k)%float) l 0%float = 0%float.
Proof.
  induction l as [|k l IH]; intros H; [reflexivity|].
  cbn [fold_left]. destruct (H k (in_eq _ _)) as [s Hs].
  assert (0 + f k = 0)%float as ->.
  { apply Prim2SF_inj. rewrite add_spec, Hs. apply SFadd_zero_any. }
  apply IH. intros k' Hk'. apply H. now right.
Qed.

Lemma add_guarded_zeros l (g : nat -> bool) (f : nat -> float) :
  (forall k, In k l -> g k = true -> Prim2SF (f k) = S754_zero false) ->
  fold_left (fun s k => if g k then (s + f k)%float else s) l 0%float
  = 0%float.
Proof.
  induction l as [|k l IH]; intros H; [reflexivity|].
  cbn [fold_left].
  assert ((if g k then (0 + f k)%float else 0%float) = 0%float) as ->.
  { destruct (g k) eqn:G; [|reflexivity].
    apply Prim2SF_inj. rewrite add_spec, (H k (in_eq _ _) G). reflexivity. }
  apply IH. intros k' Hk'. apply H. now right.
Qed.

Lemma logrankCR_zero (a : Node float) (c : cr_counts) :
  (forall j k, (1 <= j <= eventTypeSize a)%nat ->
     (1 <= k <= eventTimeSize a)%nat ->
     (exists s, Prim2SF (cr_num c j k) = S754_zero s)
     /\ (2 <= get (nodeParentAtRisk (vectors c)) k ->
         Prim2SF (cr_den c j k) = S754_zero false)) ->
  logrankCR a c = (0%float, 0%float).
Proof.
  intros H. unfold logrankCR. change (@d0 float float_ops) with 0%float.
  assert (forall l, (forall j, In j l -> (1 <= j <= eventTypeSize a)%nat) ->
            fold_left (cr_cause a c) l (0%float, 0%float)
            = (0%float, 0%float)) as Hl.
  { induction l as [|j l IH]; intros Hr; [reflexivity|].
    cbn [fold_left]. unfold cr_cause at 2.
    change (@d0 float float_ops) with 0%float.
    change (@dadd float float_ops) with PrimFloat.add.
    rewrite (@add_zeros (seq 1 (eventTimeSize a)) (cr_num c j)).
    2:{ intros k Hk. apply in_seq in Hk.
        apply (H j k); [apply Hr, in_eq | lia]. }
    rewrite (@add_guarded_zeros (seq 1 (eventTimeSize a))
               (fun k => (2 <=? get (nodeParentAtRisk (vectors c)) k))
               (cr_den c j)).
    2:{ intros k Hk G. apply in_seq in Hk. apply Z.leb_le in G.
        apply (H j k); [apply Hr, in_eq | lia | exact G]. }
    apply IH. intros j' Hj'. apply Hr. now right. }
  apply Hl. intros j Hj. apply in_seq in Hj. lia.
Qed.

End CRZeroTerms.

(** * Signs of sums, squares and counts *)

Module SumSign.

Import Binary64.
Local Open Scope Z_scope.

Lemma binary_round_signed s m e : signed s (binary_round prec emax s m e).
Proof.
  unfold binary_round. destruct (shl_align _ _ _) as [mz ez].
  apply bra_signed.
Qed.

Lemma SFadd_signed x y :
  signed false x -> signed false y -> signed false (SFadd prec emax x y).
Proof.
  destruct x as [sx|sx| |sx mx ex], y as [sy|sy| |sy my ey]; simpl;
    intros Hx Hy; subst; try exact I; try exact eq_refl.
  unfold binary_normalize. apply binary_round_signed.
Qed.

Lemma SFmul_self_signed x : signed false (SFmul prec emax x x).
Proof.
  destruct x as [s|s| |s m e]; simpl; try exact I; try (now destruct s).
  replace (xorb s s) with false by (now destruct s). apply bra_signed.
Qed.

(** A converted unsigned integer has a clear sign bit. *)
Lemma of_uint_signed z : signed false (Prim2SF (IEEE.float_of_uint z)).
Proof.
  unfold IEEE.float_of_uint. rewrite of_uint63_spec.
  pose proof (Uint63.to_Z_bounded (Uint63.of_Z z)) as [H _].
  unfold binary_normalize.
  destruct (Uint63.to_Z (Uint63.of_Z z)) as [|p|p]; [exact eq_refl| |lia].
  apply binary_round_signed.
Qed.

Lemma square_signed (x : float) : signed false (Prim2SF (x * x)%float).
Proof. rewrite mul_spec. apply SFmul_self_signed. Qed.

Lemma positive_signed (v : float) :
  PrimFloat.ltb 0 v = true -> signed false (Prim2SF v).
Proof.
  rewrite ltb_spec. change (Prim2SF 0) with (S754_zero false).
  destruct (Prim2SF v) as [s|s| |s m e]; simpl; try discriminate;
    destruct s; try discriminate; reflexivity.
Qed.

(** A square over a count times a positive number. *)
Lemma scaled_square_signed (x v : float) z :
  signed false (Prim2SF v) ->
  signed false (Prim2SF (x * x / (IEEE.float_of_uint z * v))%float).
Proof.
  intros Hv. rewrite div_spec, (mul_spec (IEEE.float_of_uint z) v).
  apply Sign.SFdiv_signed; [apply square_signed|].
  apply Sign.SFmul_signed; [apply of_uint_signed | exact Hv].
Qed.

Lemma add_signed (x y : float) :
  signed false (Prim2SF x) -> signed false (Prim2SF y) ->
  signed false (Prim2SF (x + y)%float).
Proof. intros Hx Hy. rewrite add_spec. now apply SFadd_signed. Qed.

Lemma sum_squares_signed (a : Node float) v :
  signed false (Prim2SF (sum_squares a v)).
Proof.
  unfold sum_squares.
  assert (forall l s, signed false (Prim2SF s) ->
            signed false
              (Prim2SF (fold_left
                          (fun s p => dadd s (dpow2 (of_uint (get v p))))
                          l s))) as H.
  { induction l as [|p l IH]; intros s Hs; [exact Hs|].
    cbn [fold_left]. apply IH. apply add_signed; [exact Hs|].
    apply square_signed. }
  apply H. exact eq_refl.
Qed.

End SumSign.

(** * The absolute difference does not depend on the order *)

Module AbsDiff.

Import Binary64.
Local Open Scope Z_scope.

Lemma SFabs_bra s s' m e l : SFabs (bra s m e l) = SFabs (bra s' m e l).
Proof.
  unfold binary_round_aux.
  destruct (shr_fexp prec emax m e l) as [mrs' e'].
  destruct (shr_fexp prec emax _ e' loc_Exact) as [mrs'' e''].
  destruct (shr_m mrs''); try reflexivity.
  destruct (_ <=? _); reflexivity.
Qed.

Lemma SFabs_binary_round s s' m e :
  SFabs (binary_round prec emax s m e) = SFabs (binary_round prec emax s' m e).
Proof.
  unfold binary_round. destruct (shl_align _ _ _) as [mz ez].
  apply SFabs_bra.
Qed.

Lemma SFabs_binary_normalize m e :
  SFabs (binary_normalize prec emax m e false)
  = SFabs (binary_normalize prec emax (- m) e false).
Proof.
  destruct m as [|p|p]; [reflexivity| |]; cbn [Z.opp binary_normalize];
    apply SFabs_binary_round.
Qed.

Lemma SFabs_sub_comm x y :
  SFabs (SFsub prec emax x y) = SFabs (SFsub prec emax y x).
Proof.
  destruct x as [sx|sx| |sx mx ex], y as [sy|sy| |sy my ey];
    try reflexivity; try (destruct sx, sy; reflexivity).
  cbn [SFsub]. rewrite (Z.min_comm ey ex).
  rewrite SFabs_binary_normalize. f_equal. f_equal. lia.
Qed.

Lemma abs_sub_comm (x y : float) :
  PrimFloat.abs (x - y) = PrimFloat.abs (y - x).
Proof.
  apply Prim2SF_inj. rewrite !abs_spec, !sub_spec. apply SFabs_sub_comm.
Qed.

End AbsDiff.

Section SwapBlocks.

Context {D : Type} {ops : DoubleOps D}.
Variable a : Node D.
Hypothesis Hlen : (n a <= length (membership a))%nat.

Lemma sizes_swap :
  leftSize (swap_daughters a) = rghtSize a
  /\ rghtSize (swap_daughters a) = leftSize a.
Proof.
  unfold leftSize, rghtSize, count_left, count_right.
  cbn [n swap_daughters]. split; f_equal; f_equal; apply filter_ext_in;
    intros i Hi; apply in_seq in Hi;
    rewrite (@on_left_swap _ a Hlen) by lia; [reflexivity | apply negb_involutive].
Qed.

Lemma block_swap side lo len :
  block (swap_daughters a) side lo len = block a (negb side) lo len.
Proof.
  unfold block. cbn [n swap_daughters].
  rewrite (@filter_ext_in _
             (fun i => Bool.eqb (on_left (swap_daughters a) i) side)
             (fun i => Bool.eqb (on_left a i) (negb side))).
  - reflexivity.
  - intros i Hi. apply in_seq in Hi. rewrite (@on_left_swap _ a Hlen) by lia.
    now destruct (on_left a i), side.
Qed.

End SwapBlocks.

(** * The survival counts of a node with its daughters exchanged *)

Lemma suffix_sub v p l :
  length v = length p -> length l = length p ->
  (forall m, get v m = get p m - get l m)%Z ->
  forall k, (suffix v k = suffix p k - suffix l k)%Z.
Proof.
  intros Lv Ll H.
  assert (forall d k, (length p <= k + d)%nat ->
            (suffix v k = suffix p k - suffix l k)%Z) as G.
  { induction d as [|d IH]; intros k Hk.
    - rewrite !suffix_overflow by lia. reflexivity.
    - rewrite (suffix_step' v k), (suffix_step' p k), (suffix_step' l k).
      rewrite H, (IH (S k)) by lia. lia. }
  intros k. apply (G (length p) k). lia.
Qed.

Section Mirror.

Context {D : Type} {ops : DoubleOps D}.
Variable a : Node D.
Hypothesis Hlen : (n a <= length (membership a))%nat.
Local Open Scope Z_scope.

Local Abbreviation a' := (swap_daughters a).

Lemma reset_mirror ets : mirror (reset_counts ets) (reset_counts ets).
Proof.
  pose proof (reset_counts_ok ets) as Hok.
  constructor; try reflexivity; intros m.
  - pose proof (get_le_total m Hok) as Ht. rewrite total_reset in Ht.
    pose proof (ok_la Hok m). pose proof (ok_la_pa Hok m). lia.
  - pose proof (get_le_total m Hok) as Ht. rewrite total_reset in Ht.
    pose proof (ok_le Hok m). pose proof (ok_le_pe Hok m).
    pose proof (ok_pe_pa Hok m). lia.
Qed.

Lemma at_risk_mirror ets i k c c' :
  (1 <= i <= n a)%nat -> (k <= ets)%nat ->
  counts_ok ets c -> total c + 1 < modulus -> mirror c c' ->
  mirror (at_risk a i k c) (at_risk a' i k c').
Proof.
  intros Hi Hk H Ht M.
  pose proof (get_le_total k H) as Hpa.
  pose proof (ok_le H k) as H1. pose proof (ok_la H k) as H2.
  pose proof (ok_le_pe H k) as H3. pose proof (ok_le_la H k) as H4.
  pose proof (ok_pe_pa H k) as H5. pose proof (ok_la_pa H k) as H6.
  pose proof (ok_len_le H) as L1. pose proof (ok_len_pe H) as L2.
  pose proof (ok_len_la H) as L3. pose proof (ok_len_pa H) as L4.
  destruct M as [Mpa Mpe Mla Mle Gla Gle].
  pose proof (Gla k) as Gk. pose proof (Gle k) as Ek.
  unfold at_risk. rewrite (@on_left_swap _ a Hlen i Hi).
  change (died a' i k) with (died a i k).
  constructor; cbn [nodeParentAtRisk nodeParentEvent nodeLeftAtRisk
                    nodeLeftEvent].
  - now rewrite Mpa.
  - now rewrite Mpe.
  - destruct (on_left a i); cbn [negb]; rewrite ?length_incr; exact Mla.
  - destruct (died a i k), (on_left a i); cbn [negb andb];
      rewrite ?length_incr; exact Mle.
  - intros m. destruct (Nat.eq_dec k m) as [<-|Hne].
    + rewrite (@get_incr_eq (nodeParentAtRisk c) k) by lia.
      destruct (on_left a i); cbn [negb].
      * rewrite (@get_incr_eq (nodeLeftAtRisk c) k) by lia. lia.
      * rewrite (@get_incr_eq (nodeLeftAtRisk c') k) by lia. lia.
    + rewrite (@get_incr_neq (nodeParentAtRisk c) k m) by assumption.
      destruct (on_left a i); cbn [negb];
        rewrite ?get_incr_neq by assumption; apply Gla.
  - intros m. destruct (died a i k); cbn [andb]; [|apply Gle].
    destruct (Nat.eq_dec k m) as [<-|Hne].
    + rewrite (@get_incr_eq (nodeParentEvent c) k) by lia.
      destruct (on_left a i); cbn [negb].
      * rewrite (@get_incr_eq (nodeLeftEvent c) k) by lia. lia.
      * rewrite (@get_incr_eq (nodeLeftEvent c') k) by lia. lia.
    + rewrite (@get_incr_neq (nodeParentEvent c) k m) by assumption.
      destruct (on_left a i); cbn [negb];
        rewrite ?get_incr_neq by assumption; apply Gle.
Qed.

Lemma sweep_mirror ets k i c c' :
  (i <= n a)%nat -> (k <= ets)%nat ->
  counts_ok ets c -> total c + Z.of_nat i < modulus -> mirror c c' ->
  mirror (sweep a k i c) (sweep a' k i c').
Proof.
  revert i c c'. induction k as [|k IHk]; intros i c c' Hi Hk H Ht M;
    [exact M|].
  revert c c' H Ht M. induction i as [|i IHi]; intros c c' H Ht M.
  - rewrite !sweep_0_r. exact M.
  - rewrite !sweep_S_S.
    change (still_at_risk a' (S i) (S k)) with (still_at_risk a (S i) (S k)).
    destruct (still_at_risk a (S i) (S k)).
    + apply IHi.
      * lia.
      * apply (@at_risk_ok _ _ a ets); [exact H | exact Hk | lia].
      * unfold total.
        rewrite (@at_risk_suffix _ _ a ets (S i) (S k) c 0%nat H Hk ltac:(lia)).
        cbn [Nat.leb]. unfold total in Ht. lia.
      * apply (@at_risk_mirror ets); [lia | exact Hk | exact H | lia | exact M].
    + apply IHk; [lia | lia | exact H | exact Ht | exact M].
Qed.

Hypothesis Hn : n_fits a.

(** The four counts of the exchanged node at an event time. *)
Lemma survival_mirror k :
  (1 <= k <= eventTimeSize a)%nat ->
  get (nodeParentAtRisk (survival_counts a')) k
  = get (nodeParentAtRisk (survival_counts a)) k
  /\ get (nodeParentEvent (survival_counts a')) k
     = get (nodeParentEvent (survival_counts a)) k
  /\ get (nodeLeftAtRisk (survival_counts a')) k
     = get (nodeParentAtRisk (survival_counts a)) k
       - get (nodeLeftAtRisk (survival_counts a)) k
  /\ get (nodeLeftEvent (survival_counts a')) k
     = get (nodeParentEvent (survival_counts a)) k
       - get (nodeLeftEvent (survival_counts a)) k.
Proof.
  intros Hk.
  assert (n_fits a') as Hn' by exact Hn.
  pose proof (@sweep_mirror (eventTimeSize a) (eventTimeSize a) (n a)
                (reset_counts (eventTimeSize a))
                (reset_counts (eventTimeSize a))
                (Nat.le_refl _) (Nat.le_refl _) (reset_counts_ok _)) as M.
  rewrite total_reset in M. specialize (M Hn (reset_mirror _)).
  destruct (raw_ok Hn) as [Hok _]. destruct (raw_ok Hn') as [Hok' _].
  destruct (step_function_events (eventTimeSize a)
              (sweep a (eventTimeSize a) (n a)
                 (reset_counts (eventTimeSize a)))) as [Epe Ele].
  destruct (step_function_events (eventTimeSize a)
              (sweep a' (eventTimeSize a) (n a)
                 (reset_counts (eventTimeSize a)))) as [Epe' Ele'].
  fold (survival_counts a) in Epe, Ele.
  change (step_function (eventTimeSize a)
            (sweep a' (eventTimeSize a) (n a)
               (reset_counts (eventTimeSize a))))
    with (survival_counts a') in Epe', Ele'.
  rewrite (survival_pa Hn'), (survival_la Hn') by exact Hk.
  rewrite (survival_pa Hn), (survival_la Hn) by exact Hk.
  rewrite Epe, Ele, Epe', Ele'.
  cbn [n eventTimeSize swap_daughters].
  rewrite (mir_pa M), (mir_pe M), (mir_le M).
  repeat split.
  apply suffix_sub; [| |apply (mir_la M)].
  - rewrite (mir_len_la M), (ok_len_la Hok), (ok_len_pa Hok). reflexivity.
  - rewrite (ok_len_la Hok), (ok_len_pa Hok). reflexivity.
Qed.

End Mirror.

(** * The log-rank sums in exact arithmetic *)

Module ExactFacts.

Local Open Scope R_scope.

Lemma Rleb_true x y : Exact.Rleb x y = true <-> x <= y.
Proof. unfold Exact.Rleb. destruct (Rle_dec x y); split; intros; auto; discriminate. Qed.

Lemma Reqb_true x y : Exact.Reqb x y = true <-> x = y.
Proof. unfold Exact.Reqb. destruct (Req_dec_T x y); split; intros; auto; discriminate. Qed.

Lemma Rltb_true x y : Exact.Rltb x y = true <-> x < y.
Proof. unfold Exact.Rltb. destruct (Rlt_dec x y); split; intros; auto; discriminate. Qed.

(** An event time that is the time of an observation is at most the time
    of every later observation. *)
Lemma observed_at_risk_exact (a : Node R) k i0 :
  time_sorted a -> (1 <= i0)%nat -> died a i0 k = true ->
  forall i, (i0 <= i <= n a)%nat -> still_at_risk a i k = true.
Proof.
  intros Hs Hi0 Hd i Hi. unfold died in Hd. apply andb_prop in Hd as [Hd _].
  apply Reqb_true in Hd. unfold still_at_risk. apply Rleb_true.
  rewrite Hd. apply Rleb_true. apply Hs; lia.
Qed.

(** Sums of opposite terms are opposite. *)
Lemma fold_opp (f g : nat -> R) l s :
  (forall k, In k l -> g k = - f k) ->
  fold_left (fun s k => s + g k) l (- s)
  = - fold_left (fun s k => s + f k) l s.
Proof.
  revert s. induction l as [|k l IH]; intros s H; [reflexivity|].
  cbn [fold_left]. rewrite (H k (in_eq _ _)).
  replace (- s + - f k) with (- (s + f k)) by ring.
  apply IH. intros k' Hk'. apply H. now right.
Qed.

Lemma fold_guarded_ext (f g : nat -> R) (b b' : nat -> bool) l s :
  (forall k, In k l -> b' k = b k /\ (b k = true -> g k = f k)) ->
  fold_left (fun s k => if b' k then s + g k else s) l s
  = fold_left (fun s k => if b k then s + f k else s) l s.
Proof.
  revert s. induction l as [|k l IH]; intros s H; [reflexivity|].
  cbn [fold_left]. destruct (H k (in_eq _ _)) as [-> E].
  destruct (b k); [rewrite E by reflexivity|];
    apply IH; intros k' Hk'; apply H; now right.
Qed.

(** The numerator term after the exchange of the daughters. *)
Lemma num_mirror (LE LA PE PA : Z) :
  (1 <= PA)%Z ->
  IZR (PE - LE) - IZR ((PA - LA) * PE) / IZR PA
  = - (IZR LE - IZR (LA * PE) / IZR PA).
Proof.
  intros HP. rewrite !minus_IZR, !mult_IZR, minus_IZR.
  assert (IZR PA <> 0) by (apply not_0_IZR; lia).
  field. assumption.
Qed.

(** The denominator term after the exchange of the daughters. *)
Lemma den_mirror (LA PA : Z) (x e : R) :
  (1 <= PA)%Z ->
  IZR (PA - LA) / IZR PA * (1 - IZR (PA - LA) / IZR PA) * x * e
  = IZR LA / IZR PA * (1 - IZR LA / IZR PA) * x * e.
Proof.
  intros HP. rewrite !minus_IZR.
  assert (IZR PA <> 0) by (apply not_0_IZR; lia).
  field. assumption.
Qed.

End ExactFacts.

(** * The competing-risk counts of a node with its daughters exchanged *)

Lemma sum_over_sub f g h l :
  (forall x, In x l -> f x = g x - h x)%Z ->
  (sum_over f l = sum_over g l - sum_over h l)%Z.
Proof.
  induction l as [|x l IH]; intros H; [reflexivity|].
  rewrite !sum_over_cons, (H x (in_eq _ _)), IH; [lia|].
  intros y Hy. apply H. now right.
Qed.

Section CRMirror.

Context {D : Type} {ops : DoubleOps D}.
Variable a : Node D.
Hypothesis Hlen : (n a <= length (membership a))%nat.
Local Open Scope Z_scope.

Local Abbreviation a' := (swap_daughters a).
Local Abbreviation ntype := (eventTypeSize a).
Local Abbreviation ets := (eventTimeSize a).

Lemma cr_mirror_reset :
  cr_mirror ntype ets (reset_cr_counts a) (reset_cr_counts a').
Proof.
  change (reset_cr_counts a') with (reset_cr_counts a).
  unfold reset_cr_counts. rewrite reset_cr_matrix_alloc.
  constructor; cbn [nodeParentEventCR nodeLeftEventCR].
  - reflexivity.
  - apply alloc_uimatrix_ok.
  - intros r s. rewrite get_alloc_uimatrix. lia.
Qed.

Lemma cr_at_risk_mirror i k c c' v c1 :
  (1 <= i <= n a)%nat -> (k <= ets)%nat ->
  cr_sim ntype ets c v -> counts_ok ets v -> total v + 1 < modulus ->
  cr_mirror ntype ets c c' ->
  cr_at_risk a i k c = Some c1 ->
  exists c1', cr_at_risk a' i k c' = Some c1' /\ cr_mirror ntype ets c1 c1'.
Proof.
  intros Hi Hk H Hv Ht M. unfold cr_at_risk.
  rewrite (@on_left_swap _ a Hlen i Hi).
  change (died a' i k) with (died a i k).
  change (cause_of a' i) with (cause_of a i).
  destruct M as [Mpe Mlm Mcell].
  destruct (died a i k).
  2:{ intros [= <-]. eexists. split; [reflexivity|].
      constructor; cbn [nodeParentEventCR nodeLeftEventCR]; assumption. }
  destruct (cause_of a i) as [e|] eqn:Ec; [|discriminate].
  apply cause_of_range in Ec.
  pose proof (cr_cell_bound a k H Hv Ec) as Hb.
  pose proof (sim_cell H e k) as Hc.
  pose proof (sim_pmat H) as Hpm. pose proof (sim_lmat H) as Hlm.
  pose proof (Mcell e k) as Hek.
  intros [= <-]. eexists. split; [reflexivity|].
  constructor; cbn [nodeParentEventCR nodeLeftEventCR].
  - now rewrite Mpe.
  - destruct (on_left a i); cbn [negb]; [exact Mlm | now apply mat_ok_incr].
  - intros r s.
    destruct (Nat.eq_dec e r) as [<-|Hr];
      [destruct (Nat.eq_dec k s) as [<-|Hs]|].
    + rewrite (mget_incr_eq Hpm Ec Hk) by lia.
      destruct (on_left a i); cbn [negb].
      * rewrite (mget_incr_eq Hlm Ec Hk) by lia. lia.
      * rewrite (mget_incr_eq Mlm Ec Hk) by lia. lia.
    + rewrite (@mget_incr_neq (nodeParentEventCR c)) by congruence.
      destruct (on_left a i); cbn [negb];
        rewrite ?mget_incr_neq by congruence; apply Mcell.
    + rewrite (@mget_incr_neq (nodeParentEventCR c)) by congruence.
      destruct (on_left a i); cbn [negb];
        rewrite ?mget_incr_neq by congruence; apply Mcell.
Qed.

Lemma cr_sweep_mirror k i c c' v c1 :
  (i <= n a)%nat -> (k <= ets)%nat ->
  cr_sim ntype ets c v -> counts_ok ets v ->
  total v + Z.of_nat i < modulus ->
  cr_mirror ntype ets c c' ->
  cr_sweep a k i c = Some c1 ->
  exists c1', cr_sweep a' k i c' = Some c1' /\ cr_mirror ntype ets c1 c1'.
Proof.
  revert i c c' v. induction k as [|k IHk]; intros i c c' v Hi Hk H Hv Ht M.
  - intros [= <-]. exists c'. split; [reflexivity | exact M].
  - revert c c' v H Hv Ht M. induction i as [|i IHi]; intros c c' v H Hv Ht M.
    + rewrite !cr_sweep_0_r. intros [= <-]. exists c'.
      split; [reflexivity | exact M].
    + rewrite !cr_sweep_S_S.
      change (still_at_risk a' (S i) (S k))
        with (still_at_risk a (S i) (S k)).
      destruct (still_at_risk a (S i) (S k)).
      * destruct (cr_at_risk a (S i) (S k) c) as [c2|] eqn:E2;
          [|discriminate].
        destruct (@cr_at_risk_mirror (S i) (S k) c c' v c2)
          as (c2' & E2' & M2); try assumption; try lia.
        rewrite E2'. intros E.
        apply (IHi ltac:(lia) c2 c2' (at_risk a (S i) (S k) v)).
        -- eapply cr_at_risk_sim; eauto; lia.
        -- apply at_risk_ok; [assumption | lia | lia].
        -- unfold total.
           rewrite (@at_risk_suffix D ops a ets (S i) (S k) v 0%nat Hv Hk)
             by lia.
           cbn [Nat.leb]. unfold total in Ht. lia.
        -- exact M2.
        -- exact E.
      * intros E. apply (IHk (S i) c c' v); auto. lia.
Qed.

(** The event matrices after the last loops are those of the sweep. *)
Lemma competing_risk_counts_matrices (b : Node D) c :
  competing_risk_counts b = Some c ->
  exists c1,
    cr_sweep b (eventTimeSize b) (n b) (reset_cr_counts b) = Some c1
    /\ nodeParentEventCR c = nodeParentEventCR c1
    /\ nodeLeftEventCR c = nodeLeftEventCR c1.
Proof.
  unfold competing_risk_counts.
  destruct (cr_sweep b _ _ _) as [c1|]; [|discriminate].
  intros [= <-]. exists c1. split; [reflexivity|].
  pose proof (inclusive_at_risk_rel b (cr_step_function b c1)) as R.
  rewrite (ir_pecr R), (ir_lecr R). split; reflexivity.
Qed.

Hypothesis Hn : n_fits a.
Hypothesis Hc : causes_in_range a.

Lemma cr_counts_mirror :
  exists c c',
    competing_risk_counts a = Some c /\ competing_risk_counts a' = Some c'
    /\ cr_spec a c /\ cr_spec a' c'
    /\ nodeParentEventCR c' = nodeParentEventCR c
    /\ forall r s,
         UIMatrix.get (nodeLeftEventCR c') r s
         = UIMatrix.get (nodeParentEventCR c) r s
           - UIMatrix.get (nodeLeftEventCR c) r s.
Proof.
  assert (n_fits a') as Hn' by exact Hn.
  assert (causes_in_range a') as Hc' by exact Hc.
  destruct (competing_risk_counts_spec Hn Hc) as (c & Ec & Sc).
  destruct (competing_risk_counts_spec Hn' Hc') as (c' & Ec' & Sc').
  exists c, c'. repeat (split; [assumption|]).
  destruct (competing_risk_counts_matrices _ Ec) as (c1 & E1 & P1 & L1).
  destruct (competing_risk_counts_matrices _ Ec') as (c1' & E1' & P1' & L1').
  cbn [n eventTimeSize swap_daughters] in E1'.
  destruct (@cr_sweep_mirror ets (n a) (reset_cr_counts a)
              (reset_cr_counts a') (reset_counts ets) c1)
    as (c2 & E2 & M); try lia.
  - apply cr_sim_reset.
  - apply reset_counts_ok.
  - rewrite total_reset. exact Hn.
  - apply cr_mirror_reset.
  - exact E1.
  - rewrite E1' in E2. injection E2 as <-.
    rewrite P1, L1, P1', L1'. split; [apply (cm_pe M) | apply (cm_cell M)].
Qed.

End CRMirror.

(** * The cells of the competing-risk rule after the exchange *)

Section CRMirrorCells.

Context {D : Type} {ops : DoubleOps D}.
Variable a : Node D.
Hypothesis Hlen : (n a <= length (membership a))%nat.
Hypothesis Hn : n_fits a.
Variables c c' : cr_counts.
Hypothesis Sc : cr_spec a c.
Hypothesis Sc' : cr_spec (swap_daughters a) c'.
Hypothesis EP : nodeParentEventCR c' = nodeParentEventCR c.
Hypothesis EL : forall r s,
  (UIMatrix.get (nodeLeftEventCR c') r s
   = UIMatrix.get (nodeParentEventCR c) r s
     - UIMatrix.get (nodeLeftEventCR c) r s)%Z.
Local Open Scope Z_scope.

Lemma other_events_mirror j k :
  other_events (eventTypeSize a) (nodeLeftEventCR c') j k
  = other_events (eventTypeSize a) (nodeParentEventCR c) j k
    - other_events (eventTypeSize a) (nodeLeftEventCR c) j k.
Proof.
  unfold other_events. apply sum_over_sub. intros s _.
  unfold others. apply sum_over_sub. intros r _.
  destruct (Nat.eqb j r); [reflexivity | apply EL].
Qed.

Lemma inclusive_mirror j k :
  (1 <= j <= eventTypeSize a)%nat -> (1 <= k <= eventTimeSize a)%nat ->
  get (nodeParentAtRisk (vectors c')) k = get (nodeParentAtRisk (vectors c)) k
  /\ UIMatrix.get (nodeParentInclusiveAtRisk c') j k
     = UIMatrix.get (nodeParentInclusiveAtRisk c) j k
  /\ UIMatrix.get (nodeLeftInclusiveAtRisk c') j k
     = UIMatrix.get (nodeParentInclusiveAtRisk c) j k
       - UIMatrix.get (nodeLeftInclusiveAtRisk c) j k.
Proof.
  intros Hj Hk.
  destruct (survival_mirror Hlen Hn Hk) as (E1 & _ & E3 & _).
  pose proof (crs_pi Sc' Hj Hk) as P'. pose proof (crs_li Sc' Hj Hk) as L'.
  cbn [eventTypeSize swap_daughters] in P', L'.
  rewrite P', L', (crs_pi Sc Hj Hk), (crs_li Sc Hj Hk).
  rewrite (crs_pa Sc'), (crs_la Sc'), (crs_pa Sc), (crs_la Sc).
  rewrite E1, E3, EP, other_events_mirror.
  repeat split; lia.
Qed.

End CRMirrorCells.

Module ExactCR.

Local Open Scope R_scope.

Lemma cr_num_mirror (LE PE LI PI : Z) :
  (1 <= PI)%Z ->
  IZR (PE - LE) - IZR PE * (IZR (PI - LI) / IZR PI)
  = - (IZR LE - IZR PE * (IZR LI / IZR PI)).
Proof.
  intros HP. rewrite !minus_IZR.
  assert (IZR PI <> 0) by (apply not_0_IZR; lia).
  field. assumption.
Qed.

Lemma cr_den_mirror (PE LI PI : Z) (x : R) :
  (1 <= PI)%Z ->
  IZR PE * (IZR (PI - LI) / IZR PI) * (1 - IZR (PI - LI) / IZR PI) * x
  = IZR PE * (IZR LI / IZR PI) * (1 - IZR LI / IZR PI) * x.
Proof.
  intros HP. rewrite !minus_IZR.
  assert (IZR PI <> 0) by (apply not_0_IZR; lia).
  field. assumption.
Qed.

(** The sums over the causes, once every term of the numerator has
    changed its sign and no term of the denominator has changed. *)
Lemma logrankCR_mirror (a b : Node R) (c c' : cr_counts) :
  eventTypeSize b = eventTypeSize a -> eventTimeSize b = eventTimeSize a ->
  (forall j k, (1 <= j <= eventTypeSize a)%nat ->
     (1 <= k <= eventTimeSize a)%nat ->
     cr_num c' j k = - cr_num c j k
     /\ get (nodeParentAtRisk (vectors c')) k
        = get (nodeParentAtRisk (vectors c)) k
     /\ cr_den c' j k = cr_den c j k) ->
  logrankCR b c' = (- fst (logrankCR a c), snd (logrankCR a c)).
Proof.
  intros Ety Ets H. unfold logrankCR. rewrite Ety.
  assert (forall l x y,
            (forall j, In j l -> (1 <= j <= eventTypeSize a)%nat) ->
            fold_left (cr_cause b c') l (- x, y)
            = (- fst (fold_left (cr_cause a c) l (x, y)),
               snd (fold_left (cr_cause a c) l (x, y)))) as G.
  { induction l as [|j l IH]; intros x y Hl; [reflexivity|].
    cbn [fold_left]. unfold cr_cause at 2 4 6. rewrite Ets.
    cbn [dadd real_ops]. unfold d0. cbn [of_uint real_ops].
    assert (fold_left (fun s k => s + cr_num c' j k)
              (seq 1 (eventTimeSize a)) (IZR 0)
            = - fold_left (fun s k => s + cr_num c j k)
                  (seq 1 (eventTimeSize a)) (IZR 0)) as ->.
    { replace (IZR 0) with (- IZR 0) at 1 by (simpl; ring).
      apply ExactFacts.fold_opp. intros k Hk. apply in_seq in Hk.
      apply (H j k); [apply Hl, in_eq | lia]. }
    assert (fold_left
              (fun s k =>
                 if (2 <=? get (nodeParentAtRisk (vectors c')) k)%Z
                 then s + cr_den c' j k else s)
              (seq 1 (eventTimeSize a)) (IZR 0)
            = fold_left
                (fun s k =>
                   if (2 <=? get (nodeParentAtRisk (vectors c)) k)%Z
                   then s + cr_den c j k else s)
                (seq 1 (eventTimeSize a)) (IZR 0)) as ->.
    { apply (@ExactFacts.fold_guarded_ext (cr_den c j) (cr_den c' j)
               (fun k => (2 <=? get (nodeParentAtRisk (vectors c)) k)%Z)
               (fun k => (2 <=? get (nodeParentAtRisk (vectors c')) k)%Z)).
      intros k Hk. apply in_seq in Hk.
      destruct (H j k) as (_ & E2 & E3); [apply Hl, in_eq | lia |].
      rewrite E2. split; [reflexivity | intros _; exact E3]. }
    match goal with
    | |- fold_left _ _ (- x + - ?u, ?v) = _ =>
        replace (- x + - u) with (- (x + u)) by ring
    end.
    apply IH. intros j' Hj'. apply Hl. now right. }
  unfold d0. cbn [of_uint real_ops].
  replace (IZR 0) with (- IZR 0) at 1 by (simpl; ring).
  apply G. intros j Hj. apply in_seq in Hj. lia.
Qed.

End ExactCR.

(** * The sweeps read the times through two comparisons *)

Section RetimedSweeps.

Context {D : Type} {ops : DoubleOps D}.
Variable a : Node D.
Variables time' eventTime' : list D.

Local Abbreviation b := (retimed a time' eventTime').

Lemma same_orderb_ok : same_orderb a b = true -> same_order a b.
Proof.
  unfold same_orderb. intros H i k Hi Hk.
  rewrite forallb_forall in H.
  specialize (H i ltac:(apply in_seq; lia)).
  rewrite forallb_forall in H.
  specialize (H k ltac:(apply in_seq; lia)).
  apply andb_prop in H as [H1 H2].
  split; apply eqb_prop; assumption.
Qed.

Hypothesis Hb : same_order a b.

Lemma retimed_still_at_risk i k :
  (1 <= i <= n a)%nat -> (1 <= k <= eventTimeSize a)%nat ->
  still_at_risk b i k = still_at_risk a i k.
Proof. intros Hi Hk. apply (Hb Hi Hk). Qed.

Lemma retimed_died i k :
  (1 <= i <= n a)%nat -> (1 <= k <= eventTimeSize a)%nat ->
  died b i k = died a i k.
Proof.
  intros Hi Hk. unfold died. cbn [event retimed].
  now rewrite (proj2 (Hb Hi Hk)).
Qed.

Lemma retimed_sweep k i c :
  (k <= eventTimeSize a)%nat -> (i <= n a)%nat ->
  sweep b k i c = sweep a k i c.
Proof.
  revert i c. induction k as [|k IHk]; intros i c Hk Hi; [reflexivity|].
  revert c. induction i as [|i IHi]; intros c.
  - now rewrite !sweep_0_r.
  - rewrite !sweep_S_S, retimed_still_at_risk by lia.
    destruct (still_at_risk a (S i) (S k)).
    + rewrite IHi by lia. f_equal. unfold at_risk.
      rewrite retimed_died by lia. reflexivity.
    + apply IHk; lia.
Qed.

Lemma retimed_cr_sweep k i c :
  (k <= eventTimeSize a)%nat -> (i <= n a)%nat ->
  cr_sweep b k i c = cr_sweep a k i c.
Proof.
  revert i c. induction k as [|k IHk]; intros i c Hk Hi; [reflexivity|].
  revert c. induction i as [|i IHi]; intros c.
  - now rewrite !cr_sweep_0_r.
  - rewrite !cr_sweep_S_S, retimed_still_at_risk by lia.
    destruct (still_at_risk a (S i) (S k)).
    + assert (cr_at_risk b (S i) (S k) c = cr_at_risk a (S i) (S k) c) as ->.
      { unfold cr_at_risk. rewrite retimed_died by lia. reflexivity. }
      destruct (cr_at_risk a (S i) (S k) c); [|reflexivity].
      apply IHi. lia.
    + apply IHk; lia.
Qed.

End RetimedSweeps.

(** * Conversions between counts and doubles *)

Module Casts.

Import Binary64 Doubles.
Local Open Scope Z_scope.

Lemma SFtrunc_int z : 0 <= z < 2 ^ 53 -> IEEE.SFtrunc (SFint z) = Some z.
Proof.
  intros Hz. destruct z as [|p|p]; [reflexivity| |lia].
  pose proof (@small_digits p ltac:(lia)) as Dp. pose proof (digits_pos p).
  unfold SFint, IEEE.SFtrunc. cbn [cond_Zopp]. f_equal.
  replace (digits p - 53) with (- (53 - digits p)) by lia.
  change (Z.shiftl ?x (- ?n)) with (Z.shiftr x n).
  rewrite Z.shiftr_div_pow2 by lia.
  rewrite Zpos_shl, Z2Nat.id by lia.
  apply Z.div_mul. apply Z.pow_nonzero; lia.
Qed.

(** [(unsigned int) (double) z] is [z]. *)
Lemma to_uint_of_uint z :
  0 <= z < modulus -> IEEE.float_to_uint (IEEE.float_of_uint z) = Some z.
Proof.
  intros Hz. unfold modulus in Hz. unfold IEEE.float_to_uint.
  rewrite Prim2SF_of_uint, SFtrunc_int by lia.
  unfold IEEE.in_range.
  replace ((0 <=? z) && (z <? modulus))%bool with true; [reflexivity|].
  symmetry. apply andb_true_iff. rewrite Z.leb_le, Z.ltb_lt.
  unfold modulus. lia.
Qed.

End Casts.

(** * When the sweep of the competing-risk rule leaves its matrices *)

Section CRDefined.

Context {D : Type} {ops : DoubleOps D}.
Variable a : Node D.

Local Abbreviation ets := (eventTimeSize a).
Local Abbreviation R := (still_at_risk a).

Hypothesis Hmono : forall j j' m,
  (1 <= j <= j')%nat -> (j' <= n a)%nat -> (1 <= m <= ets)%nat ->
  R j m = true -> R j' m = true.
Hypothesis Hanti : forall j m m',
  (1 <= j <= n a)%nat -> (1 <= m <= m')%nat -> (m' <= ets)%nat ->
  R j m' = true -> R j m = true.

(** The observations that land at an event time with an event whose label
    is not a row of the matrices. *)
Local Abbreviation stray i :=
  (exists i' m', (1 <= i' <= i)%nat /\ (1 <= m' <= ets)%nat
     /\ lands a i' m' = true /\ died a i' m' = true
     /\ cause_of a i' = None).

Lemma cr_at_risk_None i k c :
  cr_at_risk a i k c = None
  <-> died a i k = true /\ cause_of a i = None.
Proof.
  unfold cr_at_risk. destruct (died a i k).
  - destruct (cause_of a i); split; try discriminate; auto.
    intros [_ H]. discriminate H.
  - split; [discriminate | intros [H _]; discriminate H].
Qed.

Lemma cr_sweep_None k i c :
  (k <= ets)%nat -> (i <= n a)%nat ->
  (forall i' m', (1 <= i' <= i)%nat -> (k < m' <= ets)%nat ->
     R i' m' = false) ->
  cr_sweep a k i c = None <-> stray i.
Proof.
  revert i c. induction k as [|k IHk]; intros i c Hk Hi Hinv.
  - split; [discriminate|].
    intros (i' & m' & Hi' & Hm' & Hl & _). unfold lands in Hl.
    rewrite (Hinv i' m') in Hl by lia. discriminate Hl.
  - revert c Hinv. induction i as [|i IHi]; intros c Hinv.
    + rewrite cr_sweep_0_r. split; [discriminate|].
      intros (i' & m' & Hi' & _). lia.
    + rewrite cr_sweep_S_S. destruct (R (S i) (S k)) eqn:Er.
      * assert (forall m', (1 <= m' <= ets)%nat ->
                  lands a (S i) m' = Nat.eqb m' (S k)) as Hl.
        { intros m' Hm'. apply (@lands_at _ _ a Hanti (S i) (S k) m'); try assumption; try lia.
          intros m'' Hm''. apply Hinv; lia. }
        destruct (cr_at_risk a (S i) (S k) c) as [c1|] eqn:E1.
        -- rewrite (IHi ltac:(lia) c1)
             by (intros i' m' Hi' Hm'; apply Hinv; lia).
           split.
           ++ intros (i' & m' & Hi' & H). exists i', m'.
              split; [lia | exact H].
           ++ intros (i' & m' & Hi' & Hm' & L & Dd & Cn).
              destruct (Nat.eq_dec i' (S i)) as [->|Hne].
              ** rewrite Hl in L by assumption.
                 apply Nat.eqb_eq in L. subst m'.
                 assert (cr_at_risk a (S i) (S k) c = None) as N
                   by (apply cr_at_risk_None; split; assumption).
                 rewrite N in E1. discriminate E1.
              ** exists i', m'. repeat split; try assumption; lia.
        -- apply cr_at_risk_None in E1 as [Dd Cn]. split; [|reflexivity].
           intros _. exists (S i), (S k).
           repeat split; try assumption; try lia.
           rewrite Hl by lia. apply Nat.eqb_refl.
      * apply IHk; [lia | exact Hi|].
        intros i' m' Hi' Hm'.
        destruct (Nat.eq_dec m' (S k)) as [->|Hne].
        -- destruct (R i' (S k)) eqn:Ej; [|reflexivity].
           rewrite (@Hmono i' (S i) (S k)) in Er by (assumption || lia).
           discriminate.
        -- apply Hinv; lia.
Qed.

End CRDefined.

(** * Further properties of the split rules *)

Lemma reset_counts_alloc e :
  nodeParentAtRisk (reset_counts e) = alloc_uivector e
  /\ nodeLeftAtRisk (reset_counts e) = alloc_uivector e
  /\ nodeParentEvent (reset_counts e) = alloc_uivector e
  /\ nodeLeftEvent (reset_counts e) = alloc_uivector e.
Proof. unfold reset_counts. cbn. rewrite zero_alloc. auto. Qed.

(** X1: when the observations are sorted by time and the event times
    increase, the tables of the survival rule hold, at every event time k,
    the number of observations with eventTime[k] <= time[i] (parent at risk),
    the number of those on the left (left at risk), the number of
    observations with eventTime[k] == time[i] and event[i] > 0 (parent
    events) and the number of those on the left (left events). *)
Theorem survival_counts_exact (a : Node float) :
  n_fits a -> time_sorted a -> eventTime_increasing a ->
  forall k, (1 <= k <= eventTimeSize a)%nat ->
    get (nodeParentAtRisk (survival_counts a)) k
    = count (fun i => still_at_risk a i k) (seq 1 (n a))
    /\ get (nodeLeftAtRisk (survival_counts a)) k
       = count (fun i => still_at_risk a i k && on_left a i) (seq 1 (n a))
    /\ get (nodeParentEvent (survival_counts a)) k
       = count (fun i => died a i k) (seq 1 (n a))
    /\ get (nodeLeftEvent (survival_counts a)) k
       = count (fun i => died a i k && on_left a i) (seq 1 (n a)).
Proof.
  intros Hn Hs He k Hk.
  assert (forall j j' m, (1 <= j <= j')%nat -> (j' <= n a)%nat ->
            (1 <= m <= eventTimeSize a)%nat ->
            still_at_risk a j m = true -> still_at_risk a j' m = true)
    as Hmono by (intros j j' m H1 H2 _; now apply sorted_mono).
  assert (forall j m m', (1 <= j <= n a)%nat -> (1 <= m <= m')%nat ->
            (m' <= eventTimeSize a)%nat ->
            still_at_risk a j m' = true -> still_at_risk a j m = true)
    as Hanti by (intros j m m' _; now apply increasing_anti).
  destruct (step_function_events (eventTimeSize a)
              (sweep a (eventTimeSize a) (n a) (reset_counts (eventTimeSize a))))
    as [Epe Ele].
  fold (survival_counts a) in Epe, Ele.
  split; [|split; [|split]].
  - rewrite (survival_pa Hn) by assumption.
    rewrite (@raw_suffix _ _ a Hmono Hanti nodeParentAtRisk (fun _ _ => true)
               ltac:(reflexivity) ltac:(intros e; apply reset_counts_alloc)
               Hn (fun _ => true) k ltac:(reflexivity) Hk).
    apply count_ext. intros i _. apply andb_true_r.
  - rewrite (survival_la Hn) by assumption.
    exact (@raw_suffix _ _ a Hmono Hanti nodeLeftAtRisk
             (fun i _ => on_left a i)
             ltac:(reflexivity) ltac:(intros e; apply reset_counts_alloc)
             Hn (on_left a) k ltac:(reflexivity) Hk).
  - rewrite Epe.
    rewrite (@raw_tally _ _ a Hmono Hanti nodeParentEvent (died a)
               ltac:(reflexivity) ltac:(intros e; apply reset_counts_alloc)
               Hn k Hk).
    apply count_ext. intros i _.
    destruct (died a i k) eqn:Ed; [|apply andb_false_r].
    now rewrite (died_lands He i Hk Ed).
  - rewrite Ele.
    rewrite (@raw_tally _ _ a Hmono Hanti nodeLeftEvent
               (fun i k => died a i k && on_left a i)
               ltac:(reflexivity) ltac:(intros e; apply reset_counts_alloc)
               Hn k Hk).
    apply count_ext. intros i _.
    destruct (died a i k) eqn:Ed; [|apply andb_false_r].
    now rewrite (died_lands He i Hk Ed).
Qed.

Lemma survival_counts_exact_witness :
  n_fits two_causes /\ time_sorted two_causes
  /\ eventTime_increasing two_causes
  /\ get (nodeParentAtRisk (survival_counts two_causes)) 2
     = count (fun i => still_at_risk two_causes i 2) (seq 1 (n two_causes)).
Proof.
  assert (n_fits two_causes) as Hn by (vm_compute; reflexivity).
  assert (time_sorted two_causes) as Hs
    by (apply time_sortedb_ok; vm_compute; reflexivity).
  assert (eventTime_increasing two_causes) as He
    by (apply eventTime_increasingb_ok; vm_compute; reflexivity).
  split; [exact Hn|]. split; [exact Hs|]. split; [exact He|].
  apply (@survival_counts_exact two_causes Hn Hs He 2%nat). simpl; lia.
Defined.

(** X2: the competing-risk rule counts what the survival rule counts, split
    by cause: its at-risk and parent-event vectors are those of the survival
    rule on the same data, at every event time the per-cause event counts of
    the parent and of the left daughter add up to the event counts of the
    survival rule, and no left count exceeds the parent count. *)
Theorem competing_risk_refines_survival {D : Type} {ops : DoubleOps D}
    (a : Node D) :
  n_fits a -> causes_in_range a ->
  exists c, competing_risk_counts a = Some c
    /\ nodeParentAtRisk (vectors c) = nodeParentAtRisk (survival_counts a)
    /\ nodeLeftAtRisk (vectors c) = nodeLeftAtRisk (survival_counts a)
    /\ nodeParentEvent (vectors c) = nodeParentEvent (survival_counts a)
    /\ forall k,
         sum_over (fun j => UIMatrix.get (nodeParentEventCR c) j k)
           (seq 1 (eventTypeSize a))
         = get (nodeParentEvent (survival_counts a)) k
         /\ sum_over (fun j => UIMatrix.get (nodeLeftEventCR c) j k)
              (seq 1 (eventTypeSize a))
            = get (nodeLeftEvent (survival_counts a)) k
         /\ forall j,
              (0 <= UIMatrix.get (nodeLeftEventCR c) j k
                 <= UIMatrix.get (nodeParentEventCR c) j k)%Z.
Proof.
  intros Hn Hc.
  destruct (competing_risk_counts_spec Hn Hc) as (c & Ec & Sc).
  exists c. split; [exact Ec|].
  split; [exact (crs_pa Sc)|]. split; [exact (crs_la Sc)|].
  split; [exact (crs_pe Sc)|]. intros k.
  split; [exact (crs_pcol Sc k)|]. split; [exact (crs_lcol Sc k)|].
  intros j. exact (crs_cell Sc j k).
Qed.

Lemma competing_risk_refines_survival_witness :
  n_fits two_causes /\ causes_in_range two_causes
  /\ exists c, competing_risk_counts two_causes = Some c
       /\ nodeParentAtRisk (vectors c)
          = nodeParentAtRisk (survival_counts two_causes).
Proof.
  assert (n_fits two_causes) as Hn by (vm_compute; reflexivity).
  assert (causes_in_range two_causes) as Hc
    by (apply causes_in_rangeb_ok; vm_compute; reflexivity).
  split; [exact Hn|]. split; [exact Hc|].
  destruct (competing_risk_refines_survival Hn Hc) as (c & Ec & Epa & _).
  exists c. split; assumption.
Defined.

(** X3: when the survival rule finds nobody at risk at some event time
    (nodeParentAtRisk[k] = 0) its numerator divides 0 by 0 and the result is
    not a number. *)
Theorem survival_empty_risk_set (a : Node float) (k : nat) :
  n_fits a -> (1 <= k <= eventTimeSize a)%nat ->
  get (nodeParentAtRisk (survival_counts a)) k = 0%Z ->
  Prim2SF (getCustomSplitStatisticSurvival a) = S754_nan.
Proof.
  intros Hn Hk H0.
  destruct (survival_zero_cell Hn Hk H0) as (H1 & H2 & H3).
  unfold getCustomSplitStatisticSurvival.
  pose proof (@logrank_fold_nan (survival_counts a)
                (seq 1 (eventTimeSize a)) d0 d0) as Hf.
  fold (logrank a (survival_counts a)) in Hf.
  destruct (logrank a (survival_counts a)) as [num den].
  apply NaN.zero_guard_nan. apply Hf. right. exists k. split.
  - apply in_seq. lia.
  - now apply logrank_num_nan.
Qed.

Lemma survival_empty_risk_set_witness :
  n_fits late_event_time
  /\ get (nodeParentAtRisk (survival_counts late_event_time)) 2 = 0%Z
  /\ Prim2SF (getCustomSplitStatisticSurvival late_event_time) = S754_nan.
Proof.
  split; [vm_compute; reflexivity|]. split; [reflexivity|].
  apply (@survival_empty_risk_set late_event_time 2).
  - vm_compute; reflexivity.
  - simpl; lia.
  - reflexivity.
Defined.

(** X4: without event times both log-rank rules return exactly 0, whatever
    the observations are. *)
Theorem no_event_time (a : Node float) :
  eventTimeSize a = 0%nat ->
  getCustomSplitStatisticSurvival a = 0%float
  /\ getCustomSplitStatisticCompetingRisk a = Some 0%float.
Proof.
  intros H0. split.
  - unfold getCustomSplitStatisticSurvival, logrank. rewrite H0. reflexivity.
  - unfold getCustomSplitStatisticCompetingRisk, competing_risk_counts.
    rewrite H0. cbn [cr_sweep]. unfold logrankCR.
    change (@d0 float float_ops) with 0%float.
    rewrite logrankCR_no_event_time by exact H0. reflexivity.
Qed.

Lemma no_event_time_witness :
  eventTimeSize all_censored = 0%nat
  /\ getCustomSplitStatisticSurvival all_censored = 0%float.
Proof.
  split; [reflexivity|].
  apply (@no_event_time all_censored). reflexivity.
Defined.

(** X5: when one daughter has no observation the regression rule divides 0
    by 0 and returns a value that is not a number, whatever the responses,
    the mean and the variance are. *)
Theorem regression_empty_daughter (a : Node float) :
  n_fits a -> leftSize a = 0%Z \/ rghtSize a = 0%Z ->
  Prim2SF (getCustomSplitStatisticMultivariateRegression a) = S754_nan.
Proof.
  intros Hn He. unfold n_fits in Hn.
  destruct (@regression_fold_sizes _ _ a (seq 1 (n a)) d0 d0 0%Z 0%Z)
    as (sl & sr & E & Hsl & Hsr); rewrite ?length_seq; try lia.
  unfold getCustomSplitStatisticMultivariateRegression, regression_sums.
  rewrite E. cbn [Z.add]. fold (leftSize a) (rghtSize a) in *.
  destruct He as [He | He]; rewrite He.
  - rewrite (Hsl He). apply NaN.add_l. apply NaN.zero_over_zero_times.
  - rewrite (Hsr He). apply NaN.add_r. apply NaN.zero_over_zero_times.
Qed.

Lemma regression_empty_daughter_witness :
  n_fits all_right /\ leftSize all_right = 0%Z
  /\ Prim2SF (getCustomSplitStatisticMultivariateRegression all_right)
     = S754_nan.
Proof.
  split; [vm_compute; reflexivity|]. split; [reflexivity|].
  apply (@regression_empty_daughter all_right).
  - vm_compute; reflexivity.
  - left. reflexivity.
Defined.

(** X6: when one daughter has no observation and every label is a cell of
    the count vectors, the classification rule divides 0 by 0 and returns a
    value that is not a number. *)
Theorem classification_empty_daughter (a : Node float) :
  n_fits a ->
  (forall i, (1 <= i <= n a)%nat -> class_of a i <> None) ->
  leftSize a = 0%Z \/ rghtSize a = 0%Z ->
  exists r, getCustomSplitStatisticMultivariateClassification a = Some r
            /\ Prim2SF r = S754_nan.
Proof.
  intros Hn Hc He.
  assert (forall i, In i (seq 1 (n a)) -> class_of a i <> None) as Hc'
    by (intros i Hi; apply in_seq in Hi; apply Hc; lia).
  pose proof Hn as Hn'. unfold n_fits in Hn'.
  destruct (@classification_fold_inside _ _ a (seq 1 (n a))
              (alloc_uivector (maxLevel a)) (alloc_uivector (maxLevel a))
              0%Z 0%Z Hc') as (lc & rc & E & _);
    rewrite ?length_seq; try lia.
  assert (classification_counts a
          = Some (lc, rc, (0 + count_left a (seq 1 (n a)))%Z,
                  (0 + count_right a (seq 1 (n a)))%Z)) as Ec
    by (unfold classification_counts; rewrite zero_alloc; exact E).
  destruct (classification_counts_sizes Hn Ec) as (El & Er & _ & _ & Zl & Zr).
  assert (sum_squares a (alloc_uivector (maxLevel a)) = d0) as Ez.
  { unfold sum_squares. apply sum_squares_zeros; [|exact eq_refl].
    intros p _. apply get_alloc. }
  unfold getCustomSplitStatisticMultivariateClassification. rewrite Ec.
  eexists. split; [reflexivity|].
  rewrite El, Er. destruct He as [He | He]; rewrite He.
  - rewrite (Zl He), Ez. apply NaN.add_l. reflexivity.
  - rewrite (Zr He), Ez. apply NaN.add_r. reflexivity.
Qed.

Lemma classification_empty_daughter_witness :
  n_fits all_right /\ leftSize all_right = 0%Z
  /\ exists r,
       getCustomSplitStatisticMultivariateClassification all_right = Some r
       /\ Prim2SF r = S754_nan.
Proof.
  split; [vm_compute; reflexivity|]. split; [reflexivity|].
  apply (@classification_empty_daughter all_right).
  - vm_compute; reflexivity.
  - intros i Hi.
    assert (i = 1 \/ i = 2 \/ i = 3)%nat as [-> | [-> | ->]]
      by (simpl in Hi; lia); vm_compute; discriminate.
  - left. reflexivity.
Defined.



(** X8: whatever the backend returns, the canonical-correlation rule never
    returns a number below 0: its result is 0, or the product of a square
    root and an absolute value. *)
Theorem cca_never_negative (backend : Lapack float) (a : Node float)
    (v : float) (calls : list lapack_call) :
  ccaSplitAbsoluteDifference backend a = Some (v, calls) ->
  PrimFloat.ltb v 0 = false.
Proof.
  unfold ccaSplitAbsoluteDifference. rewrite daughter_sizes_spec.
  destruct (cca_dims a) as [[dimX dimY]|]; [|discriminate].
  destruct ((0 <? dimX) && (0 <? dimY))%Z;
    [|intros H; inversion H; reflexivity].
  destruct (Z.of_nat (n a) <? 2 ^ 31)%Z; [|discriminate].
  destruct (dimX + dimY <? 2 ^ 31)%Z; [|discriminate].
  destruct ((dimX + dimY <? leftSize a) && (dimX + dimY <? rghtSize a))%Z;
    [|intros H; inversion H; reflexivity].
  destruct (leftSize a * rghtSize a <? 2 ^ 31)%Z eqn:E; [|discriminate].
  intros H. inversion H. apply Sign.signed_not_negative.
  apply Sign.sqrt_times_abs. apply Z.ltb_lt in E.
  pose proof (count_left_nonneg a (seq 1 (n a))).
  pose proof (count_right_nonneg a (seq 1 (n a))).
  unfold leftSize, rghtSize in *. nia.
Qed.

Lemma cca_never_negative_witness :
  exists v calls,
    ccaSplitAbsoluteDifference null_backend cca_six = Some (v, calls)
    /\ PrimFloat.ltb v 0 = false.
Proof.
  exists 0%float. eexists. split; [vm_compute; reflexivity|].
  apply (@cca_never_negative null_backend cca_six 0%float
           (cca_trace ++ cca_trace)).
  vm_compute; reflexivity.
Defined.

Lemma degraded_fold (l : list float) (cor : float) :
  PrimFloat.eqb cor cor = true ->
  (forall w, In w l -> PrimFloat.eqb w w = true) ->
  let r := fold_left (fun cor w => if PrimFloat.ltb cor w then w else cor)
             l cor in
  (r = cor \/ In r l) /\ PrimFloat.leb cor r = true
  /\ forall w, In w l -> PrimFloat.leb w r = true.
Proof.
  revert cor. induction l as [|w l IH]; intros cor Hc Hl; cbn zeta.
  - split; [left; reflexivity|]. split; [|intros w []].
    apply DoubleOrder.eqb_leb, Hc.
  - cbn [fold_left].
    assert (PrimFloat.eqb w w = true) as Hw by (apply Hl, in_eq).
    assert (forall w', In w' l -> PrimFloat.eqb w' w' = true) as Hl'
      by (intros w' H'; apply Hl, in_cons, H').
    destruct (PrimFloat.ltb cor w) eqn:E.
    + destruct (IH w Hw Hl') as (M & B & U).
      split; [right; destruct M as [-> | M]; [apply in_eq | now apply in_cons]|].
      split; [exact (DoubleOrder.ltb_leb_trans E B)|].
      intros w' [<- | H']; [exact B | now apply U].
    + destruct (IH cor Hc Hl') as (M & B & U).
      split; [destruct M as [-> | M]; [now left | right; now apply in_cons]|].
      split; [exact B|].
      intros w' [<- | H']; [|now apply U].
      apply DoubleOrder.eqb_iff in Hc, Hw.
      destruct (@DoubleOrder.leb_total w cor) as [L | L]; try tauto.
      * exact (DoubleOrder.leb_trans L B).
      * rewrite L in E. discriminate.
Qed.

(** X9: the fallback on a positive status returns the largest of S[0] and
    work[1 .. lwork - 1], when these are numbers: it is one of them and none
    of them is greater. *)
Theorem degraded_is_maximum (s0 : float) (work : list float) :
  PrimFloat.eqb s0 s0 = true ->
  (forall w, In w (tl work) -> PrimFloat.eqb w w = true) ->
  In (degraded s0 work) (s0 :: tl work)
  /\ forall w, In w (s0 :: tl work) ->
       PrimFloat.leb w (degraded s0 work) = true.
Proof.
  intros Hs Hw. destruct (degraded_fold (tl work) Hs Hw) as (M & B & U).
  unfold degraded. split.
  - destruct M as [M | M]; [left; symmetry; exact M | right; exact M].
  - intros w [<- | H]; [exact B | now apply U].
Qed.

Lemma degraded_is_maximum_witness :
  degraded 0.5%float [9; 0.25; 0.75; 0.5]%float = 0.75%float
  /\ In (degraded 0.5%float [9; 0.25; 0.75; 0.5]%float)
        (0.5 :: tl [9; 0.25; 0.75; 0.5])%float.
Proof.
  split; [reflexivity|].
  apply (@degraded_is_maximum 0.5%float [9; 0.25; 0.75; 0.5]%float).
  - reflexivity.
  - intros w H. simpl in H.
    destruct H as [<- | [<- | [<- | []]]]; reflexivity.
Defined.

Ltac renumber_guards :=
  repeat match goal with
  | |- context [if ?b then _ else _] =>
      lazymatch b with
      | (_ =? _)%Z => fail
      | _ => destruct b; cbv iota
      end
  end.

Ltac renumber_cases :=
  repeat match goal with
  | |- context [(?x =? ?c)%Z] =>
      is_var x; destruct (Z.eqb_spec x c); [subst x|]; cbn
  end;
  try reflexivity; try lia.

Lemma renumber_zero (rout : String.string) (info : Z) :
  Xerbla.renumber rout info = 0%Z <-> info = 0%Z.
Proof.
  unfold Xerbla.renumber. renumber_guards; split; renumber_cases.
Qed.

(** X10: the renumbering of the parameter for row-major storage exchanges
    pairs of parameter numbers: applied twice to the same routine name it
    gives the number back. *)
Theorem renumber_involution (rout : String.string) (info : Z) :
  Xerbla.renumber rout (Xerbla.renumber rout info) = info.
Proof.
  unfold Xerbla.renumber. renumber_guards; renumber_cases.
Qed.

(** X11: the handler prints the message [form] whatever [info] is, prints
    the line naming the parameter before it exactly when [info] is not 0,
    with the number renumbered when the storage is row-major, and never
    calls [F77_xerbla]. *)
Theorem cblas_xerbla_outputs (RowMajorStrg info : Z)
    (rout form : String.string) :
  Xerbla.cblas_xerbla RowMajorStrg info rout form
  = if (info =? 0)%Z then [Xerbla.Message form]
    else [Xerbla.Incorrect
            (if (RowMajorStrg =? 0)%Z then info
             else Xerbla.renumber rout info) rout;
          Xerbla.Message form].
Proof.
  unfold Xerbla.cblas_xerbla. cbv zeta.
  assert ((if (RowMajorStrg =? 0)%Z then info else Xerbla.renumber rout info)
          = 0%Z <-> info = 0%Z) as Hz.
  { destruct (RowMajorStrg =? 0)%Z; [tauto|]. apply renumber_zero. }
  destruct (Z.eqb_spec
              (if (RowMajorStrg =? 0)%Z then info
               else Xerbla.renumber rout info) 0) as [E | E];
    destruct (Z.eqb_spec info 0) as [E' | E']; try tauto; reflexivity.
Qed.

Lemma logrank_den_sign (c : counts) l num den :
  Prim2SF den <> S754_zero true ->
  Prim2SF (snd (fold_left (logrank_step c) l (num, den))) <> S754_zero true.
Proof.
  revert num den. induction l as [|k l IH]; intros num den H; [exact H|].
  cbn [fold_left]. unfold logrank_step at 2. apply IH.
  destruct (2 <=? get (nodeParentAtRisk c) k)%Z; [|exact H].
  now apply NegZero.add_not_neg_zero.
Qed.

Lemma logrankCR_den_sign (a : Node float) (c : cr_counts) l num den :
  Prim2SF den <> S754_zero true ->
  Prim2SF (snd (fold_left (cr_cause a c) l (num, den))) <> S754_zero true.
Proof.
  revert num den. induction l as [|j l IH]; intros num den H; [exact H|].
  cbn [fold_left]. unfold cr_cause at 2. apply IH.
  now apply NegZero.add_not_neg_zero.
Qed.

(** X12: the two log-rank rules never return a number below 0: the summed
    denominator is never the zero of negative sign, so its square root has a
    clear sign bit or is not a number, and the result is 0 or an absolute
    value divided by that square root. *)
Theorem logrank_never_negative (a : Node float) :
  PrimFloat.ltb (getCustomSplitStatisticSurvival a) 0 = false
  /\ match getCustomSplitStatisticCompetingRisk a with
     | Some r => PrimFloat.ltb r 0 = false
     | None => True
     end.
Proof.
  split.
  - apply Sign.signed_not_negative.
    unfold getCustomSplitStatisticSurvival.
    pose proof (@logrank_den_sign (survival_counts a)
                  (seq 1 (eventTimeSize a)) d0 d0) as H.
    fold (logrank a (survival_counts a)) in H.
    destruct (logrank a (survival_counts a)) as [num den].
    apply NegZero.zero_guard_signed. apply H. discriminate.
  - unfold getCustomSplitStatisticCompetingRisk.
    destruct (competing_risk_counts a) as [c|]; [|exact I].
    pose proof (@logrankCR_den_sign a c (seq 1 (eventTypeSize a)) d0 d0) as H.
    fold (logrankCR a c) in H.
    destruct (logrankCR a c) as [num den].
    apply Sign.signed_not_negative.
    apply NegZero.zero_guard_signed. apply H. discriminate.
Qed.

(** X13: the regression rule and the classification rule do not depend on
    which daughter is called LEFT: on the node with the memberships
    exchanged each returns the same double, bit for bit. *)
Theorem multivariate_rules_symmetric (a : Node float) :
  (n a <= length (membership a))%nat ->
  getCustomSplitStatisticMultivariateRegression (swap_daughters a)
  = getCustomSplitStatisticMultivariateRegression a
  /\ getCustomSplitStatisticMultivariateClassification (swap_daughters a)
     = getCustomSplitStatisticMultivariateClassification a.
Proof.
  intros Hlen.
  assert (forall i, In i (seq 1 (n a)) -> (1 <= i <= n a)%nat) as Hl
    by (intros i Hi; apply in_seq in Hi; lia).
  split.
  - unfold getCustomSplitStatisticMultivariateRegression, regression_sums.
    cbn [n swap_daughters].
    rewrite (@regression_fold_swap _ _ a Hlen (seq 1 (n a)) d0 d0 0%Z 0%Z Hl).
    destruct (fold_left (regression_step a) (seq 1 (n a))
                (d0, d0, 0%Z, 0%Z)) as [[[sl sr] ls] rs].
    cbn [variance swap_daughters]. apply add_comm.
  - unfold getCustomSplitStatisticMultivariateClassification,
      classification_counts.
    cbn [n maxLevel swap_daughters].
    rewrite (@classification_fold_swap _ _ a Hlen (seq 1 (n a)) _ _ 0%Z 0%Z Hl).
    destruct (fold_left (classification_step a) (seq 1 (n a)) _)
      as [[[[lc rc] ls] rs]|]; [|reflexivity].
    f_equal. unfold sum_squares. cbn [maxLevel swap_daughters].
    apply add_comm.
Qed.

Lemma multivariate_rules_symmetric_witness :
  (n mixed_classes <= length (membership mixed_classes))%nat
  /\ getCustomSplitStatisticMultivariateRegression
       (swap_daughters mixed_classes)
     = getCustomSplitStatisticMultivariateRegression mixed_classes.
Proof.
  split; [simpl; lia|].
  apply (@multivariate_rules_symmetric mixed_classes). simpl; lia.
Defined.

(** X14: when the observations are sorted by time, the event times increase
    and every event is labelled with a cause in 1 .. eventTypeSize, the
    event matrices of the competing-risk rule hold, for every cause j and
    event time k, the number of observations with eventTime[k] == time[i],
    event[i] > 0 and (unsigned int) event[i] == j, and the number of those
    on the left. *)
Theorem competing_risk_events_exact (a : Node float) :
  n_fits a -> time_sorted a -> eventTime_increasing a -> causes_in_range a ->
  exists c, competing_risk_counts a = Some c /\
    forall j k,
      (1 <= j <= eventTypeSize a)%nat -> (1 <= k <= eventTimeSize a)%nat ->
      UIMatrix.get (nodeParentEventCR c) j k
      = count (fun i => died a i k && has_cause a i j) (seq 1 (n a))
      /\ UIMatrix.get (nodeLeftEventCR c) j k
         = count (fun i => died a i k && on_left a i && has_cause a i j)
             (seq 1 (n a)).
Proof.
  intros Hn Hs He Hc.
  assert (forall j j' m, (1 <= j <= j')%nat -> (j' <= n a)%nat ->
            (1 <= m <= eventTimeSize a)%nat ->
            still_at_risk a j m = true -> still_at_risk a j' m = true)
    as Hmono by (intros j j' m H1 H2 _; now apply sorted_mono).
  assert (forall j m m', (1 <= j <= n a)%nat -> (1 <= m <= m')%nat ->
            (m' <= eventTimeSize a)%nat ->
            still_at_risk a j m' = true -> still_at_risk a j m = true)
    as Hanti by (intros j m m' _; now apply increasing_anti).
  destruct (competing_risk_counts_spec Hn Hc) as (c & Ec & _).
  exists c. split; [exact Ec|]. intros j k Hj Hk.
  unfold competing_risk_counts in Ec.
  destruct (cr_sweep a (eventTimeSize a) (n a) (reset_cr_counts a))
    as [c0|] eqn:E0; [|discriminate].
  injection Ec as <-.
  pose proof (inclusive_at_risk_rel a (cr_step_function a c0)) as Rel.
  rewrite (ir_pecr Rel), (ir_lecr Rel). cbn [cr_step_function
    nodeParentEventCR nodeLeftEventCR].
  assert (mat_ok (eventTypeSize a) (eventTimeSize a)
            (UIMatrix.alloc_uimatrix (eventTypeSize a) (eventTimeSize a)))
    as Hok by apply alloc_uimatrix_ok.
  unfold n_fits in Hn. split.
  - assert (forall i k0 c1 c2, cr_at_risk a i k0 c1 = Some c2 ->
              nodeParentEventCR c2
              = match cause_of a i with
                | Some e => if died a i k0
                            then UIMatrix.incr (nodeParentEventCR c1) e k0
                            else nodeParentEventCR c1
                | None => nodeParentEventCR c1
                end) as HP.
    { intros i k0 c1 c2 H. unfold cr_at_risk in H.
      destruct (died a i k0), (cause_of a i); inversion H; reflexivity. }
    rewrite (@cr_sweep_tally _ _ a Hmono Hanti nodeParentEventCR (died a) HP
               _ _ _ _ j k E0); try lia.
    + unfold reset_cr_counts. cbn [nodeParentEventCR].
      rewrite reset_cr_matrix_alloc, get_alloc_uimatrix. cbn [Z.add].
      apply count_ext. intros i _.
      destruct (died a i k) eqn:Ed; [|now rewrite andb_false_r].
      now rewrite (died_lands He i Hk Ed).
    + unfold reset_cr_counts. cbn [nodeParentEventCR].
      now rewrite reset_cr_matrix_alloc.
    + unfold reset_cr_counts. cbn [nodeParentEventCR].
      rewrite reset_cr_matrix_alloc, get_alloc_uimatrix. lia.
    + unfold reset_cr_counts. cbn [nodeParentEventCR].
      rewrite reset_cr_matrix_alloc, get_alloc_uimatrix. lia.
  - assert (forall i k0 c1 c2, cr_at_risk a i k0 c1 = Some c2 ->
              nodeLeftEventCR c2
              = match cause_of a i with
                | Some e => if died a i k0 && on_left a i
                            then UIMatrix.incr (nodeLeftEventCR c1) e k0
                            else nodeLeftEventCR c1
                | None => nodeLeftEventCR c1
                end) as HP.
    { intros i k0 c1 c2 H. unfold cr_at_risk in H.
      destruct (died a i k0), (cause_of a i), (on_left a i); inversion H;
        reflexivity. }
    rewrite (@cr_sweep_tally _ _ a Hmono Hanti nodeLeftEventCR
               (fun i k => died a i k && on_left a i) HP
               _ _ _ _ j k E0); try lia.
    + unfold reset_cr_counts. cbn [nodeLeftEventCR].
      rewrite reset_cr_matrix_alloc, get_alloc_uimatrix. cbn [Z.add].
      apply count_ext. intros i _.
      destruct (died a i k) eqn:Ed;
        [|now rewrite andb_false_r].
      now rewrite (died_lands He i Hk Ed).
    + unfold reset_cr_counts. cbn [nodeLeftEventCR].
      now rewrite reset_cr_matrix_alloc.
    + unfold reset_cr_counts. cbn [nodeLeftEventCR].
      rewrite reset_cr_matrix_alloc, get_alloc_uimatrix. lia.
    + unfold reset_cr_counts. cbn [nodeLeftEventCR].
      rewrite reset_cr_matrix_alloc, get_alloc_uimatrix. lia.
Qed.

Lemma competing_risk_events_exact_witness :
  n_fits two_causes /\ time_sorted two_causes
  /\ eventTime_increasing two_causes /\ causes_in_range two_causes
  /\ exists c, competing_risk_counts two_causes = Some c.
Proof.
  assert (n_fits two_causes) as Hn by (vm_compute; reflexivity).
  assert (time_sorted two_causes) as Hs
    by (apply time_sortedb_ok; vm_compute; reflexivity).
  assert (eventTime_increasing two_causes) as He
    by (apply eventTime_increasingb_ok; vm_compute; reflexivity).
  assert (causes_in_range two_causes) as Hc
    by (apply causes_in_rangeb_ok; vm_compute; reflexivity).
  split; [exact Hn|]. split; [exact Hs|]. split; [exact He|].
  split; [exact Hc|].
  destruct (competing_risk_events_exact Hn Hs He Hc) as (c & Ec & _).
  exists c. exact Ec.
Defined.

(** X15: when the observations are sorted by time and every event time is
    the time of an observation that had an event, the survival rule returns
    exactly 0 for a split that sends no observation to the left, and for a
    split that sends every observation to the left when n * n is below 2^32:
    every term of the numerator and of the denominator is a zero. *)
Theorem survival_empty_daughter (a : Node float) :
  n_fits a -> time_sorted a -> eventTime_observed a ->
  leftSize a = 0%Z
  \/ (rghtSize a = 0%Z /\ (Z.of_nat (n a) * Z.of_nat (n a) < modulus)%Z) ->
  getCustomSplitStatisticSurvival a = 0%float.
Proof.
  intros Hn Hs Ho Hside.
  assert (forall k, (1 <= k <= eventTimeSize a)%nat ->
            (1 <= get (nodeParentAtRisk (survival_counts a)) k)%Z) as Hpos.
  { intros k Hk. apply (survival_at_risk_pos Hn Hk).
    destruct (Ho k Hk) as (i0 & Hi0 & Hd). exists i0. split; [exact Hi0|].
    apply (@observed_still_at_risk a k i0 Hs); [lia | exact Hd]. }
  unfold getCustomSplitStatisticSurvival, logrank.
  change (@d0 float float_ops) with 0%float.
  rewrite ZeroTerms.logrank_zero; [reflexivity|].
  intros k Hk. apply in_seq in Hk.
  assert (1 <= k <= eventTimeSize a)%nat as Hk' by lia.
  pose proof (Hpos k Hk') as Hp.
  destruct (stepped_range Hn k) as [_ Hlt]. unfold modulus in Hlt.
  destruct (survival_parent_bound Hn Hk') as [[He0 He1] Hpn].
  unfold logrank_num, logrank_den.
  change (@of_uint float float_ops) with IEEE.float_of_uint.
  change (@d1 float float_ops) with (IEEE.float_of_uint 1).
  change (@dsub float float_ops) with PrimFloat.sub.
  change (@ddiv float float_ops) with PrimFloat.div.
  change (@dmul float float_ops) with PrimFloat.mul.
  set (P := get (nodeParentAtRisk (survival_counts a)) k) in *.
  set (E := get (nodeParentEvent (survival_counts a)) k) in *.
  pose proof (u32_range (P - E)). pose proof (u32_range (P - 1)).
  unfold modulus in *.
  destruct Hside as [Hz | [Hz Hnn]].
  - destruct (survival_none_left Hn Hz Hk') as [-> ->]. split.
    + exists false. apply ZeroTerms.num_none_left. lia.
    + intros H2. apply ZeroTerms.den_zero; try lia.
      * apply ZeroTerms.lead_none_left. lia.
      * rewrite u32_small by (unfold modulus; lia). lia.
  - destruct (survival_all_left Hn Hz Hk') as [-> ->]. fold P E. split.
    + apply ZeroTerms.num_all_left; unfold modulus; try lia. nia.
    + intros H2. apply ZeroTerms.den_zero; try lia.
      * apply ZeroTerms.lead_all_left. lia.
      * rewrite u32_small by (unfold modulus; lia). lia.
Qed.

Lemma survival_empty_daughter_witness :
  n_fits one_sided /\ time_sorted one_sided /\ eventTime_observed one_sided
  /\ leftSize one_sided = 0%Z
  /\ getCustomSplitStatisticSurvival one_sided = 0%float.
Proof.
  assert (n_fits one_sided) as Hn by (vm_compute; reflexivity).
  assert (time_sorted one_sided) as Hs
    by (apply time_sortedb_ok; vm_compute; reflexivity).
  assert (eventTime_observed one_sided) as Ho
    by (apply eventTime_observedb_ok; vm_compute; reflexivity).
  split; [exact Hn|]. split; [exact Hs|]. split; [exact Ho|].
  split; [reflexivity|].
  apply (survival_empty_daughter Hn Hs Ho). left. reflexivity.
Defined.

(** X16: when the observations are sorted by time, every event time is the
    time of an observation that had an event and every event has a cause in
    1 .. eventTypeSize, the competing-risk rule returns exactly 0 for a split
    that leaves a daughter without observations, on either side. *)
Theorem competing_risk_empty_daughter (a : Node float) :
  n_fits a -> time_sorted a -> eventTime_observed a -> causes_in_range a ->
  leftSize a = 0%Z \/ rghtSize a = 0%Z ->
  getCustomSplitStatisticCompetingRisk a = Some 0%float.
Proof.
  intros Hn Hs Ho Hc Hside.
  assert (forall k, (1 <= k <= eventTimeSize a)%nat ->
            (1 <= get (nodeParentAtRisk (survival_counts a)) k)%Z) as Hpos.
  { intros k Hk. apply (survival_at_risk_pos Hn Hk).
    destruct (Ho k Hk) as (i0 & Hi0 & Hd). exists i0. split; [exact Hi0|].
    apply (@observed_still_at_risk a k i0 Hs); [lia | exact Hd]. }
  destruct (competing_risk_counts_spec Hn Hc) as (c & Ec & Sc).
  unfold getCustomSplitStatisticCompetingRisk. rewrite Ec.
  rewrite CRZeroTerms.logrankCR_zero; [reflexivity|].
  intros j k Hj Hk.
  pose proof (Hpos k Hk) as Hp.
  destruct (cr_parent_bounds Hn Sc Hj Hk) as [[He0 He1] [Hp0 Hp1]].
  assert (Z.of_nat (n a) < modulus)%Z as Hn' by exact Hn.
  unfold cr_num, cr_den. rewrite (crs_pa Sc).
  change (@of_uint float float_ops) with IEEE.float_of_uint.
  change (@d1 float float_ops) with (IEEE.float_of_uint 1).
  change (@dsub float float_ops) with PrimFloat.sub.
  change (@ddiv float float_ops) with PrimFloat.div.
  change (@dmul float float_ops) with PrimFloat.mul.
  set (P := UIMatrix.get (nodeParentInclusiveAtRisk c) j k) in *.
  set (E := UIMatrix.get (nodeParentEventCR c) j k) in *.
  pose proof (u32_range (P - E)). pose proof (u32_range (P - 1)).
  unfold modulus in *.
  destruct Hside as [Hz | Hz].
  - destruct (cr_none_left Hn Sc Hz Hj Hk) as [-> ->]. split.
    + exists false. apply CRZeroTerms.cr_num_none_left; lia.
    + intros H2. apply CRZeroTerms.zero_times_quotient; try lia.
      * apply CRZeroTerms.cr_lead_none_left; lia.
      * rewrite u32_small by (unfold modulus; lia). lia.
  - destruct (cr_all_left Hn Sc Hz Hj Hk) as [-> ->]. fold P E. split.
    + apply CRZeroTerms.cr_num_all_left; lia.
    + intros H2. apply CRZeroTerms.zero_times_quotient; try lia.
      * apply CRZeroTerms.cr_lead_all_left; lia.
      * rewrite u32_small by (unfold modulus; lia). lia.
Qed.

Lemma competing_risk_empty_daughter_witness :
  n_fits one_sided /\ time_sorted one_sided /\ eventTime_observed one_sided
  /\ causes_in_range one_sided /\ leftSize one_sided = 0%Z
  /\ getCustomSplitStatisticCompetingRisk one_sided = Some 0%float.
Proof.
  assert (n_fits one_sided) as Hn by (vm_compute; reflexivity).
  assert (time_sorted one_sided) as Hs
    by (apply time_sortedb_ok; vm_compute; reflexivity).
  assert (eventTime_observed one_sided) as Ho
    by (apply eventTime_observedb_ok; vm_compute; reflexivity).
  assert (causes_in_range one_sided) as Hc
    by (apply causes_in_rangeb_ok; vm_compute; reflexivity).
  split; [exact Hn|]. split; [exact Hs|]. split; [exact Ho|].
  split; [exact Hc|]. split; [reflexivity|].
  apply (competing_risk_empty_daughter Hn Hs Ho Hc). left. reflexivity.
Defined.

(** X17: the classification rule never returns a number below 0, and neither
    does the regression rule when the variance is above 0: each daughter
    contributes a sum of squares, or a square, over numbers whose sign bit
    is clear. *)
Theorem multivariate_never_negative (a : Node float) :
  (PrimFloat.ltb 0 (variance a) = true ->
   PrimFloat.ltb (getCustomSplitStatisticMultivariateRegression a) 0 = false)
  /\ match getCustomSplitStatisticMultivariateClassification a with
     | Some r => PrimFloat.ltb r 0 = false
     | None => True
     end.
Proof.
  split.
  - intros Hv. apply SumSign.positive_signed in Hv.
    apply Sign.signed_not_negative.
    unfold getCustomSplitStatisticMultivariateRegression.
    destruct (regression_sums a) as [[[sl sr] ls] rs].
    apply SumSign.add_signed; apply SumSign.scaled_square_signed; exact Hv.
  - unfold getCustomSplitStatisticMultivariateClassification.
    destruct (classification_counts a) as [[[[lc rc] ls] rs]|]; [|exact I].
    apply Sign.signed_not_negative.
    apply SumSign.add_signed.
    + change (signed false
                (Prim2SF (sum_squares a lc / IEEE.float_of_uint ls)%float)).
      rewrite div_spec. apply Sign.SFdiv_signed;
        [apply SumSign.sum_squares_signed | apply SumSign.of_uint_signed].
    + change (signed false
                (Prim2SF (sum_squares a rc / IEEE.float_of_uint rs)%float)).
      rewrite div_spec. apply Sign.SFdiv_signed;
        [apply SumSign.sum_squares_signed | apply SumSign.of_uint_signed].
Qed.

Lemma multivariate_never_negative_witness :
  PrimFloat.ltb 0 (variance mixed_classes) = true
  /\ PrimFloat.ltb
       (getCustomSplitStatisticMultivariateRegression mixed_classes) 0 = false.
Proof.
  split; [reflexivity|].
  apply (proj1 (multivariate_never_negative mixed_classes)). reflexivity.
Defined.

(** X18: the canonical-correlation rule does not depend on which daughter is
    called LEFT: with the memberships exchanged the two daughters exchange
    their blocks and their sizes, and the rule returns the same double and
    makes the same backend calls. *)
Theorem cca_symmetric (backend : Lapack float) (a : Node float) :
  (n a <= length (membership a))%nat ->
  ccaSplitAbsoluteDifference backend (swap_daughters a)
  = ccaSplitAbsoluteDifference backend a.
Proof.
  intros Hlen. unfold ccaSplitAbsoluteDifference.
  change (cca_dims (swap_daughters a)) with (cca_dims a).
  destruct (cca_dims a) as [[dimX dimY]|]; [|reflexivity].
  destruct ((0 <? dimX) && (0 <? dimY))%Z; [|reflexivity].
  cbn [n swap_daughters].
  destruct (Z.of_nat (n a) <? 2 ^ 31)%Z; [|reflexivity].
  rewrite !daughter_sizes_spec.
  destruct (sizes_swap a Hlen) as [-> ->].
  destruct (dimX + dimY <? 2 ^ 31)%Z; [|reflexivity].
  rewrite (andb_comm (dimX + dimY <? rghtSize a)%Z).
  destruct ((dimX + dimY <? leftSize a) && (dimX + dimY <? rghtSize a))%Z;
    [|reflexivity].
  rewrite (Z.mul_comm (rghtSize a)).
  destruct (leftSize a * rghtSize a <? 2 ^ 31)%Z; [|reflexivity].
  rewrite !(block_swap a Hlen). cbn [negb].
  change (@dfabs float float_ops) with PrimFloat.abs.
  change (@dsub float float_ops) with PrimFloat.sub.
  rewrite AbsDiff.abs_sub_comm. reflexivity.
Qed.

Lemma cca_symmetric_witness :
  (n cca_six <= length (membership cca_six))%nat
  /\ ccaSplitAbsoluteDifference null_backend (swap_daughters cca_six)
     = ccaSplitAbsoluteDifference null_backend cca_six.
Proof.
  split; [vm_compute; lia|].
  apply (@cca_symmetric null_backend cca_six). vm_compute. lia.
Defined.

Lemma two_observations_sorted : time_sorted two_observations.
Proof.
  intros i j Hi Hij Hj. cbn [n two_observations logrank_node] in Hj.
  apply ExactFacts.Rleb_true.
  assert ((i = 1 /\ j = 1) \/ (i = 1 /\ j = 2) \/ (i = 2 /\ j = 2))%nat
    as [[-> ->] | [[-> ->] | [-> ->]]] by lia;
    cbn [time two_observations logrank_node dget get1 nth]; lra.
Qed.

Lemma two_observations_observed : eventTime_observed two_observations.
Proof.
  intros k Hk. cbn [eventTimeSize two_observations logrank_node] in Hk.
  assert (k = 1)%nat as -> by lia. exists 1%nat.
  split; [cbn [n two_observations logrank_node]; lia|].
  unfold died. apply andb_true_intro. split.
  - apply ExactFacts.Reqb_true. reflexivity.
  - apply ExactFacts.Rltb_true.
    cbn [event two_observations logrank_node dget get1 nth].
    unfold d0. cbn [of_uint real_ops]. lra.
Qed.

(** X19: computed in exact arithmetic, the survival rule does not depend on
    which daughter is called LEFT, when n * n is below 2^32, the observations
    are sorted by time and every event time is the time of an observation
    that had an event: exchanging the memberships changes the sign of every
    term of the numerator and leaves every term of the denominator. *)
Theorem survival_symmetric_exact (a : Node R) :
  (n a <= length (membership a))%nat ->
  (Z.of_nat (n a) * Z.of_nat (n a) < modulus)%Z ->
  time_sorted a -> eventTime_observed a ->
  getCustomSplitStatisticSurvival (swap_daughters a)
  = getCustomSplitStatisticSurvival a.
Proof.
  intros Hlen Hnn Hs Ho.
  assert (n_fits a) as Hn by (unfold n_fits; nia).
  assert (forall k, (1 <= k <= eventTimeSize a)%nat ->
            (1 <= get (nodeParentAtRisk (survival_counts a)) k)%Z) as Hpos.
  { intros k Hk. apply (survival_at_risk_pos Hn Hk).
    destruct (Ho k Hk) as (i0 & Hi0 & Hd). exists i0. split; [exact Hi0|].
    apply (@ExactFacts.observed_at_risk_exact a k i0 Hs); [lia | exact Hd]. }
  assert (fold_left (fun s k => dadd s (logrank_num (survival_counts (swap_daughters a)) k))
            (seq 1 (eventTimeSize a)) d0
          = (- fold_left (fun s k => dadd s (logrank_num (survival_counts a) k))
                 (seq 1 (eventTimeSize a)) d0)%R) as Enum.
  { unfold d0. cbn [of_uint dadd real_ops].
    replace (IZR 0) with (- IZR 0)%R at 1 by (simpl; ring).
    apply ExactFacts.fold_opp. intros k Hk. apply in_seq in Hk.
    assert (1 <= k <= eventTimeSize a)%nat as Hk' by lia.
    destruct (survival_mirror Hlen Hn Hk') as (E1 & E2 & E3 & E4).
    destruct (stepped_range Hn k) as [[B1 B2] B3].
    destruct (survival_parent_bound Hn Hk') as [[B4 B5] B6].
    pose proof (Hpos k Hk') as B7.
    unfold logrank_num. rewrite E1, E2, E3, E4.
    cbn [of_uint dsub ddiv real_ops].
    rewrite !u32_small by nia.
    apply ExactFacts.num_mirror. exact B7. }
  assert (fold_left
            (fun s k =>
               if (2 <=? get (nodeParentAtRisk
                                (survival_counts (swap_daughters a))) k)%Z
               then dadd s (logrank_den (survival_counts (swap_daughters a)) k)
               else s)
            (seq 1 (eventTimeSize a)) d0
          = fold_left
              (fun s k =>
                 if (2 <=? get (nodeParentAtRisk (survival_counts a)) k)%Z
                 then dadd s (logrank_den (survival_counts a) k) else s)
              (seq 1 (eventTimeSize a)) d0) as Eden.
  { cbn [dadd real_ops].
    apply (@ExactFacts.fold_guarded_ext
             (logrank_den (survival_counts a))
             (logrank_den (survival_counts (swap_daughters a)))
             (fun k => (2 <=? get (nodeParentAtRisk (survival_counts a)) k)%Z)
             (fun k => (2 <=? get (nodeParentAtRisk
                                     (survival_counts (swap_daughters a))) k)%Z)).
    intros k Hk. apply in_seq in Hk.
    assert (1 <= k <= eventTimeSize a)%nat as Hk' by lia.
    destruct (survival_mirror Hlen Hn Hk') as (E1 & E2 & E3 & E4).
    rewrite E1. split; [reflexivity|]. intros _.
    unfold logrank_den. rewrite E1, E2, E3.
    unfold d1. cbn [of_uint dsub ddiv dmul real_ops].
    apply ExactFacts.den_mirror. apply Hpos. exact Hk'. }
  unfold getCustomSplitStatisticSurvival, logrank.
  rewrite !logrank_fold. cbn [eventTimeSize swap_daughters].
  rewrite Enum, Eden.
  unfold zero_guard. cbn [dfabs real_ops].
  rewrite Rabs_Ropp. reflexivity.
Qed.

Lemma survival_symmetric_exact_witness :
  (n two_observations <= length (membership two_observations))%nat
  /\ (Z.of_nat (n two_observations) * Z.of_nat (n two_observations)
      < modulus)%Z
  /\ time_sorted two_observations /\ eventTime_observed two_observations
  /\ getCustomSplitStatisticSurvival (swap_daughters two_observations)
     = getCustomSplitStatisticSurvival two_observations.
Proof.
  assert (n two_observations <= length (membership two_observations))%nat
    as Hlen by (simpl; lia).
  assert (Z.of_nat (n two_observations) * Z.of_nat (n two_observations)
          < modulus)%Z as Hnn by (vm_compute; reflexivity).
  split; [exact Hlen|]. split; [exact Hnn|].
  split; [exact two_observations_sorted|].
  split; [exact two_observations_observed|].
  apply (survival_symmetric_exact Hlen Hnn two_observations_sorted
           two_observations_observed).
Defined.

(** X20: computed in exact arithmetic, the competing-risk rule does not
    depend on which daughter is called LEFT, when the observations are
    sorted by time, every event time is the time of an observation that had
    an event and every event has a cause in 1 .. eventTypeSize. *)
Theorem competing_risk_symmetric_exact (a : Node R) :
  (n a <= length (membership a))%nat -> n_fits a ->
  time_sorted a -> eventTime_observed a -> causes_in_range a ->
  getCustomSplitStatisticCompetingRisk (swap_daughters a)
  = getCustomSplitStatisticCompetingRisk a.
Proof.
  intros Hlen Hn Hs Ho Hc.
  assert (forall k, (1 <= k <= eventTimeSize a)%nat ->
            (1 <= get (nodeParentAtRisk (survival_counts a)) k)%Z) as Hpos.
  { intros k Hk. apply (survival_at_risk_pos Hn Hk).
    destruct (Ho k Hk) as (i0 & Hi0 & Hd). exists i0. split; [exact Hi0|].
    apply (@ExactFacts.observed_at_risk_exact a k i0 Hs); [lia | exact Hd]. }
  destruct (cr_counts_mirror Hlen Hn Hc)
    as (c & c' & Ec & Ec' & Sc & Sc' & EP & EL).
  unfold getCustomSplitStatisticCompetingRisk. rewrite Ec, Ec'.
  rewrite (@ExactCR.logrankCR_mirror a (swap_daughters a) c c');
    try reflexivity.
  - destruct (logrankCR a c) as [num den]. cbn [fst snd].
    unfold zero_guard. cbn [dfabs real_ops]. rewrite Rabs_Ropp. reflexivity.
  - intros j k Hj Hk.
    destruct (inclusive_mirror Hlen Hn Sc Sc' EP EL Hj Hk) as (E1 & E2 & E3).
    assert (1 <= UIMatrix.get (nodeParentInclusiveAtRisk c) j k)%Z as Hpi.
    { rewrite (crs_pi Sc Hj Hk), (crs_pa Sc).
      assert (cells_nonneg (nodeParentEventCR c)) as Hnn.
      { intros r s. pose proof (crs_cell Sc r s). lia. }
      pose proof (@other_events_nonneg _ a (nodeParentEventCR c) j k Hnn).
      pose proof (Hpos k Hk). lia. }
    split; [|split; [exact E1|]].
    + unfold cr_num. rewrite E2, E3, EP, EL.
      cbn [of_uint dsub dmul ddiv real_ops].
      apply ExactCR.cr_num_mirror. exact Hpi.
    + unfold cr_den. rewrite E2, E3, EP.
      unfold d1. cbn [of_uint dsub dmul ddiv real_ops].
      apply ExactCR.cr_den_mirror. exact Hpi.
Qed.

Lemma competing_risk_symmetric_exact_witness :
  (n two_observations <= length (membership two_observations))%nat
  /\ n_fits two_observations
  /\ time_sorted two_observations /\ eventTime_observed two_observations
  /\ causes_in_range two_observations
  /\ getCustomSplitStatisticCompetingRisk (swap_daughters two_observations)
     = getCustomSplitStatisticCompetingRisk two_observations.
Proof.
  assert (n two_observations <= length (membership two_observations))%nat
    as Hlen by (simpl; lia).
  assert (n_fits two_observations) as Hn by (vm_compute; reflexivity).
  split; [exact Hlen|]. split; [exact Hn|].
  split; [exact two_observations_sorted|].
  split; [exact two_observations_observed|].
  split; [exact two_observations_causes|].
  apply (competing_risk_symmetric_exact Hlen Hn two_observations_sorted
           two_observations_observed two_observations_causes).
Defined.

(** X21: the two log-rank rules read the times only through the comparisons
    eventTime[k] <= time[i] and eventTime[k] == time[i]: on other times and
    event times for which these comparisons have the same outcomes, for
    instance the same times in another unit, both rules return the same
    value, whatever the arithmetic. *)
Theorem logrank_reads_order_of_times {D : Type} {ops : DoubleOps D}
    (a : Node D) (time' eventTime' : list D) :
  same_order a (retimed a time' eventTime') ->
  getCustomSplitStatisticSurvival (retimed a time' eventTime')
  = getCustomSplitStatisticSurvival a
  /\ getCustomSplitStatisticCompetingRisk (retimed a time' eventTime')
     = getCustomSplitStatisticCompetingRisk a.
Proof.
  intros H. split.
  - unfold getCustomSplitStatisticSurvival, survival_counts.
    cbn [eventTimeSize n retimed].
    rewrite (retimed_sweep H) by lia. reflexivity.
  - unfold getCustomSplitStatisticCompetingRisk, competing_risk_counts.
    cbn [eventTimeSize n retimed].
    change (reset_cr_counts (retimed a time' eventTime'))
      with (reset_cr_counts a).
    rewrite (retimed_cr_sweep H) by lia. reflexivity.
Qed.

Lemma logrank_reads_order_of_times_witness :
  same_order two_causes (retimed two_causes doubled_times doubled_eventTime)
  /\ getCustomSplitStatisticSurvival
       (retimed two_causes doubled_times doubled_eventTime)
     = getCustomSplitStatisticSurvival two_causes.
Proof.
  assert (same_order two_causes
            (retimed two_causes doubled_times doubled_eventTime)) as H
    by (apply same_orderb_ok; vm_compute; reflexivity).
  split; [exact H|].
  apply (proj1 (logrank_reads_order_of_times H)).
Defined.

(** X22: a label stored as a double is read back exactly.  When response[i]
    is the double of an unsigned integer c the classification rule counts
    the observation in the cell c, and indexes outside its vectors exactly
    when c is above maxLevel; when event[i] is the double of c the
    competing-risk rule counts the event in the row c, and indexes outside
    its matrices exactly when c is 0 or above eventTypeSize. *)
Theorem labels_read_back (a : Node float) (i : nat) (c : Z) :
  (0 <= c < modulus)%Z ->
  (dget (response a) i = of_uint c ->
   class_of a i = if (c <=? Z.of_nat (maxLevel a))%Z
                  then Some (Z.to_nat c) else None)
  /\ (dget (event a) i = of_uint c ->
      cause_of a i = if ((1 <=? c) && (c <=? Z.of_nat (eventTypeSize a)))%Z
                     then Some (Z.to_nat c) else None).
Proof.
  intros Hc. split; intros E.
  - unfold class_of. rewrite E.
    change (to_uint (of_uint c))
      with (IEEE.float_to_uint (IEEE.float_of_uint c)).
    now rewrite Casts.to_uint_of_uint.
  - unfold cause_of. rewrite E.
    change (to_uint (of_uint c))
      with (IEEE.float_to_uint (IEEE.float_of_uint c)).
    now rewrite Casts.to_uint_of_uint.
Qed.

Lemma labels_read_back_witness :
  (0 <= 2 < modulus)%Z /\ class_of labelled 2 = Some 2%nat.
Proof.
  split; [vm_compute; split; [discriminate | reflexivity]|].
  apply (proj1 (@labels_read_back labelled 2 2
                  ltac:(vm_compute; split; [discriminate | reflexivity]))).
  reflexivity.
Defined.

(** X23: when the observations are sorted by time and the event times
    increase, the competing-risk rule indexes outside its event matrices
    exactly when some observation has its time at an event time, an event,
    and a label that, converted to an unsigned integer, is not one of
    1 .. eventTypeSize. *)
Theorem competing_risk_defined_iff (a : Node float) :
  time_sorted a -> eventTime_increasing a ->
  getCustomSplitStatisticCompetingRisk a = None
  <-> exists i k, (1 <= i <= n a)%nat /\ (1 <= k <= eventTimeSize a)%nat
        /\ died a i k = true /\ cause_of a i = None.
Proof.
  intros Hs He.
  assert (forall j j' m, (1 <= j <= j')%nat -> (j' <= n a)%nat ->
            (1 <= m <= eventTimeSize a)%nat ->
            still_at_risk a j m = true -> still_at_risk a j' m = true)
    as Hmono by (intros j j' m H1 H2 _; now apply sorted_mono).
  assert (forall j m m', (1 <= j <= n a)%nat -> (1 <= m <= m')%nat ->
            (m' <= eventTimeSize a)%nat ->
            still_at_risk a j m' = true -> still_at_risk a j m = true)
    as Hanti by (intros j m m' _; now apply increasing_anti).
  pose proof (@cr_sweep_None _ _ a Hmono Hanti (eventTimeSize a) (n a)
                (reset_cr_counts a) (Nat.le_refl _) (Nat.le_refl _)
                ltac:(intros; lia)) as H.
  unfold getCustomSplitStatisticCompetingRisk, competing_risk_counts.
  destruct (cr_sweep a (eventTimeSize a) (n a) (reset_cr_counts a)) as [c|].
  - split.
    + destruct (logrankCR a _). discriminate.
    + intros (i & k & Hi & Hk & Hd & Hn).
      assert (Some c = None) as N; [|discriminate N].
      apply H. exists i, k. repeat split; try assumption; try lia.
      apply (died_lands He i Hk Hd).
  - split; [|reflexivity]. intros _.
    destruct (proj1 H eq_refl) as (i & k & Hi & Hk & _ & Hd & Hn).
    exists i, k. repeat split; assumption || lia.
Qed.

Lemma competing_risk_defined_iff_witness :
  time_sorted two_causes /\ eventTime_increasing two_causes
  /\ (getCustomSplitStatisticCompetingRisk two_causes = None
      <-> exists i k, (1 <= i <= n two_causes)%nat
            /\ (1 <= k <= eventTimeSize two_causes)%nat
            /\ died two_causes i k = true /\ cause_of two_causes i = None).
Proof.
  assert (time_sorted two_causes) as Hs
    by (apply time_sortedb_ok; vm_compute; reflexivity).
  assert (eventTime_increasing two_causes) as He
    by (apply eventTime_increasingb_ok; vm_compute; reflexivity).
  split; [exact Hs|]. split; [exact He|].
  apply (competing_risk_defined_iff Hs He).
Defined.
